(** * Google Drive Copier: job registry, batch copy engine and URL parser

    A shallow embedding of the TypeScript sources
    - [config/constants.ts]          (COPY_CONFIG, URL_PATTERNS, MIME_TYPES)
    - [lib/utils/url-parser]         (parseGoogleDriveUrl)
    - [lib/services/google-drive]    (createFolder, copyFile, copyFolder, ...)
    - [lib/services/copy.service]    (CopyService.batchCopy)
    - [lib/services/job.service]     (JobService)
    - [app/api/copy/route.ts]        (POST)
    - [app/api/copy/status/[jobId]/route.ts]  (GET, DELETE)
    - [lib/utils/url-parser], [lib/utils/format]  (the helpers)
    followed by the properties of the specification that were checked
    against them, and by further properties of the code. *)

From Stdlib Require Import ZArith NArith List String Ascii Bool Lia.
From stdpp Require Import base option list gmap fin_maps pretty.

Local Open Scope Z_scope.

(** ** JavaScript strings

    A JavaScript string is a sequence of UTF-16 code units.  Regular
    expressions without the [u] flag, [String.prototype.trim] and string
    concatenation all work on code units, so a string is a list of
    numbers. *)

Abbreviation jsstring := (list N).

(** A string literal of the source (ASCII only) as code units. *)
Definition js (s : string) : jsstring :=
  map N_of_ascii (list_ascii_of_string s).
Arguments js : simpl never.

(** Template literal [`${n}`] for a non-negative integer. *)
Definition js_of_nat (n : nat) : jsstring := js (pretty n).

(** [WhiteSpace] and [LineTerminator] code points of ECMAScript, the
    characters removed by [trim]. *)
Definition is_line_terminator (c : N) : bool :=
  ((c =? 10) || (c =? 13) || (c =? 8232) || (c =? 8233))%N.

Definition is_white_space (c : N) : bool :=
  ((c =? 9) || (c =? 11) || (c =? 12) || (c =? 32) || (c =? 160)
   || (c =? 5760) || ((8192 <=? c) && (c <=? 8202))
   || (c =? 8239) || (c =? 8287) || (c =? 12288) || (c =? 65279))%N.

Definition is_trim_char (c : N) : bool :=
  is_white_space c || is_line_terminator c.

Fixpoint trim_start (s : jsstring) : jsstring :=
  match s with
  | c :: s' => if is_trim_char c then trim_start s' else s
  | [] => []
  end.

Definition trim_end (s : jsstring) : jsstring :=
  rev (trim_start (rev s)).

(** [String.prototype.trim] *)
Definition trim (s : jsstring) : jsstring := trim_end (trim_start s).

(** ** Regular expressions of [URL_PATTERNS]

    The five patterns only use literal characters, the classes [.] and
    [[a-zA-Z0-9_-]], greedy repetition of a class, one capturing group
    around such a repetition, and the anchors.  The matcher is the
    backtracking matcher of ECMAScript restricted to these forms. *)

Inductive CharSet : Type :=
| CsAny      (* .              : anything but a line terminator *)
| CsIdChar.  (* [a-zA-Z0-9_-] *)

Definition is_id_char (c : N) : bool :=
  (((97 <=? c) && (c <=? 122)) || ((65 <=? c) && (c <=? 90))
   || ((48 <=? c) && (c <=? 57)) || (c =? 95) || (c =? 45))%N.

Definition in_charset (cs : CharSet) (c : N) : bool :=
  match cs with
  | CsAny => negb (is_line_terminator c)
  | CsIdChar => is_id_char c
  end.

Inductive Atom : Type :=
| ALit (c : N)                     (* one literal character *)
| ARep (cs : CharSet) (lo : nat)   (* cs*  (lo = 0), cs+ (lo = 1), cs{lo,} ; greedy *)
| ACap (cs : CharSet) (lo : nat)   (* ( cs{lo,} ) : capturing group 1 *)
| AStart                           (* ^ *)
| AEnd.                            (* $ *)

Abbreviation regex := (list Atom).

Definition lit (s : string) : regex := map ALit (js s).

(** Length of the longest prefix of [s] made of characters of [cs]. *)
Fixpoint run_length (cs : CharSet) (s : jsstring) : nat :=
  match s with
  | c :: s' => if in_charset cs c then S (run_length cs s') else 0%nat
  | [] => 0%nat
  end.

(** Greedy choice with backtracking: try [k], [k-1], ..., [lo]. *)
Fixpoint try_down {A : Type} (f : nat -> option A) (lo k : nat) : option A :=
  if (k <? lo)%nat then None
  else match f k with
       | Some r => Some r
       | None => match k with
                 | O => None
                 | S k' => try_down f lo k'
                 end
       end.

(** [match_here r bos s]: match [r] at the beginning of [s]; [bos] tells
    whether [s] starts at the beginning of the input.  The result is the
    content of group 1, when the group took part in the match. *)
Fixpoint match_here (r : regex) (bos : bool) (s : jsstring)
  : option (option jsstring) :=
  match r with
  | [] => Some None
  | ALit c :: r' =>
      match s with
      | x :: s' => if (x =? c)%N then match_here r' false s' else None
      | [] => None
      end
  | ARep cs lo :: r' =>
      try_down
        (fun n => match_here r' (bos && Nat.eqb n 0) (drop n s))
        lo (run_length cs s)
  | ACap cs lo :: r' =>
      try_down
        (fun n =>
           match match_here r' (bos && Nat.eqb n 0) (drop n s) with
           | Some _ => Some (Some (take n s))
           | None => None
           end)
        lo (run_length cs s)
  | AStart :: r' => if bos then match_here r' bos s else None
  | AEnd :: r' =>
      match s with
      | [] => match_here r' bos s
      | _ :: _ => None
      end
  end.

(** The leftmost match: start positions are tried from left to right. *)
Fixpoint search_from (r : regex) (bos : bool) (s : jsstring)
  : option (option jsstring) :=
  match match_here r bos s with
  | Some m => Some m
  | None =>
      match s with
      | [] => None
      | _ :: s' => search_from r false s'
      end
  end.

(** [RegExp.prototype.exec] for a pattern without flags. *)
Definition regex_exec (r : regex) (s : jsstring) : option (option jsstring) :=
  search_from r true s.

(** [RegExp.prototype.test] *)
Definition regex_test (r : regex) (s : jsstring) : bool :=
  match regex_exec r s with Some _ => true | None => false end.

(** ** [config/constants.ts] *)

Module COPY_CONFIG.
Definition DEFAULT_CONCURRENCY : Z := 3.
Definition MIN_CONCURRENCY : Z := 1.
Definition MAX_CONCURRENCY : Z := 10.
End COPY_CONFIG.

Module URL_PATTERNS.
Definition DRIVE_FILE : regex :=
  lit "drive.google.com/file/d/" ++ [ACap CsIdChar 1].
Definition DRIVE_FILE_OPEN : regex :=
  lit "drive.google.com/open?id=" ++ [ACap CsIdChar 1].
Definition DRIVE_FILE_UC : regex :=
  lit "drive.google.com/uc?" ++ [ARep CsAny 0] ++ lit "id="
    ++ [ACap CsIdChar 1].
Definition DRIVE_FOLDER : regex :=
  lit "drive.google.com/drive/folders/" ++ [ACap CsIdChar 1].
Definition DRIVE_ID_ONLY : regex :=
  [AStart; ARep CsIdChar 25; AEnd].
End URL_PATTERNS.

Module MIME_TYPES.
Definition FOLDER : jsstring := js "application/vnd.google-apps.folder".
End MIME_TYPES.

(** ** [parseGoogleDriveUrl] *)

Inductive DriveResourceType : Type := file | folder.

Record ParsedDriveUrl : Type := mkParsed {
  parsed_id : jsstring;
  parsed_type : DriveResourceType
}.

Definition patterns : list (regex * DriveResourceType) :=
  [ (URL_PATTERNS.DRIVE_FILE, file);
    (URL_PATTERNS.DRIVE_FILE_OPEN, file);
    (URL_PATTERNS.DRIVE_FILE_UC, file);
    (URL_PATTERNS.DRIVE_FOLDER, folder) ].

(** [match && match[1]]: the pattern matched and group 1 is a non-empty
    string. *)
Definition match_group1 (r : regex) (s : jsstring) : option jsstring :=
  match regex_exec r s with
  | Some (Some (c :: m)) => Some (c :: m)
  | _ => None
  end.

(** The [for (const { regex, type } of patterns)] loop. *)
Fixpoint try_patterns (ps : list (regex * DriveResourceType)) (s : jsstring)
  : option ParsedDriveUrl :=
  match ps with
  | [] => None
  | (r, t) :: ps' =>
      match match_group1 r s with
      | Some m => Some (mkParsed m t)
      | None => try_patterns ps' s
      end
  end.

(** [None] is the [null] of the source.  The argument has type [string],
    so of the first test only [!url] (the empty string) remains. *)
Definition parseGoogleDriveUrl (url : jsstring) : option ParsedDriveUrl :=
  match url with
  | [] => None
  | _ =>
      let trimmedUrl := trim url in
      match try_patterns patterns trimmedUrl with
      | Some p => Some p
      | None =>
          if regex_test URL_PATTERNS.DRIVE_ID_ONLY trimmedUrl
          then Some (mkParsed trimmedUrl file)
          else None
      end
  end.

(** ** Core types ([types/index.ts]) *)

Inductive CopyItemStatus : Type :=
| st_pending | st_processing | st_success | st_error.

Inductive JobStatus : Type :=
| job_processing | job_complete | job_error.

#[global] Instance CopyItemStatus_eq_dec : EqDecision CopyItemStatus.
Proof. solve_decision. Defined.

#[global] Instance JobStatus_eq_dec : EqDecision JobStatus.
Proof. solve_decision. Defined.

Record CopyItemResult : Type := mkItemResult {
  res_id : jsstring;
  res_name : jsstring;
  res_size : option jsstring
}.

Record CopyItem : Type := mkItem {
  item_index : nat;
  item_url : jsstring;
  item_status : CopyItemStatus;
  item_progress : Z;
  item_message : jsstring;
  item_result : option CopyItemResult;
  item_error : option jsstring
}.

Record CopyJob : Type := mkJob {
  job_id : jsstring;
  job_status : JobStatus;
  totalItems : nat;
  completedItems : nat;
  job_items : list CopyItem;
  job_targetFolderId : jsstring;
  createdAt : Z          (* milliseconds since the epoch *)
}.

Record DriveFileMetadata : Type := mkMeta {
  md_id : jsstring;
  md_name : jsstring;
  md_mimeType : jsstring;
  md_size : option jsstring;
  md_parents : option (list jsstring)
}.

Record BatchCopyResult : Type := mkResult {
  bcr_url : jsstring;
  bcr_success : bool;
  bcr_id : option jsstring;
  bcr_name : option jsstring;
  bcr_error : option jsstring
}.

(** The four arguments of a [ProgressCallback]. *)
Record ProgressEvent : Type := mkEvent {
  ev_index : nat;
  ev_status : CopyItemStatus;
  ev_progress : Z;
  ev_message : jsstring
}.

(** ** Thrown values ([lib/utils/errors]) *)

Inductive exn : Type :=
| AppError (message : jsstring)     (* instance of AppError (extends Error) *)
| OtherError (message : jsstring)   (* any other instance of Error *)
| NotAnError.                       (* a thrown value that is no Error *)

(** ** The remote Drive

    The Drive API is the external collaborator.  Its answers are given by
    an oracle: each request is answered as a function of the number of
    requests made before it ([tick]) and of its arguments, with a thrown
    value or with the response data.  Nothing is assumed about the
    answers. *)

Record CopyResponse : Type := mkCopyResponse {
  cr_id : jsstring;
  cr_name : option jsstring;
  cr_size : option jsstring
}.

Record DriveApi : Type := mkDrive {
  (* outcome of [initialize()]: the message of the AppError it throws *)
  drive_initialize : nat -> option jsstring;
  (* drive.files.create({requestBody: {name, mimeType, parents}}) : data.id *)
  files_create : nat -> jsstring -> jsstring -> option jsstring
                 -> exn + option jsstring;
  (* drive.permissions.create({fileId, requestBody: {role, type}}) *)
  permissions_create : nat -> jsstring -> jsstring -> jsstring -> exn + unit;
  (* drive.files.get({fileId}) *)
  files_get : nat -> jsstring -> exn + DriveFileMetadata;
  (* drive.files.copy({fileId, requestBody: {name, parents: [target]}}) *)
  files_copy : nat -> jsstring -> jsstring -> jsstring -> exn + CopyResponse;
  (* drive.files.list({q: `'${folderId}' in parents ...`}) : data.files *)
  files_list : nat -> jsstring -> exn + option (list DriveFileMetadata)
}.

Inductive ApiCall : Type :=
| FilesCreate (name mimeType : jsstring) (parent : option jsstring)
| PermissionsCreate (fileId role type : jsstring)
| FilesGet (fileId : jsstring)
| FilesCopy (fileId name parent : jsstring)
| FilesList (folderId : jsstring).

(** What a request did: it threw, or it returned, and then possibly with
    the id of a resource it created. *)
Inductive ApiResult : Type :=
| Fault
| Returned (newId : option jsstring).

Record ApiEvent : Type := mkApiEvent {
  api_call : ApiCall;
  api_result : ApiResult
}.

(** What the body of the worker loop does that is visible outside:
    [onProgress?.(...)] and [results[item.index] = ...]. *)
Inductive Action : Type :=
| AEmit (e : ProgressEvent)
| AStore (index : nat) (r : BatchCopyResult).

Record World : Type := mkWorld {
  tick : nat;                (* number of Drive requests made *)
  calls : list ApiEvent;     (* the requests, oldest first *)
  actions : list Action      (* callbacks and stores, oldest first *)
}.

(** ** Computations of the services

    State over the world, with exceptions.  [Diverged] is the outcome of a
    recursion that exhausted its fuel; it is not an exception and no
    [catch] sees it. *)

Inductive Res (A : Type) : Type :=
| Val (a : A)
| Thrown (e : exn)
| Diverged.
Arguments Val {A} a.
Arguments Thrown {A} e.
Arguments Diverged {A}.

Definition M (A : Type) : Type := World -> Res A * World.

#[global] Instance M_ret : MRet M :=
  fun A a w => (Val a, w).

#[global] Instance M_bind : MBind M :=
  fun A B f m w =>
    match m w with
    | (Val a, w') => f a w'
    | (Thrown e, w') => (Thrown e, w')
    | (Diverged, w') => (Diverged, w')
    end.

Definition throw {A : Type} (e : exn) : M A :=
  fun w => (Thrown e, w).

Definition try_catch {A : Type} (body : M A) (handler : exn -> M A) : M A :=
  fun w =>
    match body w with
    | (Thrown e, w') => handler e w'
    | r => r
    end.

Definition diverge {A : Type} : M A := fun w => (Diverged, w).

Definition act (a : Action) : M unit :=
  fun w => (Val tt, mkWorld (tick w) (calls w) (actions w ++ [a])).

(** One request to the Drive. *)
Definition request {A : Type} (c : ApiCall) (answer : nat -> exn + A)
    (newId : A -> option jsstring) : M A :=
  fun w =>
    let r := answer (tick w) in
    let w' := fun outcome =>
                mkWorld (S (tick w)) (calls w ++ [mkApiEvent c outcome])
                        (actions w) in
    match answer (tick w) with
    | inl e => (Thrown e, w' Fault)
    | inr a => (Val a, w' (Returned (newId a)))
    end.

(** [f?.(x)] *)
Definition call_opt {X : Type} (f : option (X -> M unit)) (x : X) : M unit :=
  match f with
  | Some g => g x
  | None => mret tt
  end.

(** [a || b] on an optional string: [undefined] and [''] are falsy. *)
Definition js_or (a : option jsstring) (b : jsstring) : jsstring :=
  match a with
  | Some (c :: s) => c :: s
  | _ => b
  end.

(** [a || undefined] *)
Definition js_or_undefined (a : option jsstring) : option jsstring :=
  match a with
  | Some (c :: s) => Some (c :: s)
  | _ => None
  end.

(** ** [GoogleDriveService] *)

Section GoogleDriveService.
Variable D : DriveApi.

Definition initialize : M unit :=
  fun w =>
    match drive_initialize D (tick w) with
    | Some msg => (Thrown (AppError msg), w)
    | None => (Val tt, w)
    end.

Definition rethrow_app {A : Type} (fallback : string) (e : exn) : M A :=
  match e with
  | AppError m => throw (AppError m)
  | _ => throw (AppError (js fallback))
  end.

Definition createFolder (name : jsstring) (parentId : option jsstring)
  : M jsstring :=
  try_catch
    (_ ← initialize;
     let parents := match parentId with
                    | Some (c :: p) => Some (c :: p)
                    | _ => None
                    end in
     response_id ← request (FilesCreate name MIME_TYPES.FOLDER parents)
                     (fun t => files_create D t name MIME_TYPES.FOLDER parents)
                     (fun i => i);
     match response_id with
     | Some (c :: f) =>
         let folderId := c :: f in
         (* Make folder public *)
         _ ← request (PermissionsCreate folderId (js "reader") (js "anyone"))
               (fun t => permissions_create D t folderId (js "reader")
                           (js "anyone"))
               (fun _ => None);
         mret folderId
     | _ => throw (AppError (js "Failed to create folder: No ID returned"))
     end)
    (rethrow_app "Failed to create folder").

Definition getFileMetadata (fileId : jsstring) : M DriveFileMetadata :=
  try_catch
    (_ ← initialize;
     data ← request (FilesGet fileId) (fun t => files_get D t fileId)
              (fun _ => None);
     mret (mkMeta (md_id data) (md_name data) (md_mimeType data)
                  (js_or_undefined (md_size data)) (md_parents data)))
    (fun _ => throw (AppError (js "Failed to get file metadata"))).

Definition copyFile (sourceFileId targetFolderId : jsstring)
    (newName : option jsstring) (onProgress : option (Z -> M unit))
  : M CopyItemResult :=
  try_catch
    (_ ← initialize;
     sourceFile ← getFileMetadata sourceFileId;
     let fileName := js_or newName (md_name sourceFile) in
     _ ← call_opt onProgress 10;
     response ← request (FilesCopy sourceFileId fileName targetFolderId)
                  (fun t => files_copy D t sourceFileId fileName
                              targetFolderId)
                  (fun r => Some (cr_id r));
     _ ← call_opt onProgress 90;
     (* Make file public *)
     _ ← request (PermissionsCreate (cr_id response) (js "reader")
                    (js "anyone"))
           (fun t => permissions_create D t (cr_id response) (js "reader")
                       (js "anyone"))
           (fun _ => None);
     _ ← call_opt onProgress 100;
     mret (mkItemResult (cr_id response)
                        (js_or (cr_name response) fileName)
                        (Some (js_or (cr_size response) (js "0")))))
    (fun _ => throw (AppError (js "Failed to copy file"))).

Definition listFilesInFolder (folderId : jsstring)
  : M (list DriveFileMetadata) :=
  try_catch
    (_ ← initialize;
     data ← request (FilesList folderId) (fun t => files_list D t folderId)
              (fun _ => None);
     let files := match data with Some l => l | None => [] end in
     mret (map (fun f => mkMeta (md_id f) (md_name f) (md_mimeType f)
                                (js_or_undefined (md_size f)) None)
               files))
    (fun _ => throw (AppError (js "Failed to list files in folder"))).

Record FolderResult : Type := mkFolderResult {
  fr_id : jsstring;
  fr_name : jsstring;
  filesCopied : nat
}.

Definition jsstring_eqb (a b : jsstring) : bool := bool_decide (a = b).

(** The [for] loop of [copyFolder] over [files], from position [i] on;
    [copySubfolder] is the call of [copyFolder] on a subfolder. *)
Fixpoint copy_children
    (copySubfolder : jsstring -> jsstring -> jsstring -> M unit)
    (onProgress : option (nat * nat * jsstring -> M unit))
    (newFolderId : jsstring) (total : nat)
    (rest : list DriveFileMetadata) (i filesCopied : nat) : M nat :=
  match rest with
  | [] => mret filesCopied
  | f :: rest' =>
      _ ← call_opt onProgress ((i + 1)%nat, total, md_name f);
      _ ← (if jsstring_eqb (md_mimeType f) MIME_TYPES.FOLDER
           then (* Recursively copy subfolder *)
             copySubfolder (md_id f) newFolderId (md_name f)
           else (* Copy file *)
             _ ← copyFile (md_id f) newFolderId None None;
             mret tt);
      copy_children copySubfolder onProgress newFolderId total rest'
        (S i) (S filesCopied)
  end.

(** [copyFolder] calls itself on every subfolder, without a bound in the
    source.  [fuel] bounds the depth of the calls; when it is exhausted
    the computation is [diverge]. *)
Fixpoint copyFolder (fuel : nat) (sourceFolderId targetParentId : jsstring)
    (newName : option jsstring)
    (onProgress : option (nat * nat * jsstring -> M unit))
  : M FolderResult :=
  match fuel with
  | O => diverge
  | S fuel' =>
      try_catch
        (_ ← initialize;
         sourceFolder ← getFileMetadata sourceFolderId;
         let folderName := js_or newName (md_name sourceFolder) in
         newFolderId ← createFolder folderName (Some targetParentId);
         files ← listFilesInFolder sourceFolderId;
         filesCopied ← copy_children
                         (fun id target name =>
                            _ ← copyFolder fuel' id target (Some name) None;
                            mret tt)
                         onProgress newFolderId (length files) files
                         0%nat 0%nat;
         mret (mkFolderResult newFolderId folderName filesCopied))
        (fun _ => throw (AppError (js "Failed to copy folder")))
  end.

End GoogleDriveService.

(** ** Numbers

    A [number] of the source, as far as the code that handles
    [concurrency] tells numbers apart: an integer, or NaN.  (A fraction is
    clamped like an integer and then truncated by [Array.from]; the
    infinities are clamped like large integers.) *)

Inductive jsnumber : Type :=
| JsInt (z : Z)
| JsNaN.

(** [Math.min] and [Math.max]: NaN as soon as an argument is NaN. *)
Definition Math_min (a b : jsnumber) : jsnumber :=
  match a, b with
  | JsInt x, JsInt y => JsInt (Z.min x y)
  | _, _ => JsNaN
  end.

Definition Math_max (a b : jsnumber) : jsnumber :=
  match a, b with
  | JsInt x, JsInt y => JsInt (Z.max x y)
  | _, _ => JsNaN
  end.

(** [ToLength], applied by [Array.from({ length })]: NaN and the negative
    numbers give 0. *)
Definition ToLength (n : jsnumber) : nat :=
  match n with
  | JsInt z => Z.to_nat z
  | JsNaN => 0%nat
  end.

(** ** [CopyService.batchCopy] *)

Record Item : Type := mkBatchItem {
  it_url : jsstring;
  it_index : nat;
  it_parsed : option ParsedDriveUrl
}.

(** [Math.max(MIN_CONCURRENCY, Math.min(concurrency, MAX_CONCURRENCY))] *)
Definition safeConcurrency (concurrency : jsnumber) : jsnumber :=
  Math_max (JsInt COPY_CONFIG.MIN_CONCURRENCY)
           (Math_min concurrency (JsInt COPY_CONFIG.MAX_CONCURRENCY)).

(** [urls.map((url, index) => ({ url, index, parsed: ... }))] *)
Definition make_items (urls : list jsstring) : list Item :=
  imap (fun index url => mkBatchItem url index (parseGoogleDriveUrl url)) urls.

(** [onProgress?.(index, status, progress, message)], with the callback
    that [processJob] passes. *)
Definition onProgress (index : nat) (status : CopyItemStatus) (progress : Z)
    (message : jsstring) : M unit :=
  act (AEmit (mkEvent index status progress message)).

Section ProcessItem.
(** [Math.floor((current / total) * 100)], computed by JavaScript in
    binary64 floating point.  The engine is stated for any such
    function. *)
Variable floor_percent : nat -> nat -> Z.
Variable D : DriveApi.
Variable fuel : nat.
Variable targetFolderId : jsstring.

(** The arrow function handed to [copyFile]. *)
Definition file_callback (index : nat) (progress : Z) : M unit :=
  onProgress index st_processing progress (js "Copying file...").

(** The arrow function handed to [copyFolder]. *)
Definition folder_callback (index : nat) (x : nat * nat * jsstring)
  : M unit :=
  let '(current, total, fileName) := x in
  let progress := floor_percent current total in
  onProgress index st_processing progress
    (js "Copying: " ++ fileName ++ js " (" ++ js_of_nat current ++ js "/"
       ++ js_of_nat total ++ js ")").

(** The body of the [while] loop of a worker for the claimed [item]:
    the [try] block and its [catch].  ([logError] only writes to the
    console.) *)
Definition process_item (item : Item) : M unit :=
  try_catch
    (match it_parsed item with
     | None => throw (AppError (js "Invalid Google Drive URL"))
     | Some parsed =>
         _ ← onProgress (it_index item) st_processing 0 (js "Starting...");
         match parsed_type parsed with
         | file =>
             result ← copyFile D (parsed_id parsed) targetFolderId None
                        (Some (file_callback (it_index item)));
             _ ← act (AStore (it_index item)
                        (mkResult (it_url item) true (Some (res_id result))
                                  (Some (res_name result)) None));
             onProgress (it_index item) st_success 100
               (js "Copied: " ++ res_name result)
         | folder =>
             result ← copyFolder D fuel (parsed_id parsed) targetFolderId
                        None (Some (folder_callback (it_index item)));
             _ ← act (AStore (it_index item)
                        (mkResult (it_url item) true (Some (fr_id result))
                                  (Some (fr_name result)) None));
             onProgress (it_index item) st_success 100
               (js "Copied folder: " ++ fr_name result ++ js " ("
                  ++ js_of_nat (filesCopied result) ++ js " files)")
         end
     end)
    (fun error =>
       let message := match error with
                      | AppError m | OtherError m => m
                      | NotAnError => js "Unknown error"
                      end in
       _ ← act (AStore (it_index item)
                  (mkResult (it_url item) false None None (Some message)));
       onProgress (it_index item) st_error 0 (js "Error: " ++ message)).

End ProcessItem.

Definition world0 : World := mkWorld 0 [] [].

(** *** The worker pool

    [batchCopy] starts [Math.min(safeConcurrency, items.length)] workers
    over the shared cursor [currentIndex].  A worker gives way to the
    others while it awaits the Drive; between two callbacks of one worker
    any number of steps of the others can take place. *)

Inductive Worker : Type :=
| AtLoopHead          (* about to test [currentIndex < items.length] *)
| Busy (itemIndex : nat) (todo : list Action) (halts : bool)
                      (* in the loop body for [items[itemIndex]] *)
| Finished.           (* [processItem()] has resolved *)

Record Engine : Type := mkEngine {
  eng_percent : nat -> nat -> Z;
  eng_drive : nat -> DriveApi;   (* the Drive as item [i] meets it *)
  eng_fuel : nat;
  eng_target : jsstring;
  eng_items : list Item;
  currentIndex : nat;
  workers : list Worker;
  results : list (option BatchCopyResult)
}.

(** The beginning of [batchCopy], up to [Array.from({ length: ... })]. *)
Definition batchCopy_start (pct : nat -> nat -> Z) (drive : nat -> DriveApi)
    (fuel : nat) (urls : list jsstring) (targetFolderId : jsstring)
    (concurrency : jsnumber) : Engine :=
  let safe := safeConcurrency concurrency in
  let items := make_items urls in
  mkEngine pct drive fuel targetFolderId items 0%nat
    (replicate (ToLength (Math_min safe (JsInt (Z.of_nat (length items)))))
               AtLoopHead)
    (replicate (length urls) None).

(** What the loop body does for item [i], and whether it comes back. *)
Definition run_item (E : Engine) (i : nat) (item : Item) : Res unit * World :=
  process_item (eng_percent E) (eng_drive E i) (eng_fuel E) (eng_target E)
    item world0.

Definition is_val {A : Type} (r : Res A) : bool :=
  match r with
  | Diverged => false
  | _ => true
  end.

Definition set_worker (E : Engine) (w : nat) (x : Worker) : Engine :=
  mkEngine (eng_percent E) (eng_drive E) (eng_fuel E) (eng_target E)
    (eng_items E) (currentIndex E) (<[w := x]> (workers E)) (results E).

(** One step of worker number [w]; the callback it made, if any. *)
Definition engine_step (w : nat) (E : Engine)
  : option (Engine * option ProgressEvent) :=
  match workers E !! w with
  | None => None
  | Some AtLoopHead =>
      match eng_items E !! currentIndex E with
      | Some item =>
          (* const itemIndex = currentIndex++ *)
          let itemIndex := currentIndex E in
          let '(r, world) := run_item E itemIndex item in
          Some (mkEngine (eng_percent E) (eng_drive E) (eng_fuel E)
                  (eng_target E) (eng_items E) (S (currentIndex E))
                  (<[w := Busy itemIndex (actions world) (is_val r)]>
                     (workers E))
                  (results E),
                None)
      | None => Some (set_worker E w Finished, None)
      end
  | Some (Busy i (AEmit e :: todo) h) =>
      Some (set_worker E w (Busy i todo h), Some e)
  | Some (Busy i (AStore j r :: todo) h) =>
      Some (mkEngine (eng_percent E) (eng_drive E) (eng_fuel E)
              (eng_target E) (eng_items E) (currentIndex E)
              (<[w := Busy i todo h]> (workers E))
              (<[j := Some r]> (results E)),
            None)
  | Some (Busy i [] true) => Some (set_worker E w AtLoopHead, None)
  | Some (Busy i [] false) => None
  | Some Finished => None
  end.

Definition is_finished (x : Worker) : bool :=
  match x with
  | Finished => true
  | _ => false
  end.

(** [await Promise.all(workers)] has resolved. *)
Definition engine_done (E : Engine) : bool := forallb is_finished (workers E).

(** ** [JobService] *)

Record ItemUpdates : Type := mkUpdates {
  upd_status : option CopyItemStatus;
  upd_progress : option Z;
  upd_message : option jsstring
}.

Definition is_terminal (s : CopyItemStatus) : bool :=
  match s with
  | st_success | st_error => true
  | _ => false
  end.

(** [Object.assign(item, updates)] *)
Definition assign (item : CopyItem) (u : ItemUpdates) : CopyItem :=
  mkItem (item_index item) (item_url item)
    (default (item_status item) (upd_status u))
    (default (item_progress item) (upd_progress u))
    (default (item_message item) (upd_message u))
    (item_result item) (item_error item).

Definition count_terminal (items : list CopyItem) : nat :=
  length (filter (fun item => is_terminal (item_status item) = true) items).

Definition updateJobItem (jobId : jsstring) (itemIndex : nat)
    (updates : ItemUpdates) (jobs : gmap jsstring CopyJob)
  : gmap jsstring CopyJob :=
  match jobs !! jobId with
  | None => jobs
  | Some job =>
      match job_items job !! itemIndex with
      | None => jobs
      | Some item =>
          let items' := <[itemIndex := assign item updates]> (job_items job) in
          let terminal := match upd_status updates with
                          | Some s => is_terminal s
                          | None => false
                          end in
          if terminal then
            let completed := count_terminal items' in
            let status := if Nat.eqb completed (totalItems job)
                          then job_complete else job_status job in
            <[jobId := mkJob (job_id job) status (totalItems job) completed
                         items' (job_targetFolderId job) (createdAt job)]> jobs
          else
            <[jobId := mkJob (job_id job) (job_status job) (totalItems job)
                         (completedItems job) items'
                         (job_targetFolderId job) (createdAt job)]> jobs
      end
  end.

Definition getJob (jobId : jsstring) (jobs : gmap jsstring CopyJob)
  : option CopyJob := jobs !! jobId.

(** [jobs.delete(jobId)] and its result. *)
Definition deleteJob (jobId : jsstring) (jobs : gmap jsstring CopyJob)
  : bool * gmap jsstring CopyJob :=
  (bool_decide (is_Some (jobs !! jobId)), delete jobId jobs).

Definition set_job_status (jobId : jsstring) (s : JobStatus)
    (jobs : gmap jsstring CopyJob) : gmap jsstring CopyJob :=
  match jobs !! jobId with
  | Some job =>
      <[jobId := mkJob (job_id job) s (totalItems job) (completedItems job)
                   (job_items job) (job_targetFolderId job) (createdAt job)]>
        jobs
  | None => jobs
  end.

(** The callback that [processJob] hands to [batchCopy]. *)
Definition progress_sink (jobId : jsstring) (e : ProgressEvent)
    (jobs : gmap jsstring CopyJob) : gmap jsstring CopyJob :=
  updateJobItem jobId (ev_index e)
    (mkUpdates (Some (ev_status e)) (Some (ev_progress e))
               (Some (ev_message e)))
    jobs.

(** The loop of [clearOldJobs] over [jobs.entries()]. *)
Definition clearOldJobs (now maxAgeMs : Z) (jobs : gmap jsstring CopyJob)
  : nat * gmap jsstring CopyJob :=
  map_fold
    (fun jobId job '(cleared, m) =>
       let jobAge := now - createdAt job in
       match job_status job with
       | job_complete =>
           if jobAge >? maxAgeMs then (S cleared, delete jobId m)
           else (cleared, m)
       | _ => (cleared, m)
       end)
    (0%nat, jobs) jobs.

(** *** Jobs and their background tasks

    [jobs] is the module-level [Map]; [tasks] holds, for every job id that
    was ever handed out, the [processJob] promise started for it. *)

Inductive Task : Type :=
| Running (E : Engine)   (* inside [await copyService.batchCopy(...)] *)
| Settled.               (* [processJob] has returned *)

Record System : Type := mkSystem {
  jobs : gmap jsstring CopyJob;
  tasks : gmap jsstring Task
}.

Definition initial_system : System := mkSystem ∅ ∅.

(** What one call of [createJob] reads from outside the program: the
    clock, the random source, and the Drive. *)
Record Env : Type := mkEnv {
  env_timestamp : N;             (* Date.now() in generateJobId *)
  env_random : jsstring;         (* Math.random().toString(36).substring(7) *)
  env_today : jsstring;          (* new Date().toISOString().split('T')[0] *)
  env_createdAt : Z;             (* new Date() of the job record *)
  env_folder_drive : DriveApi;   (* the Drive during createFolder *)
  env_percent : nat -> nat -> Z;
  env_item_drive : nat -> DriveApi;
  env_fuel : nat
}.

Definition generateJobId (timestamp : N) (random : jsstring) : jsstring :=
  js "copy_" ++ js (pretty timestamp) ++ js "_" ++ random.

(** [targetFolderId], or else the folder made by [createFolder]. *)
Definition resolve_folder (env : Env) (targetFolderId targetFolderName
    : option jsstring) : M jsstring :=
  match targetFolderId with
  | Some (c :: f) => mret (c :: f)
  | _ =>
      let folderName := js_or targetFolderName (js "Copied_" ++ env_today env) in
      createFolder (env_folder_drive env) folderName None
  end.

Definition new_job (jobId : jsstring) (urls : list jsstring)
    (folderId : jsstring) (created : Z) : CopyJob :=
  mkJob jobId job_processing (length urls) 0%nat
    (imap (fun index url =>
             mkItem index url st_pending 0 (js "Waiting...") None None) urls)
    folderId created.

(** [createJob], with the pool of [batchCopy] left at its start: the part
    of [processJob] that the code runs before [createJob] returns (every
    worker up to its first [await]) is made of the first steps [LWorker]
    of the task.  [Server.createJob] below has this part inside. *)
Definition createJob (env : Env) (urls : list jsstring)
    (targetFolderId targetFolderName : option jsstring)
    (concurrency : jsnumber)
    (sys : System) : Res jsstring * System :=
  let jobId := generateJobId (env_timestamp env) (env_random env) in
  match fst (resolve_folder env targetFolderId targetFolderName world0) with
  | Val folderId =>
      let job := new_job jobId urls folderId (env_createdAt env) in
      (* this.processJob(jobId, urls, folderId, concurrency), not awaited *)
      let task := Running (batchCopy_start (env_percent env)
                             (env_item_drive env) (env_fuel env) urls folderId
                             concurrency) in
      (Val jobId, mkSystem (<[jobId := job]> (jobs sys))
                           (<[jobId := task]> (tasks sys)))
  | Thrown e => (Thrown e, sys)
  | Diverged => (Diverged, sys)
  end.

(** ** [POST /api/copy] *)

Module ERROR_MESSAGES.
Definition NO_URLS : jsstring :=
  js "Please enter at least one Google Drive link".
Definition NETWORK_ERROR : jsstring := js "Network error occurred".
End ERROR_MESSAGES.

(** [getErrorMessage]; a thrown value that is no Error is taken to be
    neither a string nor an object with a message. *)
Definition getErrorMessage (e : exn) : jsstring :=
  match e with
  | AppError m | OtherError m => m
  | NotAnError => ERROR_MESSAGES.NETWORK_ERROR
  end.

Record CopyRequest : Type := mkRequest {
  req_urls : option (list jsstring);
  req_targetFolderId : option jsstring;
  req_targetFolderName : option jsstring;
  req_concurrency : option jsnumber   (* the field, as a number *)
}.

Inductive HttpResponse : Type :=
| Http200 (jobId : jsstring) (status : JobStatus) (targetFolderId : jsstring)
| Http400 (error : jsstring)
| Http500 (error : jsstring).

Definition POST (env : Env) (body : CopyRequest) (sys : System)
  : HttpResponse * System :=
  let concurrency :=
    default (JsInt COPY_CONFIG.DEFAULT_CONCURRENCY) (req_concurrency body) in
  match req_urls body with
  | None | Some [] => (Http400 ERROR_MESSAGES.NO_URLS, sys)
  | Some urls =>
      let safe := Math_max (JsInt COPY_CONFIG.MIN_CONCURRENCY)
                           (Math_min concurrency
                              (JsInt COPY_CONFIG.MAX_CONCURRENCY)) in
      match createJob env urls (req_targetFolderId body)
              (req_targetFolderName body) safe sys with
      | (Val jobId, sys') =>
          match getJob jobId (jobs sys') with
          | Some job =>
              (Http200 jobId job_processing (job_targetFolderId job), sys')
          | None => (Http500 (js "Failed to create job"), sys')
          end
      | (Thrown e, sys') => (Http500 (getErrorMessage e), sys')
      | (Diverged, sys') => (Http500 ERROR_MESSAGES.NETWORK_ERROR, sys')
      end
  end.

(** *** Steps of the running server

    A job id is handed out once: [generateJobId] is the unique-id
    generator of the source, and a submission whose id is in use is not a
    step.  This is an assumption on the ids that the clock and the random
    source give; [createJob] itself does not check the id, and
    [Server.step] below does without the assumption.  The [catch] of
    [processJob] is not a step either, because [batchCopy] catches
    whatever its loop body throws. *)

Inductive Label : Type :=
| LSubmit (env : Env) (body : CopyRequest)
| LWorker (jobId : jsstring) (w : nat)
| LSettle (jobId : jsstring)
| LDelete (jobId : jsstring)
| LClear (now maxAgeMs : Z).

Definition sys_step (l : Label) (sys : System) : option System :=
  match l with
  | LSubmit env body =>
      match tasks sys !! generateJobId (env_timestamp env) (env_random env) with
      | None => Some (snd (POST env body sys))
      | Some _ => None
      end
  | LWorker jobId w =>
      match tasks sys !! jobId with
      | Some (Running E) =>
          match engine_step w E with
          | Some (E', oe) =>
              Some (mkSystem
                      (match oe with
                       | Some e => progress_sink jobId e (jobs sys)
                       | None => jobs sys
                       end)
                      (<[jobId := Running E']> (tasks sys)))
          | None => None
          end
      | _ => None
      end
  | LSettle jobId =>
      match tasks sys !! jobId with
      | Some (Running E) =>
          if engine_done E
          then Some (mkSystem (set_job_status jobId job_complete (jobs sys))
                              (<[jobId := Settled]> (tasks sys)))
          else None
      | _ => None
      end
  | LDelete jobId => Some (mkSystem (snd (deleteJob jobId (jobs sys))) (tasks sys))
  | LClear now maxAgeMs =>
      Some (mkSystem (snd (clearOldJobs now maxAgeMs (jobs sys))) (tasks sys))
  end.

Fixpoint run (ls : list Label) (sys : System) : option System :=
  match ls with
  | [] => Some sys
  | l :: ls' =>
      match sys_step l sys with
      | Some sys' => run ls' sys'
      | None => None
      end
  end.

(** The states that the server reaches by steps that are [allowed]. *)
Inductive reachable_by (allowed : Label -> Prop) : System -> Prop :=
| reach_init : reachable_by allowed initial_system
| reach_step l sys sys' :
    allowed l -> reachable_by allowed sys -> sys_step l sys = Some sys' ->
    reachable_by allowed sys'.

Definition reachable : System -> Prop := reachable_by (fun _ => True).

(** The submissions whose [concurrency] is a number other than NaN. *)
Definition numeric_submission (l : Label) : Prop :=
  match l with
  | LSubmit _ body => req_concurrency body <> Some JsNaN
  | _ => True
  end.

(** ** A Drive to run examples against

    Every request succeeds, except copying the files named in
    [broken].  The children of a folder are given by [tree]. *)

(** A percentage for the examples, in exact integer arithmetic.  It is
    not the binary64 computation of the source, which can round the
    quotient before it is multiplied; the properties are stated for any
    function in its place. *)
Definition exact_percent (current total : nat) : Z :=
  Z.of_nat (100 * current / total).

Definition test_drive (tree : list (jsstring * list DriveFileMetadata))
    (broken : list jsstring) : DriveApi :=
  mkDrive
    (fun _ => None)
    (fun t name _ _ => inr (Some (js "new-" ++ name)))
    (fun _ _ _ _ => inr tt)
    (fun _ fileId =>
       inr (mkMeta fileId (js "name-of-" ++ fileId) (js "text/plain")
                   (Some (js "42")) None))
    (fun _ fileId name _ =>
       if bool_decide (fileId ∈ broken)
       then inl (OtherError (js "quota exceeded"))
       else inr (mkCopyResponse (js "copy-of-" ++ fileId) (Some name)
                                (Some (js "42"))))
    (fun _ folderId =>
       inr ((fun e => snd (snd e))
              <$> list_find (fun e => fst e = folderId) tree)).

Definition test_env (tree : list (jsstring * list DriveFileMetadata))
    (broken : list jsstring) (timestamp : N) : Env :=
  mkEnv timestamp (js "k3x9f") (js "2026-01-01") (Z.of_N timestamp)
        (test_drive tree broken) exact_percent
        (fun _ => test_drive tree broken) 8.

(** A Drive on which no folder can be created. *)
Definition full_drive : DriveApi :=
  mkDrive
    (fun _ => None)
    (fun _ _ _ _ => inl (OtherError (js "The user's Drive storage quota has been exceeded")))
    (fun _ _ _ _ => inr tt)
    (files_get (test_drive [] []))
    (files_copy (test_drive [] []))
    (files_list (test_drive [] [])).

Definition full_env : Env :=
  mkEnv 1700000000000 (js "k3x9f") (js "2026-01-01") 1700000000000
        full_drive exact_percent (fun _ => full_drive) 8.

(** ** More of [lib/utils/url-parser] *)

(** [isValidDriveUrl] *)
Definition isValidDriveUrl (url : jsstring) : bool :=
  match parseGoogleDriveUrl url with
  | Some _ => true
  | None => false
  end.

(** [String.prototype.split] with a separator of one code unit: the
    pieces between the separators, so one piece more than there are
    separators. *)
Fixpoint split (sep : N) (s : jsstring) : list jsstring :=
  match s with
  | [] => [[]]
  | c :: s' =>
      if (c =? sep)%N then [] :: split sep s'
      else match split sep s' with
           | piece :: pieces => (c :: piece) :: pieces
           | [] => [[c]]
           end
  end.

(** The line feed of ['\n']. *)
Definition LF : N := 10%N.

(** [extractValidUrls] *)
Definition extractValidUrls (text : jsstring) : list jsstring :=
  List.filter
    (fun line => (0 <? length line)%nat && isValidDriveUrl line)
    (map (fun line => trim line) (split LF text)).

(** [validateUrls] of the parser module: the loop pushes each url on one
    of the two arrays. *)
Record ValidatedUrls : Type := mkValidated {
  valid : list ParsedDriveUrl;
  invalid : list jsstring
}.

Definition validateUrls (urls : list jsstring) : ValidatedUrls :=
  fold_left
    (fun acc url =>
       match parseGoogleDriveUrl url with
       | Some parsed => mkValidated (valid acc ++ [parsed]) (invalid acc)
       | None => mkValidated (valid acc) (invalid acc ++ [url])
       end)
    urls (mkValidated [] []).

(** [CopyService.validateUrls]: the same loop, keeping the urls. *)
Module CopyService.
Definition validateUrls (urls : list jsstring)
  : list jsstring * list jsstring :=
  fold_left
    (fun '(valid, invalid) url =>
       match parseGoogleDriveUrl url with
       | Some _ => (valid ++ [url], invalid)
       | None => (valid, invalid ++ [url])
       end)
    urls ([], []).
End CopyService.

(** ** [lib/utils/format]

    The numbers of these functions are taken to be integers.  *)

(** [text.slice(0, end)] for an integer [end]: a negative [end] counts
    from the end of the string. *)
Definition slice_0 (text : jsstring) (e : Z) : jsstring :=
  let len := Z.of_nat (length text) in
  let final := if e <? 0 then Z.max (len + e) 0 else Z.min e len in
  take (Z.to_nat final) text.

(** [truncateText] *)
Definition truncateText (text : jsstring) (maxLength : Z) : jsstring :=
  if Z.of_nat (length text) <=? maxLength then text
  else slice_0 text maxLength ++ js "...".

(** Template literal [`${n}`] for an integer. *)
Definition js_of_Z (n : Z) : jsstring := js (pretty n).

(** The integers that a JavaScript number holds exactly. *)
Definition MAX_SAFE_INTEGER : Z := 2 ^ 53 - 1.

Definition is_safe_integer (n : Z) : Prop :=
  - MAX_SAFE_INTEGER <= n <= MAX_SAFE_INTEGER.

(** [formatDuration], for a whole number of milliseconds.  On the safe
    integers [Math.floor(a / b)] is the floored quotient (the rounding of
    the division is smaller than the distance of a fraction [a / 1000] or
    [a / 60] to the next integer), and [%] is the remainder that takes the
    sign of the dividend. *)
Definition formatDuration (ms : Z) : jsstring :=
  let seconds := ms / 1000 in
  let minutes := seconds / 60 in
  let hours := minutes / 60 in
  if 0 <? hours then
    js_of_Z hours ++ js "h " ++ js_of_Z (Z.rem minutes 60) ++ js "m"
  else if 0 <? minutes then
    js_of_Z minutes ++ js "m " ++ js_of_Z (Z.rem seconds 60) ++ js "s"
  else
    js_of_Z seconds ++ js "s".

(** ** More of [config/constants.ts] *)

Module API_ENDPOINTS.
Definition COPY : jsstring := js "/api/copy".
Definition COPY_STATUS (jobId : jsstring) : jsstring :=
  js "/api/copy/status/" ++ jobId.
Definition GOOGLE_DRIVE_FOLDER (folderId : jsstring) : jsstring :=
  js "https://drive.google.com/drive/folders/" ++ folderId.
End API_ENDPOINTS.

(** ** [app/api/copy/status/[jobId]/route.ts]

    [getJob] and [deleteJob] do not throw, so the [catch] of the two
    handlers, which answers 500, is never entered. *)

Module StatusRoute.
Definition NOT_FOUND : jsstring := js "Resource not found".

Inductive Response : Type :=
| Json200 (job : CopyJob)              (* NextResponse.json(job) *)
| Success200                           (* { success: true } *)
| Error404 (error : jsstring).

Definition GET (jobId : jsstring) (sys : System) : Response :=
  match getJob jobId (jobs sys) with
  | None => Error404 NOT_FOUND
  | Some job => Json200 job
  end.

Definition DELETE (jobId : jsstring) (sys : System) : Response * System :=
  let '(success, jobs') := deleteJob jobId (jobs sys) in
  if success then (Success200, mkSystem jobs' (tasks sys))
  else (Error404 NOT_FOUND, mkSystem jobs' (tasks sys)).
End StatusRoute.

(** * Part II: vocabulary of the properties *)

(** A progress callback only reports: it returns, and leaves the Drive
    alone. *)
Definition only_acts {X : Type} (f : X -> M unit) : Prop :=
  forall x w, exists acts,
    f x w = (Val tt, mkWorld (tick w) (calls w) (actions w ++ acts)).

Definition callback_ok {X : Type} (o : option (X -> M unit)) : Prop :=
  match o with
  | Some f => only_acts f
  | None => True
  end.

(** The callback that [batchCopy] passes to [copyFile]. *)
Definition file_progress (index : nat) (progress : Z) : ProgressEvent :=
  mkEvent index st_processing progress (js "Copying file...").

(** What the callback of [copyFolder] reports over the children [fs],
    when it reports [out (current, total, fileName)] for one child. *)
Fixpoint child_outputs (out : nat * nat * jsstring -> list Action)
    (total i : nat) (fs : list DriveFileMetadata) : list Action :=
  match fs with
  | [] => []
  | f :: fs' =>
      out ((i + 1)%nat, total, md_name f) ++ child_outputs out total (S i) fs'
  end.

(** The callback that [batchCopy] passes to [copyFolder]. *)
Definition folder_progress (pct : nat -> nat -> Z) (index : nat)
    (x : nat * nat * jsstring) : ProgressEvent :=
  let '(current, total, fileName) := x in
  mkEvent index st_processing (pct current total)
    (js "Copying: " ++ fileName ++ js " (" ++ js_of_nat current ++ js "/"
       ++ js_of_nat total ++ js ")").

Definition add_actions (w : World) (acts : list Action) : World :=
  mkWorld (tick w) (calls w) (actions w ++ acts).

Definition exn_message (e : exn) : jsstring :=
  match e with
  | AppError m | OtherError m => m
  | NotAnError => js "Unknown error"
  end.

Definition start_event (index : nat) : ProgressEvent :=
  mkEvent index st_processing 0 (js "Starting...").

Definition error_event (index : nat) (message : jsstring) : ProgressEvent :=
  mkEvent index st_error 0 (js "Error: " ++ message).

Definition failure (item : Item) (message : jsstring) : list Action :=
  [ AStore (it_index item)
      (mkResult (it_url item) false None None (Some message));
    AEmit (error_event (it_index item) message) ].

Definition file_success (item : Item) (result : CopyItemResult) : list Action :=
  [ AStore (it_index item)
      (mkResult (it_url item) true (Some (res_id result))
                (Some (res_name result)) None);
    AEmit (mkEvent (it_index item) st_success 100
             (js "Copied: " ++ res_name result)) ].

Definition folder_success (item : Item) (result : FolderResult) : list Action :=
  [ AStore (it_index item)
      (mkResult (it_url item) true (Some (fr_id result))
                (Some (fr_name result)) None);
    AEmit (mkEvent (it_index item) st_success 100
             (js "Copied folder: " ++ fr_name result ++ js " ("
                ++ js_of_nat (filesCopied result) ++ js " files)")) ].

Fixpoint folder_events (pct : nat -> nat -> Z) (index total i : nat)
    (fs : list DriveFileMetadata) : list ProgressEvent :=
  match fs with
  | [] => []
  | f :: fs' =>
      folder_progress pct index ((i + 1)%nat, total, md_name f)
        :: folder_events pct index total (S i) fs'
  end.

(** [Math.floor((current / total) * 100)] on the arguments that
    [copyFolder] passes: it grows with [current] and stays within 0..100. *)
Definition percent_sane (pct : nat -> nat -> Z) : Prop :=
  forall current total, (1 <= current <= total)%nat ->
    0 <= pct current total <= 100
    /\ ((S current <= total)%nat ->
        pct current total <= pct (S current) total).

(** [m'] does what [m] does wherever [m] comes back; used to compare the
    same computation under two bounds on the depth of the recursion. *)
Definition agrees_when_returns {A : Type} (m m' : M A) : Prop :=
  forall w r w', m w = (r, w') -> r <> Diverged -> m' w = (r, w').

Definition public_permission (fileId : jsstring) : ApiEvent :=
  mkApiEvent (PermissionsCreate fileId (js "reader") (js "anyone"))
             (Returned None).

(** In a log of requests, every request that created a resource is
    directly followed by the request that made this resource readable by
    anyone, and that request returned. *)
Definition created_is_public (log : list ApiEvent) : Prop :=
  forall i c newId,
    log !! i = Some (mkApiEvent c (Returned (Some newId))) ->
    log !! S i = Some (public_permission newId).

(** The property of the specification for one call, whatever its
    outcome: among the requests that the call made, every one that
    created a resource is followed by the permission that makes this
    resource public. *)
Definition nothing_left_private {A : Type} (m : M A) (w : World) : Prop :=
  created_is_public (drop (length (calls w)) (calls (snd (m w)))).

(** A Drive that creates and copies, but refuses to share: every
    [permissions.create] fails. *)
Definition private_drive : DriveApi :=
  mkDrive
    (drive_initialize (test_drive [] []))
    (files_create (test_drive [] []))
    (fun _ _ _ _ => inl (OtherError (js "sharing is disabled by the domain")))
    (files_get (test_drive [] []))
    (files_copy (test_drive [] []))
    (files_list (test_drive [] [])).

(** The callbacks among a sequence of actions. *)
Definition emitted (acts : list Action) : list ProgressEvent :=
  omap (fun a => match a with AEmit e => Some e | AStore _ _ => None end) acts.

(** The progress events of one item, in the order the worker sends them. *)
Definition item_events (pct : nat -> nat -> Z) (D : DriveApi) (fuel : nat)
    (target : jsstring) (item : Item) : list ProgressEvent :=
  emitted (actions (snd (process_item pct D fuel target item world0))).

Fixpoint nondecreasing (l : list Z) : bool :=
  match l with
  | a :: t => match t with
              | b :: _ => (a <=? b) && nondecreasing t
              | [] => true
              end
  | [] => true
  end.

(** The events end in exactly one terminal event. *)
Definition one_terminal_last (es : list ProgressEvent) : Prop :=
  exists init last,
    es = init ++ [last]
    /\ is_terminal (ev_status last) = true
    /\ Forall (fun e => is_terminal (ev_status e) = false) init.

(** The property of the specification: percent never decreases along the
    events of an item, and the events end in one terminal event. *)
Definition monotone_to_terminal (es : list ProgressEvent) : Prop :=
  nondecreasing (map ev_progress es) = true /\ one_terminal_last es.

(** *** Invariants of the worker pool *)

(** The actions of the loop body for item [i], and whether it returns. *)
Definition script (E : Engine) (i : nat) : list Action :=
  match eng_items E !! i with
  | Some item => actions (snd (run_item E i item))
  | None => []
  end.

Definition halts (E : Engine) (i : nat) : bool :=
  match eng_items E !! i with
  | Some item => is_val (fst (run_item E i item))
  | None => true
  end.

Definition has_terminal (acts : list Action) : bool :=
  existsb (fun e => is_terminal (ev_status e)) (emitted acts).

(** The last value written by [results[index] = ...]. *)
Definition stored (acts : list Action) : option BatchCopyResult :=
  last (omap (fun a => match a with
                       | AStore _ r => Some r
                       | AEmit _ => None
                       end) acts).

(** The form of the actions of one loop body: progress events, then, if
    the body returns, the store of the result and one terminal event. *)
Definition script_ok (index : nat) (acts : list Action) (halted : bool)
  : Prop :=
  exists procs tail,
    acts = map AEmit procs ++ tail
    /\ Forall (fun e => ev_index e = index /\ ev_status e = st_processing) procs
    /\ if halted
       then exists r term,
              tail = [AStore index r; AEmit term]
              /\ ev_index term = index
              /\ is_terminal (ev_status term) = true
       else tail = [].

(** Immutable part of the state of [batchCopy]. *)
Definition same_config (E0 E : Engine) : Prop :=
  eng_percent E = eng_percent E0 /\ eng_drive E = eng_drive E0
  /\ eng_fuel E = eng_fuel E0 /\ eng_target E = eng_target E0
  /\ eng_items E = eng_items E0.

(** [performed i] is what the workers have done so far for item [i]. *)
Record EngineInv (E0 E : Engine) (performed : nat -> list Action) : Prop :=
  mkEngineInv {
  inv_config : same_config E0 E;
  inv_items : forall i item, eng_items E0 !! i = Some item -> it_index item = i;
  inv_len : length (results E) = length (eng_items E0);
  inv_cursor : (currentIndex E <= length (eng_items E0))%nat;
  inv_unclaimed : forall i, (currentIndex E <= i)%nat -> performed i = [];
  inv_prefix : forall i, exists todo, script E0 i = performed i ++ todo;
  inv_busy : forall w i todo h,
    workers E !! w = Some (Busy i todo h) ->
    (i < currentIndex E)%nat /\ script E0 i = performed i ++ todo
    /\ h = halts E0 i;
  inv_nodup : forall w w' i todo h todo' h',
    workers E !! w = Some (Busy i todo h) ->
    workers E !! w' = Some (Busy i todo' h') -> w = w';
  inv_released : forall i,
    (i < currentIndex E)%nat ->
    (forall w todo h, workers E !! w <> Some (Busy i todo h)) ->
    performed i = script E0 i /\ halts E0 i = true;
  inv_finished : forall w,
    workers E !! w = Some Finished ->
    (length (eng_items E0) <= currentIndex E)%nat;
  inv_workers : (0 < length (eng_items E0))%nat -> (0 < length (workers E))%nat;
  inv_results : forall i,
    (i < length (eng_items E0))%nat ->
    results E !! i = Some (stored (performed i))
}.

(** Runs of the pool, with the progress events sent so far. *)
Inductive engine_trace (E0 : Engine) : Engine -> list ProgressEvent -> Prop :=
| engine_trace_nil : engine_trace E0 E0 []
| engine_trace_step E tr w E' oe :
    engine_trace E0 E tr -> engine_step w E = Some (E', oe) ->
    engine_trace E0 E' (tr ++ match oe with Some e => [e] | None => [] end).

Definition engine_reach (E0 E : Engine) : Prop :=
  exists tr, engine_trace E0 E tr.

(** The events of a trace that are addressed to item [i]. *)
Definition events_of (i : nat) (tr : list ProgressEvent)
  : list ProgressEvent :=
  filter (fun e => ev_index e = i) tr.

(** The test of [clearOldJobs] on one job. *)
Definition expired (now maxAgeMs : Z) (job : CopyJob) : bool :=
  match job_status job with
  | job_complete => now - createdAt job >? maxAgeMs
  | _ => false
  end.

(** The property of the specification: garbage collection removes the
    jobs in a terminal state, Complete or Error, that are older than
    [maxAgeMs], and no other. *)
Definition gc_removes_terminal (now maxAgeMs : Z)
    (jobs : gmap jsstring CopyJob) : Prop :=
  forall id job,
    jobs !! id = Some job ->
    (snd (clearOldJobs now maxAgeMs jobs) !! id = None
     <-> (job_status job = job_complete \/ job_status job = job_error)
         /\ now - createdAt job > maxAgeMs).

Definition old_failed_job : CopyJob :=
  mkJob (js "copy_1_a") job_error 1 0
        [mkItem 0 (js "x") st_pending 0 (js "Waiting...") None None]
        (js "folder") 0.

(** *** Invariants of the jobs *)

(** A job whose [batchCopy] is running, against what the workers have
    done so far. *)
Record JobInv (job : CopyJob) (E0 : Engine) (performed : nat -> list Action)
  : Prop := mkJobInv {
  ji_total : totalItems job = length (eng_items E0);
  ji_length : length (job_items job) = length (eng_items E0);
  ji_completed : completedItems job = count_terminal (job_items job);
  ji_terminal : forall i item,
    job_items job !! i = Some item ->
    is_terminal (item_status item) = has_terminal (performed i);
  ji_status :
    job_status job = job_complete ->
    count_terminal (job_items job) = totalItems job
}.

(** A job whose [processJob] has returned. *)
Definition JobDone (job : CopyJob) : Prop :=
  completedItems job = totalItems job
  /\ Forall (fun item => is_terminal (item_status item) = true) (job_items job).

Definition SysInv (sys : System) : Prop :=
  forall id job,
    jobs sys !! id = Some job ->
    match tasks sys !! id with
    | Some (Running E) =>
        exists E0 performed, EngineInv E0 E performed /\ JobInv job E0 performed
    | Some Settled => JobDone job
    | None => False
    end.

(** The order of the specification, on the trimmed input: (a) file view
    link, (b) open link, (c) download link, (d) folder link, (e) bare
    identifier; the first that matches decides, and else the input is
    invalid. *)
Definition parse_in_priority_order (t : jsstring) : option ParsedDriveUrl :=
  match match_group1 URL_PATTERNS.DRIVE_FILE t with
  | Some m => Some (mkParsed m file)
  | None =>
  match match_group1 URL_PATTERNS.DRIVE_FILE_OPEN t with
  | Some m => Some (mkParsed m file)
  | None =>
  match match_group1 URL_PATTERNS.DRIVE_FILE_UC t with
  | Some m => Some (mkParsed m file)
  | None =>
  match match_group1 URL_PATTERNS.DRIVE_FOLDER t with
  | Some m => Some (mkParsed m folder)
  | None =>
      if regex_test URL_PATTERNS.DRIVE_ID_ONLY t
      then Some (mkParsed t file) else None
  end end end end.

(** ** An example run: one file and one malformed reference, two workers *)

Definition demo_env : Env := test_env [] [] 1700000000000.

Definition demo_body : CopyRequest :=
  mkRequest (Some [js "https://drive.google.com/file/d/1AbCdEfGh/view";
                   js "not-a-url"])
            None None (Some (JsInt 2)).

Definition demo_id : jsstring := js "copy_1700000000000_k3x9f".

Definition demo_labels : list Label :=
  [ LSubmit demo_env demo_body;
    LWorker demo_id 0; LWorker demo_id 1;
    LWorker demo_id 1; LWorker demo_id 1;
    LWorker demo_id 0; LWorker demo_id 0; LWorker demo_id 0;
    LWorker demo_id 0; LWorker demo_id 0; LWorker demo_id 0;
    LWorker demo_id 0; LWorker demo_id 1;
    LWorker demo_id 0; LWorker demo_id 1;
    LSettle demo_id ].

Definition demo_system : System :=
  default initial_system (run demo_labels initial_system).

(** A submission whose [concurrency] is not a number, such as the JSON
    string ["abc"]: [Math.min("abc", 10)] is NaN. *)
Definition nan_body : CopyRequest :=
  mkRequest (Some [js "https://drive.google.com/file/d/1AbCdEfGh/view"])
            None None (Some JsNaN).

Definition nan_labels : list Label :=
  [ LSubmit demo_env nan_body; LSettle demo_id ].

Definition nan_system : System :=
  default initial_system (run nan_labels initial_system).

(** The property of the specification on one state of the server: a job
    that reports Complete has [completedItems = totalItems] and all its
    items in a terminal status. *)
Definition complete_means_all_terminal (sys : System) : Prop :=
  forall id job,
    jobs sys !! id = Some job ->
    job_status job = job_complete ->
    completedItems job = totalItems job
    /\ Forall (fun item => item_status item = st_success
                           \/ item_status item = st_error) (job_items job).

(** The property of the specification for a submission whose destination
    folder cannot be resolved: the job is there, with status Error. *)
Definition surfaces_as_job_error (env : Env) (body : CopyRequest)
    (sys : System) : Prop :=
  exists job,
    jobs (snd (POST env body sys))
      !! generateJobId (env_timestamp env) (env_random env) = Some job
    /\ job_status job = job_error.

(** The steps of the background task of one job. *)
Definition task_label (jobId : jsstring) (l : Label) : Prop :=
  match l with
  | LWorker id _ | LSettle id => id = jobId
  | _ => False
  end.

(** A file whose copy the Drive refuses, and a folder with three files. *)
Definition refused_item : Item :=
  let url := js "https://drive.google.com/file/d/abc/view" in
  mkBatchItem url 0 (parseGoogleDriveUrl url).

Definition three_files : list (jsstring * list DriveFileMetadata) :=
  [ (js "F", [ mkMeta (js "a") (js "a.txt") (js "text/plain") None None;
               mkMeta (js "b") (js "b.txt") (js "text/plain") None None;
               mkMeta (js "c") (js "c.txt") (js "text/plain") None None ]) ].

Definition folder_item : Item :=
  let url := js "https://drive.google.com/drive/folders/F" in
  mkBatchItem url 0 (parseGoogleDriveUrl url).

(** A folder whose only child is a subfolder with two files. *)
Definition nested_tree : list (jsstring * list DriveFileMetadata) :=
  [ (js "F", [ mkMeta (js "sub") (js "Sub") MIME_TYPES.FOLDER None None ]);
    (js "sub", [ mkMeta (js "a") (js "a.txt") (js "text/plain") None None;
                 mkMeta (js "b") (js "b.txt") (js "text/plain") None None ]) ].

(** The call of the backend for an item with a parsed reference. *)
Definition backend_call (pct : nat -> nat -> Z) (D : DriveApi) (fuel : nat)
    (target : jsstring) (item : Item) (parsed : ParsedDriveUrl) : M unit :=
  match parsed_type parsed with
  | file =>
      _ ← copyFile D (parsed_id parsed) target None
            (Some (file_callback (it_index item)));
      mret tt
  | folder =>
      _ ← copyFolder D fuel (parsed_id parsed) target None
            (Some (folder_callback pct (it_index item)));
      mret tt
  end.

(** Two files for two workers; the Drive refuses to copy the first. *)
Definition isolation_start : Engine :=
  batchCopy_start exact_percent (fun _ => test_drive [] [js "abc"]) 8
    [js "https://drive.google.com/file/d/abc/view";
     js "https://drive.google.com/file/d/xyz/view"]
    (js "target") (JsInt 2).

Fixpoint engine_run (ws : list nat) (E : Engine) : option Engine :=
  match ws with
  | [] => Some E
  | w :: ws' =>
      match engine_step w E with
      | Some (E', _) => engine_run ws' E'
      | None => None
      end
  end.

Definition isolation_schedule : list nat :=
  [0; 1; 0; 1; 0; 1; 0; 1; 0; 1; 0; 1; 0; 1; 1; 1]%nat.

Definition submit_body : CopyRequest :=
  mkRequest (Some [js "https://drive.google.com/file/d/abc/view"])
            None None None.

(** The requests that copied a file. *)
Definition is_files_copy (c : ApiEvent) : bool :=
  match api_call c with
  | FilesCopy _ _ _ => true
  | _ => false
  end.

(** ** Vocabulary of the further properties *)

(** Every capturing group of the pattern ranges over [[a-zA-Z0-9_-]]. *)
Definition captures_id_chars (r : regex) : bool :=
  forallb (fun a => match a with
                    | ACap CsIdChar _ => true
                    | ACap _ _ => false
                    | _ => true
                    end) r.

(** [s] occurs in [t] as a contiguous piece. *)
Definition occurs_in (s t : jsstring) : Prop :=
  exists before after, t = before ++ s ++ after.

(** A Drive without credentials: [initialize] throws. *)
Definition locked_drive : DriveApi :=
  mkDrive
    (fun _ => Some (js "credentials.json not found. Please setup Google OAuth first."))
    (files_create (test_drive [] []))
    (permissions_create (test_drive [] []))
    (files_get (test_drive [] []))
    (files_copy (test_drive [] []))
    (files_list (test_drive [] [])).

(** *** Counting the steps of the worker pool *)

(** The steps that a worker makes before it next tests the loop
    condition, and the test that ends it. *)
Definition worker_steps (x : Worker) : nat :=
  match x with
  | AtLoopHead => 1
  | Busy _ todo _ => length todo + 2
  | Finished => 0
  end.

(** The steps that an item not yet claimed costs: its claim, its
    callbacks and its store, and the return to the loop condition. *)
Definition item_steps (E : Engine) (i : nat) : nat :=
  length (script E i) + 2.

Definition steps_left (E : Engine) : nat :=
  sum_list (map (item_steps E)
              (seq (currentIndex E)
                   (length (eng_items E) - currentIndex E)))
  + sum_list (map worker_steps (workers E)).

(** The items that the workers are processing. *)
Definition busy_item (x : Worker) : option nat :=
  match x with
  | Busy i _ _ => Some i
  | _ => None
  end.

Definition busy_items (E : Engine) : list nat := omap busy_item (workers E).

(** *** Job records *)

(** What no operation of the registry changes in a job record: its id,
    its size, its target folder, its date, and the index, url, result and
    error of its items. *)
Definition same_identity (job job' : CopyJob) : Prop :=
  job_id job' = job_id job
  /\ totalItems job' = totalItems job
  /\ job_targetFolderId job' = job_targetFolderId job
  /\ createdAt job' = createdAt job
  /\ length (job_items job') = length (job_items job)
  /\ forall i item,
       job_items job !! i = Some item ->
       exists item',
         job_items job' !! i = Some item'
         /\ item_index item' = item_index item
         /\ item_url item' = item_url item
         /\ item_result item' = item_result item
         /\ item_error item' = item_error item.

(** The shape of the record stored under the key [id]. *)
Definition job_wellformed (id : jsstring) (job : CopyJob) : Prop :=
  job_id job = id
  /\ totalItems job = length (job_items job)
  /\ forall i item,
       job_items job !! i = Some item ->
       item_index item = i
       /\ item_result item = None /\ item_error item = None.

(** Every job record belongs to a background task. *)
Definition jobs_have_tasks (sys : System) : Prop :=
  forall id, is_Some (jobs sys !! id) -> is_Some (tasks sys !! id).

(** The code units of the decimal digits. *)
Definition is_digit (c : N) : bool := ((48 <=? c) && (c <=? 57))%N.

(** A run of the pool under a schedule, with the callbacks it made. *)
Fixpoint engine_run_events (ws : list nat) (E : Engine)
  : option (Engine * list ProgressEvent) :=
  match ws with
  | [] => Some (E, [])
  | w :: ws' =>
      match engine_step w E with
      | Some (E', oe) =>
          match engine_run_events ws' E' with
          | Some (E'', tr) =>
              Some (E'', match oe with Some e => e :: tr | None => tr end)
          | None => None
          end
      | None => None
      end
  end.

(** One round of the [for] loop of [copyFolder], for the child [f] at
    position [i]: the progress callback, then the copy of the child. *)
Definition copy_child (D : DriveApi)
    (copySubfolder : jsstring -> jsstring -> jsstring -> M unit)
    (onProgress : option (nat * nat * jsstring -> M unit))
    (newFolderId : jsstring) (total : nat) (f : DriveFileMetadata) (i : nat)
  : M unit :=
  _ ← call_opt onProgress ((i + 1)%nat, total, md_name f);
  if jsstring_eqb (md_mimeType f) MIME_TYPES.FOLDER
  then copySubfolder (md_id f) newFolderId (md_name f)
  else (_ ← copyFile D (md_id f) newFolderId None None; mret tt).

(** The recursive call of [copyFolder] on a subfolder. *)
Definition copy_subfolder (D : DriveApi) (fuel : nat)
    (id target name : jsstring) : M unit :=
  _ ← copyFolder D fuel id target (Some name) None; mret tt.

(** A folder with two files on a Drive that refuses to copy the first. *)
Definition two_files : list (jsstring * list DriveFileMetadata) :=
  [ (js "F", [ mkMeta (js "a") (js "a.txt") (js "text/plain") None None;
               mkMeta (js "b") (js "b.txt") (js "text/plain") None None ]) ].

(** ** The server as the code runs it

    The steps of [sys_step] keep one background task per job id and stop
    a submission whose id is in use; a submission leaves the workers at
    the loop test.  The code does neither: [createJob] writes the new
    record over whatever is stored under the generated id, while the
    [processJob] started for the older record goes on and now writes to
    the new one; and [createJob] calls [processJob] before it returns, so
    that [batchCopy] has run every worker to its first [await] by then.
    The definitions below follow the code in both respects.  As before,
    the [catch] of [processJob] is left out, because [batchCopy] catches
    whatever its loop body throws. *)

(** *** The start of [processJob]

    [Array.from({ length }, () => processItem())] calls [processItem]
    once per worker, one call after the other, and each call runs until
    its first [await].  That is the call of [copyFile] or [copyFolder] for
    the first item with a parsed url that the worker claims: up to there
    the worker has claimed the item and sent 'Starting...', and the Drive
    has not been asked.  An item whose url does not parse is finished on
    the way, because its [throw] and the [catch] have no [await].  A worker
    that finds no item left returns. *)

(** The steps of one call of [processItem()] up to its first [await] and
    the number of items that it claims, when [rest] are the items not yet
    claimed.  In steps of [engine_step]: the loop test that fails is one
    step; the claim and 'Starting...' are two; the claim of an item that
    does not parse, the store of its result, its 'Error: ...' and the
    return to the loop test are four. *)
Fixpoint first_await (rest : list Item) : nat * nat :=
  match rest with
  | [] => (1, 0)%nat
  | item :: rest' =>
      match it_parsed item with
      | Some _ => (2, 1)%nat
      | None => let '(n, c) := first_await rest' in ((4 + n)%nat, S c)
      end
  end.

(** The callbacks that it makes on the way. *)
Fixpoint first_await_events (rest : list Item) : list ProgressEvent :=
  match rest with
  | [] => []
  | item :: rest' =>
      match it_parsed item with
      | Some _ => [start_event (it_index item)]
      | None =>
          error_event (it_index item) (js "Invalid Google Drive URL")
            :: first_await_events rest'
      end
  end.

(** The schedule of the [k] calls of [processItem()], for the workers
    from number [w] on. *)
Fixpoint start_schedule (k w : nat) (rest : list Item) : list nat :=
  match k with
  | O => []
  | S k' =>
      let '(n, c) := first_await rest in
      replicate n w ++ start_schedule k' (S w) (drop c rest)
  end.

Fixpoint start_events (k : nat) (rest : list Item) : list ProgressEvent :=
  match k with
  | O => []
  | S k' =>
      first_await_events rest
        ++ start_events k' (drop (snd (first_await rest)) rest)
  end.

(** [batchCopy] from [Array.from] to [await Promise.all(workers)], with
    the callbacks made on the way.  The schedule can always be run (lemma
    [processJob_start_runs]), so the default is never taken. *)
Definition processJob_start (E0 : Engine) : Engine * list ProgressEvent :=
  default (E0, [])
    (engine_run_events
       (start_schedule (length (workers E0)) 0 (eng_items E0)) E0).

(** *** The registry and the promises *)

Module Server.

Record State : Type := mkState {
  srv_jobs : gmap jsstring CopyJob;       (* the module-level [Map] *)
  srv_promises : list (jsstring * Task)   (* the calls of [processJob],
                                             oldest first, each with its
                                             [jobId] *)
}.

Definition initial : State := mkState ∅ [].

(** [createJob], to its [return]. *)
Definition createJob (env : Env) (urls : list jsstring)
    (targetFolderId targetFolderName : option jsstring)
    (concurrency : jsnumber)
    (s : State) : Res jsstring * State :=
  let jobId := generateJobId (env_timestamp env) (env_random env) in
  match fst (resolve_folder env targetFolderId targetFolderName world0) with
  | Val folderId =>
      let job := new_job jobId urls folderId (env_createdAt env) in
      (* jobs.set(jobId, job) *)
      let registered := <[jobId := job]> (srv_jobs s) in
      (* this.processJob(jobId, urls, folderId, concurrency) *)
      let '(E, events) :=
        processJob_start
          (batchCopy_start (env_percent env) (env_item_drive env)
             (env_fuel env) urls folderId concurrency) in
      (Val jobId,
       mkState (foldl (fun m e => progress_sink jobId e m) registered events)
               (srv_promises s ++ [(jobId, Running E)]))
  | Thrown e => (Thrown e, s)
  | Diverged => (Diverged, s)
  end.

(** [POST /api/copy] *)
Definition POST (env : Env) (body : CopyRequest) (s : State)
  : HttpResponse * State :=
  let concurrency :=
    default (JsInt COPY_CONFIG.DEFAULT_CONCURRENCY) (req_concurrency body) in
  match req_urls body with
  | None | Some [] => (Http400 ERROR_MESSAGES.NO_URLS, s)
  | Some urls =>
      let safe := Math_max (JsInt COPY_CONFIG.MIN_CONCURRENCY)
                           (Math_min concurrency
                              (JsInt COPY_CONFIG.MAX_CONCURRENCY)) in
      match createJob env urls (req_targetFolderId body)
              (req_targetFolderName body) safe s with
      | (Val jobId, s') =>
          match getJob jobId (srv_jobs s') with
          | Some job =>
              (Http200 jobId job_processing (job_targetFolderId job), s')
          | None => (Http500 (js "Failed to create job"), s')
          end
      | (Thrown e, s') => (Http500 (getErrorMessage e), s')
      | (Diverged, s') => (Http500 ERROR_MESSAGES.NETWORK_ERROR, s')
      end
  end.

(** [GET /api/copy/status/[jobId]] *)
Definition GET (jobId : jsstring) (s : State) : StatusRoute.Response :=
  match getJob jobId (srv_jobs s) with
  | None => StatusRoute.Error404 StatusRoute.NOT_FOUND
  | Some job => StatusRoute.Json200 job
  end.

(** What happens on the server: a submission is answered, worker [w] of
    promise number [p] makes its next step, the [processJob] of promise
    [p] goes on after [await copyService.batchCopy(...)], a record is
    deleted, old records are cleared.  As in [engine_step], the steps
    of a worker are at least as fine as the code allows: a worker gives
    way only at an [await]. *)
Inductive Event : Type :=
| Submit (env : Env) (body : CopyRequest)
| Proceed (p w : nat)
| Settle (p : nat)
| Delete (jobId : jsstring)
| Clear (now maxAgeMs : Z).

Definition step (ev : Event) (s : State) : option State :=
  match ev with
  | Submit env body => Some (snd (POST env body s))
  | Proceed p w =>
      match srv_promises s !! p with
      | Some (jobId, Running E) =>
          match engine_step w E with
          | Some (E', oe) =>
              Some (mkState
                      (match oe with
                       | Some e => progress_sink jobId e (srv_jobs s)
                       | None => srv_jobs s
                       end)
                      (<[p := (jobId, Running E')]> (srv_promises s)))
          | None => None
          end
      | _ => None
      end
  | Settle p =>
      match srv_promises s !! p with
      | Some (jobId, Running E) =>
          if engine_done E
          then Some (mkState
                       (set_job_status jobId job_complete (srv_jobs s))
                       (<[p := (jobId, Settled)]> (srv_promises s)))
          else None
      | _ => None
      end
  | Delete jobId =>
      Some (mkState (snd (deleteJob jobId (srv_jobs s))) (srv_promises s))
  | Clear now maxAgeMs =>
      Some (mkState (snd (clearOldJobs now maxAgeMs (srv_jobs s)))
                    (srv_promises s))
  end.

Fixpoint run (evs : list Event) (s : State) : option State :=
  match evs with
  | [] => Some s
  | ev :: evs' =>
      match step ev s with
      | Some s' => run evs' s'
      | None => None
      end
  end.

(** The submissions whose [concurrency] is a number other than NaN. *)
Definition numeric (ev : Event) : Prop :=
  match ev with
  | Submit _ body => req_concurrency body <> Some JsNaN
  | _ => True
  end.

(** The events of promise number [p]. *)
Definition of_promise (p : nat) (ev : Event) : Prop :=
  match ev with
  | Proceed p' _ | Settle p' => p' = p
  | _ => False
  end.

(** No job id was handed out twice. *)
Definition ids_distinct (s : State) : Prop :=
  NoDup (map fst (srv_promises s)).

(** The same state with one task per job id, as [sys_step] sees it. *)
Definition view (s : State) : System :=
  mkSystem (srv_jobs s) (list_to_map (srv_promises s)).

End Server.

(** What an item of a record can show when [createJob] returns: it waits,
    or a worker has claimed it and stands at the call of the Drive, or its
    url did not parse. *)
Definition item_at_start (item : CopyItem) : Prop :=
  (item_status item = st_pending /\ item_progress item = 0
   /\ item_message item = js "Waiting...")
  \/ (item_status item = st_processing /\ item_progress item = 0
      /\ item_message item = js "Starting...")
  \/ (item_status item = st_error /\ item_progress item = 0
      /\ item_message item = js "Error: " ++ js "Invalid Google Drive URL").

(** *** Examples *)

(** The example submission, as the first event of a server. *)
Definition demo_answer : HttpResponse * Server.State :=
  Server.POST demo_env demo_body Server.initial.

(** Two files, submitted twice under one job id. *)
Definition twin_body : CopyRequest :=
  mkRequest (Some [js "https://drive.google.com/file/d/1AbCdEfGh/view";
                   js "https://drive.google.com/file/d/2IjKlMnOp/view"])
            (Some (js "target")) None (Some (JsInt 2)).

(** The example submission, and the steps of its promise to the end of
    [processJob]: the first worker has started the file, the second has
    finished the malformed reference and has returned. *)
Definition demo_events : list Server.Event :=
  Server.Submit demo_env demo_body
    :: replicate 7 (Server.Proceed 0 0) ++ [Server.Settle 0].

Definition demo_server : Server.State :=
  default Server.initial (Server.run demo_events Server.initial).

(** Two submissions that are given the same job id.  The first worker of
    the older promise copies its file, reports Success and returns; then
    the first worker of the newer promise, whose [files.get] has been
    answered, reports its progress on the same item. *)
Definition twin_events : list Server.Event :=
  [ Server.Submit demo_env twin_body; Server.Submit demo_env twin_body ]
    ++ replicate 7 (Server.Proceed 0 0) ++ [Server.Proceed 1 0].

(** The example when [POST] has answered. *)
Definition demo_started : Server.State := snd demo_answer.

(** The example while the first worker awaits [permissions.create]. *)
Definition demo_midway : Server.State :=
  default Server.initial (Server.run (take 3 demo_events) Server.initial).

Definition twin_server : Server.State :=
  default Server.initial (Server.run twin_events Server.initial).

(** * Part III: properties *)

Lemma safeConcurrency_int c :
  safeConcurrency (JsInt c) = JsInt (Z.max 1 (Z.min c 10)).
Proof. reflexivity. Qed.

Lemma make_items_length urls : length (make_items urls) = length urls.
Proof. unfold make_items. apply length_imap. Qed.

(** ** [trim] *)

Lemma trim_start_app ws s :
  forallb is_trim_char ws = true -> trim_start (ws ++ s) = trim_start s.
Proof.
  induction ws as [|c ws IH]; [done|]. cbn [forallb app trim_start].
  intros [Hc Hws]%andb_true_iff. rewrite Hc. auto.
Qed.

Lemma trim_start_all ws :
  forallb is_trim_char ws = true -> trim_start ws = [].
Proof.
  intros H. rewrite <- (app_nil_r ws). by rewrite trim_start_app.
Qed.

Lemma trim_start_cases s :
  (forallb is_trim_char s = true /\ trim_start s = [])
  \/ (exists c t, trim_start s = c :: t /\ is_trim_char c = false).
Proof.
  induction s as [|c s IH]; [by left|]. cbn [trim_start forallb].
  destruct (is_trim_char c) eqn:Hc; [|right; eauto].
  destruct IH as [[Ha Ht]|IH]; [left|by right]. by rewrite Ha.
Qed.

Lemma trim_start_app_r s ws :
  forallb is_trim_char ws = true ->
  trim_start (s ++ ws) = match trim_start s with
                         | [] => []
                         | t => t ++ ws
                         end.
Proof.
  intros Hws. induction s as [|c s IH].
  - cbn. by apply trim_start_all.
  - cbn [app trim_start]. destruct (is_trim_char c); done.
Qed.

Lemma forallb_rev {A} (f : A -> bool) l : forallb f (rev l) = forallb f l.
Proof.
  induction l as [|a l IH]; [done|]. cbn.
  rewrite forallb_app, IH. cbn. by rewrite andb_true_r, andb_comm.
Qed.

Lemma trim_end_app t ws :
  forallb is_trim_char ws = true -> trim_end (t ++ ws) = trim_end t.
Proof.
  intros H. unfold trim_end. rewrite rev_app_distr, trim_start_app; [done|].
  by rewrite forallb_rev.
Qed.

Lemma trim_surrounded ws1 s ws2 :
  forallb is_trim_char ws1 = true -> forallb is_trim_char ws2 = true ->
  trim (ws1 ++ s ++ ws2) = trim s.
Proof.
  intros H1 H2. unfold trim. rewrite trim_start_app by done.
  rewrite trim_start_app_r by done.
  destruct (trim_start s) eqn:Hs; [done|]. by rewrite trim_end_app.
Qed.

(** ** The matcher *)

Lemma try_down_None {A} (f : nat -> option A) lo : forall k,
  (forall n, (lo <= n <= k)%nat -> f n = None) -> try_down f lo k = None.
Proof.
  induction k as [|k IH]; intros H; cbn [try_down].
  - destruct (Nat.ltb_spec 0 lo); [done|]. by rewrite H by lia.
  - destruct (Nat.ltb_spec (S k) lo); [done|]. rewrite H by lia.
    apply IH. intros n Hn. apply H. lia.
Qed.

Lemma try_down_first {A} (f : nat -> option A) lo n0 r : forall k,
  (lo <= n0 <= k)%nat -> f n0 = Some r ->
  (forall n, (n0 < n <= k)%nat -> f n = None) ->
  try_down f lo k = Some r.
Proof.
  induction k as [|k IH]; intros Hn Hf Hlater; cbn [try_down].
  - assert (n0 = 0)%nat as -> by lia.
    destruct (Nat.ltb_spec 0 lo); [lia|]. by rewrite Hf.
  - destruct (Nat.ltb_spec (S k) lo); [lia|].
    destruct (decide (n0 = S k)) as [->|Hne]; [by rewrite Hf|].
    rewrite Hlater by lia. apply IH; [lia|done|].
    intros n ?. apply Hlater. lia.
Qed.

Lemma try_down_Some {A} (f : nat -> option A) lo r : forall k,
  try_down f lo k = Some r -> exists n, (lo <= n <= k)%nat /\ f n = Some r.
Proof.
  induction k as [|k IH]; cbn [try_down].
  - destruct (Nat.ltb_spec 0 lo); [done|].
    destruct (f 0%nat) eqn:Hf; [|done]. intros [= <-]. exists 0%nat.
    split; [lia|done].
  - destruct (Nat.ltb_spec (S k) lo); [done|].
    destruct (f (S k)) eqn:Hf.
    + intros [= <-]. exists (S k). split; [lia|done].
    + intros H'. destruct (IH H') as (n & Hn & Hfn). exists n.
      split; [lia|done].
Qed.

Lemma run_length_le cs s : (run_length cs s <= length s)%nat.
Proof.
  induction s as [|c s IH]; cbn; [lia|]. destruct (in_charset cs c); cbn; lia.
Qed.

Lemma run_length_all cs s :
  run_length cs s = length s <-> forallb (in_charset cs) s = true.
Proof.
  induction s as [|c s IH]; cbn; [done|].
  destruct (in_charset cs c); cbn; [|split; [lia|done]].
  rewrite <- IH. split; lia.
Qed.

Lemma run_length_app cs a b :
  forallb (in_charset cs) a = true ->
  run_length cs (a ++ b) = (length a + run_length cs b)%nat.
Proof.
  induction a as [|c a IH]; [done|]. cbn.
  intros [Hc Ha]%andb_true_iff. rewrite Hc. by rewrite IH.
Qed.

Lemma match_here_lit p : forall r bos s,
  p <> [] ->
  match_here (map ALit p ++ r) bos (p ++ s) = match_here r false s.
Proof.
  induction p as [|c p IH]; intros r bos s Hp; [done|].
  cbn [map app match_here]. rewrite N.eqb_refl.
  destruct p as [|c' p]; [done|]. by apply IH.
Qed.

Lemma match_here_lit_mismatch c r bos x s :
  x <> c -> match_here (ALit c :: r) bos (x :: s) = None.
Proof. intros H. cbn. by rewrite (proj2 (N.eqb_neq _ _) H). Qed.

(** A literal character outside of a class never matches inside a string
    of that class. *)
Lemma match_here_lit_outside cs p c q r : forall bos s,
  forallb (in_charset cs) s = true -> in_charset cs c = false ->
  match_here (map ALit (p ++ c :: q) ++ r) bos s = None.
Proof.
  induction p as [|a p IH]; intros bos s Hs Hc; cbn [map app match_here].
  - destruct s as [|x s]; [done|]. cbn in Hs.
    apply andb_true_iff in Hs as [Hx _].
    destruct (N.eqb_spec x c) as [->|]; [congruence|done].
  - destruct s as [|x s]; [done|]. cbn in Hs.
    apply andb_true_iff in Hs as [_ Hs].
    destruct (x =? a)%N; [|done]. by apply IH.
Qed.

Lemma search_from_none r : forall bos s,
  (forall n, match_here r (match n with O => bos | S _ => false end)
               (drop n s) = None) ->
  search_from r bos s = None.
Proof.
  intros bos s. revert bos. induction s as [|c s IH]; intros bos H.
  - pose proof (H 0%nat) as H0. cbn in H0. cbn. by rewrite H0.
  - pose proof (H 0%nat) as H0. cbn [drop] in H0.
    cbn [search_from]. rewrite H0. apply IH.
    intros [|n]; [apply (H 1%nat)|apply (H (S (S n)))].
Qed.

Lemma search_from_skip r c0 r0 pre : forall bos s,
  r = ALit c0 :: r0 -> pre <> [] ->
  Forall (fun c => c <> c0) pre ->
  search_from r bos (pre ++ s) = search_from r false s.
Proof.
  intros bos s ->. revert bos.
  induction pre as [|x pre IH]; intros bos Hne Hall; [done|].
  inversion Hall as [|? ? Hx Hpre]; subst.
  cbn [app search_from]. rewrite match_here_lit_mismatch by done.
  destruct pre as [|y pre]; [done|]. by apply IH.
Qed.

Lemma search_from_here r bos s m :
  match_here r bos s = Some m -> search_from r bos s = Some m.
Proof. intros H. destruct s; cbn [search_from]; by rewrite H. Qed.

Lemma capture_run cs lo (ident rest : jsstring) bos :
  forallb (in_charset cs) ident = true ->
  (lo <= length ident)%nat ->
  match rest with c :: _ => in_charset cs c = false | [] => True end ->
  match_here [ACap cs lo] bos (ident ++ rest) = Some (Some ident).
Proof.
  intros Hid Hlo Hrest. cbn [match_here].
  assert (run_length cs (ident ++ rest) = length ident) as ->.
  { rewrite run_length_app by done.
    destruct rest as [|c rest]; cbn; [lia|]. rewrite Hrest. lia. }
  apply try_down_first with (n0 := length ident); [lia| |intros; lia].
  by rewrite take_app_length.
Qed.

(** ** The patterns on the usual forms of a link *)

(** Replace the string literals of the goal by their code units. *)
Ltac eval_literals :=
  repeat match goal with
         | |- context [js ?s] =>
             let v := eval vm_compute in (js s) in change (js s) with v
         end.

Ltac unfold_patterns :=
  unfold URL_PATTERNS.DRIVE_FILE, URL_PATTERNS.DRIVE_FILE_OPEN,
         URL_PATTERNS.DRIVE_FILE_UC, URL_PATTERNS.DRIVE_FOLDER, lit;
  eval_literals.

Lemma forallb_drop {A} (f : A -> bool) l : forall n,
  forallb f l = true -> forallb f (drop n l) = true.
Proof.
  induction l as [|a l IH]; intros [|n] H; try done.
  cbn in *. apply andb_true_iff in H as [_ H]. by apply IH.
Qed.

Lemma id_char_range c : is_id_char c = true -> (45 <= c <= 122)%N.
Proof.
  unfold is_id_char.
  rewrite !orb_true_iff, !andb_true_iff, !N.leb_le, !N.eqb_eq. lia.
Qed.

Ltac refute_comparisons c :=
  repeat match goal with
         | |- context [(c =? ?k)%N] =>
             replace (c =? k)%N with false
               by (symmetry; apply N.eqb_neq; lia)
         | |- context [(?k <=? c)%N] =>
             replace (k <=? c)%N with false
               by (symmetry; apply N.leb_gt; lia)
         end.

Lemma id_char_not_trim c : is_id_char c = true -> is_trim_char c = false.
Proof.
  intros H%id_char_range.
  unfold is_trim_char, is_white_space, is_line_terminator.
  refute_comparisons c. reflexivity.
Qed.

Lemma id_char_not_terminator c :
  is_id_char c = true -> in_charset CsAny c = true.
Proof.
  intros H%id_char_range. unfold in_charset, is_line_terminator.
  refute_comparisons c. reflexivity.
Qed.

(** The four link patterns all contain the literal [drive.google.com],
    which has a dot: they match nowhere in a string of identifier
    characters. *)
Lemma link_pattern_not_in_id r t (ident : jsstring) bos :
  In (r, t) patterns ->
  forallb is_id_char ident = true ->
  search_from r bos ident = None.
Proof.
  intros Hin Hid. apply search_from_none. intros n.
  assert (forallb (in_charset CsIdChar) (drop n ident) = true) as Hd
    by (by apply forallb_drop).
  destruct Hin as [[= <- <-]|[[= <- <-]|[[= <- <-]|[[= <- <-]|[]]]]];
    unfold_patterns;
    apply (match_here_lit_outside CsIdChar [100; 114; 105; 118; 101]%N 46%N);
    done.
Qed.

Lemma capture_try_down cs lo (ident rest : jsstring) :
  forallb (in_charset cs) ident = true ->
  (lo <= length ident)%nat ->
  match rest with c :: _ => in_charset cs c = false | [] => True end ->
  try_down (fun n => Some (Some (take n (ident ++ rest)))) lo
    (run_length cs (ident ++ rest)) = Some (Some ident).
Proof. intros. by apply (capture_run cs lo ident rest true). Qed.

Lemma capture_try_down_end cs lo (ident : jsstring) :
  forallb (in_charset cs) ident = true ->
  (lo <= length ident)%nat ->
  try_down (fun n => Some (Some (take n ident))) lo (run_length cs ident)
  = Some (Some ident).
Proof.
  intros H1 H2. pose proof (capture_try_down cs lo ident [] H1 H2 I) as H.
  by rewrite app_nil_r in H.
Qed.

Lemma trim_fixed s :
  trim_start s = s -> trim_start (rev s) = rev s -> trim s = s.
Proof.
  intros H1 H2. unfold trim, trim_end. by rewrite H1, H2, rev_involutive.
Qed.

Lemma trim_start_fixed c s : is_trim_char c = false -> trim_start (c :: s) = c :: s.
Proof. intros H. cbn. by rewrite H. Qed.

Section Links.
Variable ident : jsstring.
Hypothesis ident_chars : forallb is_id_char ident = true.
Hypothesis ident_nonempty : ident <> [].

Lemma ident_length : (1 <= length ident)%nat.
Proof. destruct ident; [done|cbn; lia]. Qed.

Lemma ident_group1 :
  match Some (Some ident) with
  | Some (Some (c :: m)) => Some (c :: m)
  | _ => None
  end = Some ident.
Proof. destruct ident; done. Qed.

Lemma ident_last_not_trim : trim_start (rev ident) = rev ident.
Proof.
  destruct ident as [|d l _] using rev_ind; [done|].
  rewrite rev_app_distr. cbn. rewrite forallb_app in ident_chars.
  apply andb_true_iff in ident_chars as [_ Hd]. cbn in Hd.
  apply andb_true_iff in Hd as [Hd _]. by rewrite id_char_not_trim.
Qed.

(** [.../file/d/ID] followed by something that is no identifier
    character, like [/view]. *)
Lemma file_link rest :
  match rest with c :: _ => is_id_char c = false | [] => True end ->
  match_group1 URL_PATTERNS.DRIVE_FILE
    (js "https://drive.google.com/file/d/" ++ ident ++ rest) = Some ident.
Proof.
  intros Hrest. unfold match_group1, regex_exec. unfold_patterns.
  cbn [app map search_from match_here N.eqb Pos.eqb].
  rewrite (capture_try_down CsIdChar 1 ident rest);
    [apply ident_group1|done|apply ident_length|done].
Qed.

Lemma open_link :
  match_group1 URL_PATTERNS.DRIVE_FILE
    (js "https://drive.google.com/open?id=" ++ ident) = None
  /\ match_group1 URL_PATTERNS.DRIVE_FILE_OPEN
       (js "https://drive.google.com/open?id=" ++ ident) = Some ident.
Proof.
  unfold match_group1, regex_exec. unfold_patterns. split.
  - cbn [app map search_from match_here N.eqb Pos.eqb].
    rewrite (link_pattern_not_in_id _ file); [done| |done].
    left. unfold_patterns. reflexivity.
  - cbn [app map search_from match_here N.eqb Pos.eqb].
    rewrite (capture_try_down_end CsIdChar 1 ident);
      [apply ident_group1|done|apply ident_length].
Qed.

Lemma uc_tail :
  match_here ([ARep CsAny 0] ++ map ALit [105; 100; 61]%N
                ++ [ACap CsIdChar 1])
    false ([105; 100; 61]%N ++ ident) = Some (Some ident).
Proof.
  change (try_down
            (fun n => match_here (map ALit [105; 100; 61]%N
                                    ++ [ACap CsIdChar 1])
                        (false && Nat.eqb n 0)
                        (drop n ([105; 100; 61]%N ++ ident)))
            0 (run_length CsAny ([105; 100; 61]%N ++ ident))
          = Some (Some ident)).
  apply try_down_first with (n0 := 0%nat); [lia| |].
  - rewrite drop_0, match_here_lit by done.
    rewrite <- (app_nil_r ident) at 1.
    by apply capture_run; [|apply ident_length|].
  - intros [|[|[|n]]] Hn; [lia|done|done|].
    change (drop (S (S (S n))) ([105; 100; 61]%N ++ ident))
      with (drop n ident).
    apply (match_here_lit_outside CsIdChar [105; 100]%N 61%N []);
      [by apply forallb_drop|done].
Qed.

Lemma uc_link :
  match_group1 URL_PATTERNS.DRIVE_FILE
    (js "https://drive.google.com/uc?id=" ++ ident) = None
  /\ match_group1 URL_PATTERNS.DRIVE_FILE_OPEN
       (js "https://drive.google.com/uc?id=" ++ ident) = None
  /\ match_group1 URL_PATTERNS.DRIVE_FILE_UC
       (js "https://drive.google.com/uc?id=" ++ ident) = Some ident.
Proof.
  unfold match_group1, regex_exec. split; [|split].
  - unfold_patterns. cbn [app map search_from match_here N.eqb Pos.eqb].
    rewrite (link_pattern_not_in_id _ file); [done| |done].
    left. unfold_patterns. reflexivity.
  - unfold_patterns. cbn [app map search_from match_here N.eqb Pos.eqb].
    rewrite (link_pattern_not_in_id _ file); [done| |done].
    right. left. unfold_patterns. reflexivity.
  - unfold URL_PATTERNS.DRIVE_FILE_UC, lit. eval_literals.
    change ([104; 116; 116; 112; 115; 58; 47; 47; 100; 114; 105; 118; 101;
             46; 103; 111; 111; 103; 108; 101; 46; 99; 111; 109; 47; 117;
             99; 63; 105; 100; 61]%N ++ ident)
      with ([104; 116; 116; 112; 115; 58; 47; 47]%N
              ++ [100; 114; 105; 118; 101; 46; 103; 111; 111; 103; 108; 101;
                  46; 99; 111; 109; 47; 117; 99; 63]%N
              ++ [105; 100; 61]%N ++ ident).
    erewrite search_from_skip; [|reflexivity|done|by repeat constructor].
    rewrite (search_from_here _ false _ (Some ident));
      [apply ident_group1|].
    rewrite match_here_lit by done. apply uc_tail.
Qed.

Lemma folder_link :
  match_group1 URL_PATTERNS.DRIVE_FILE
    (js "https://drive.google.com/drive/folders/" ++ ident) = None
  /\ match_group1 URL_PATTERNS.DRIVE_FILE_OPEN
       (js "https://drive.google.com/drive/folders/" ++ ident) = None
  /\ match_group1 URL_PATTERNS.DRIVE_FILE_UC
       (js "https://drive.google.com/drive/folders/" ++ ident) = None
  /\ match_group1 URL_PATTERNS.DRIVE_FOLDER
       (js "https://drive.google.com/drive/folders/" ++ ident) = Some ident.
Proof.
  unfold match_group1, regex_exec. split; [|split; [|split]].
  - unfold_patterns. cbn [app map search_from match_here N.eqb Pos.eqb].
    rewrite (link_pattern_not_in_id _ file); [done| |done].
    left. unfold_patterns. reflexivity.
  - unfold_patterns. cbn [app map search_from match_here N.eqb Pos.eqb].
    rewrite (link_pattern_not_in_id _ file); [done| |done].
    right. left. unfold_patterns. reflexivity.
  - unfold_patterns. cbn [app map search_from match_here N.eqb Pos.eqb].
    rewrite (link_pattern_not_in_id _ file); [done| |done].
    right. right. left. unfold_patterns. reflexivity.
  - unfold_patterns. cbn [app map search_from match_here N.eqb Pos.eqb].
    rewrite (capture_try_down_end CsIdChar 1 ident);
      [apply ident_group1|done|apply ident_length].
Qed.
End Links.

(** ** The bare identifier *)

Lemma id_only_spec t :
  regex_test URL_PATTERNS.DRIVE_ID_ONLY t = true
  <-> (25 <= length t)%nat /\ forallb is_id_char t = true.
Proof.
  unfold regex_test, regex_exec, URL_PATTERNS.DRIVE_ID_ONLY.
  set (f := fun n : nat =>
              match_here [AEnd] (true && Nat.eqb n 0) (drop n t)).
  assert (Hhere : match_here [AStart; ARep CsIdChar 25; AEnd] true t
                  = try_down f 25 (run_length CsIdChar t)) by reflexivity.
  assert (Hlater : forall s, search_from [AStart; ARep CsIdChar 25; AEnd]
                               false s = None).
  { intros s. apply search_from_none. by intros [|n]. }
  assert (Hsearch : search_from [AStart; ARep CsIdChar 25; AEnd] true t
                    = try_down f 25 (run_length CsIdChar t)).
  { destruct t as [|c t']; cbn [search_from]; rewrite Hhere;
      destruct (try_down f 25 _); try done; apply Hlater. }
  rewrite Hsearch. clear Hsearch Hhere Hlater.
  pose proof (run_length_le CsIdChar t) as Hle.
  split.
  - destruct (try_down f 25 (run_length CsIdChar t)) as [m|] eqn:Ht; [|done].
    intros _. apply try_down_Some in Ht as (n & Hn & Hf).
    assert (length t <= n)%nat as Hlen.
    { subst f. cbn in Hf. destruct (drop n t) eqn:Hd; [|done].
      destruct (decide (length t <= n)%nat); [done|].
      assert (length (drop n t) = 0%nat) as Hl by (by rewrite Hd).
      rewrite length_drop in Hl. lia. }
    split; [lia|]. apply (run_length_all CsIdChar). lia.
  - intros [Hlen Hall]. apply (run_length_all CsIdChar) in Hall.
    rewrite (try_down_first f 25 (length t) None); [done|lia| |lia].
    subst f. cbn. by rewrite drop_all.
Qed.

(** ** [parseGoogleDriveUrl] *)

Lemma parse_cascade url :
  parseGoogleDriveUrl url = parse_in_priority_order (trim url).
Proof.
  unfold parseGoogleDriveUrl, parse_in_priority_order.
  destruct url as [|c url]; [vm_compute; reflexivity|].
  cbn [try_patterns patterns].
  repeat match goal with
         | |- context [match_group1 ?r ?t] =>
             destruct (match_group1 r t); [reflexivity|]
         end.
  reflexivity.
Qed.

Lemma trim_start_app_fixed a b :
  a <> [] -> trim_start a = a -> trim_start (a ++ b) = a ++ b.
Proof.
  destruct a as [|c a]; [done|]. intros _. cbn.
  destruct (is_trim_char c); [|done]. intros H.
  assert (length (trim_start a) <= length a)%nat.
  { clear. induction a as [|x a IH]; cbn; [lia|].
    destruct (is_trim_char x); cbn; lia. }
  rewrite H in *. cbn in *. lia.
Qed.

Section LinkForms.
Variable ident : jsstring.
Hypothesis ident_chars : forallb is_id_char ident = true.
Hypothesis ident_nonempty : ident <> [].

Lemma link_trim (pre : jsstring) c :
  is_trim_char c = false ->
  trim ((c :: pre) ++ ident) = (c :: pre) ++ ident.
Proof.
  intros Hc. apply trim_fixed.
  - by apply trim_start_fixed.
  - rewrite rev_app_distr. apply trim_start_app_fixed.
    + destruct ident using rev_ind; [done|].
      rewrite rev_app_distr. done.
    + by apply ident_last_not_trim.
Qed.

Lemma parse_file_link :
  parseGoogleDriveUrl
    (js "https://drive.google.com/file/d/" ++ ident ++ js "/view")
  = Some (mkParsed ident file).
Proof.
  rewrite parse_cascade.
  assert (trim (js "https://drive.google.com/file/d/" ++ ident ++ js "/view")
          = js "https://drive.google.com/file/d/" ++ ident ++ js "/view")
    as ->.
  { apply trim_fixed.
    - eval_literals. by apply trim_start_fixed.
    - rewrite !rev_app_distr. eval_literals. reflexivity. }
  unfold parse_in_priority_order.
  rewrite (file_link ident ident_chars ident_nonempty); [done|].
  eval_literals. reflexivity.
Qed.

Lemma parse_open_link :
  parseGoogleDriveUrl (js "https://drive.google.com/open?id=" ++ ident)
  = Some (mkParsed ident file).
Proof.
  rewrite parse_cascade.
  assert (trim (js "https://drive.google.com/open?id=" ++ ident)
          = js "https://drive.google.com/open?id=" ++ ident) as ->
    by (eval_literals; by apply link_trim).
  unfold parse_in_priority_order.
  destruct (open_link ident ident_chars ident_nonempty) as (-> & ->). done.
Qed.

Lemma parse_uc_link :
  parseGoogleDriveUrl (js "https://drive.google.com/uc?id=" ++ ident)
  = Some (mkParsed ident file).
Proof.
  rewrite parse_cascade.
  assert (trim (js "https://drive.google.com/uc?id=" ++ ident)
          = js "https://drive.google.com/uc?id=" ++ ident) as ->
    by (eval_literals; by apply link_trim).
  unfold parse_in_priority_order.
  destruct (uc_link ident ident_chars ident_nonempty) as (-> & -> & ->).
  done.
Qed.

Lemma parse_folder_link :
  parseGoogleDriveUrl (js "https://drive.google.com/drive/folders/" ++ ident)
  = Some (mkParsed ident folder).
Proof.
  rewrite parse_cascade.
  assert (trim (js "https://drive.google.com/drive/folders/" ++ ident)
          = js "https://drive.google.com/drive/folders/" ++ ident) as ->
    by (eval_literals; by apply link_trim).
  unfold parse_in_priority_order.
  destruct (folder_link ident ident_chars ident_nonempty)
    as (-> & -> & -> & ->).
  done.
Qed.

Lemma parse_bare_id :
  (25 <= length ident)%nat ->
  parseGoogleDriveUrl ident = Some (mkParsed ident file).
Proof.
  intros Hlen. rewrite parse_cascade.
  assert (trim ident = ident) as ->.
  { apply trim_fixed; [|by apply ident_last_not_trim].
    destruct ident as [|c l]; [done|]. apply trim_start_fixed.
    cbn in ident_chars. apply andb_true_iff in ident_chars as [Hc _].
    by apply id_char_not_trim. }
  unfold parse_in_priority_order, match_group1, regex_exec.
  rewrite (link_pattern_not_in_id URL_PATTERNS.DRIVE_FILE file),
    (link_pattern_not_in_id URL_PATTERNS.DRIVE_FILE_OPEN file),
    (link_pattern_not_in_id URL_PATTERNS.DRIVE_FILE_UC file),
    (link_pattern_not_in_id URL_PATTERNS.DRIVE_FOLDER folder);
    try done; try (unfold patterns; cbn [In]; tauto).
  by rewrite (proj2 (id_only_spec ident)).
Qed.
End LinkForms.

(** ** Running computations *)

Lemma bind_run {A B} (m : M A) (f : A -> M B) w :
  (m ≫= f) w = match m w with
               | (Val a, w') => f a w'
               | (Thrown e, w') => (Thrown e, w')
               | (Diverged, w') => (Diverged, w')
               end.
Proof. reflexivity. Qed.

Lemma bind_val_inv {A B} (m : M A) (f : A -> M B) w b w' :
  (m ≫= f) w = (Val b, w') ->
  exists a w1, m w = (Val a, w1) /\ f a w1 = (Val b, w').
Proof.
  rewrite bind_run. destruct (m w) as [[a|e|] w1]; intros H; try discriminate.
  eauto.
Qed.

Lemma try_catch_val_inv {A} (body : M A) (h : exn -> M A) w a w' :
  (forall e w1 a1 w2, h e w1 <> (Val a1, w2)) ->
  try_catch body h w = (Val a, w') -> body w = (Val a, w').
Proof.
  intros Hh. unfold try_catch. destruct (body w) as [[a0|e|] w1]; intros H;
    try discriminate; auto.
  exfalso. eapply Hh; eauto.
Qed.

Lemma rethrow_app_not_val {A} s e w (a : A) w' :
  rethrow_app s e w <> (Val a, w').
Proof. destruct e; discriminate. Qed.

Lemma throw_not_val {A} e w (a : A) w' : throw e w <> (Val a, w').
Proof. discriminate. Qed.

Lemma initialize_val_inv D w u w' :
  initialize D w = (Val u, w') -> w' = w.
Proof.
  unfold initialize. destruct (drive_initialize D (tick w)); intros H;
    inversion H; auto.
Qed.

Lemma request_val_inv {A} c (ans : nat -> exn + A) nid w a w' :
  request c ans nid w = (Val a, w') ->
  ans (tick w) = inr a
  /\ tick w' = S (tick w)
  /\ calls w' = calls w ++ [mkApiEvent c (Returned (nid a))]
  /\ actions w' = actions w.
Proof.
  unfold request. destruct (ans (tick w)); intros H; inversion H; auto.
Qed.

Lemma call_opt_spec {X} (o : option (X -> M unit)) x w :
  callback_ok o ->
  exists acts,
    call_opt o x w = (Val tt, mkWorld (tick w) (calls w) (actions w ++ acts))
    /\ (o = None -> acts = []).
Proof.
  destruct o as [f|]; simpl; intros H.
  - destruct (H x w) as [acts ->]. exists acts. split; [done|discriminate].
  - exists []. rewrite app_nil_r. destruct w; done.
Qed.

Lemma onProgress_only_acts {X} (f : X -> nat * CopyItemStatus * Z * jsstring) :
  only_acts (fun x => let '(i, s, p, m) := f x in onProgress i s p m).
Proof.
  intros x w. destruct (f x) as [[[i s] p] m]. eexists. reflexivity.
Qed.

Lemma call_opt_val_inv {X} (o : option (X -> M unit)) x w u w' :
  callback_ok o ->
  call_opt o x w = (Val u, w') ->
  tick w' = tick w /\ calls w' = calls w
  /\ exists acts, actions w' = actions w ++ acts /\ (o = None -> acts = []).
Proof.
  intros Ho H. destruct (call_opt_spec o x w Ho) as (acts & E & Hn).
  rewrite E in H. inversion H; subst. cbn. eauto.
Qed.

Ltac inv_bind H :=
  let a := fresh "a" in let w := fresh "w" in let Hm := fresh "Hm" in
  apply bind_val_inv in H as (a & w & Hm & H).

Lemma createFolder_val D name parentId w folderId w' :
  createFolder D name parentId w = (Val folderId, w') ->
  exists parents,
    files_create D (tick w) name MIME_TYPES.FOLDER parents = inr (Some folderId)
    /\ folderId <> []
    /\ tick w' = S (S (tick w))
    /\ actions w' = actions w
    /\ calls w' = calls w
         ++ [ mkApiEvent (FilesCreate name MIME_TYPES.FOLDER parents)
                         (Returned (Some folderId));
              public_permission folderId ].
Proof.
  unfold createFolder. intros H.
  apply try_catch_val_inv in H; [|intros; apply rethrow_app_not_val].
  inv_bind H. apply initialize_val_inv in Hm. subst.
  inv_bind H. apply request_val_inv in Hm as (Hc & Ht & Hl & Ha).
  destruct a0 as [[|c f]|]; try discriminate.
  inv_bind H. apply request_val_inv in Hm as (Hp & Ht' & Hl' & Ha').
  inversion H; subst. clear H.
  eexists. split; [exact Hc|]. split; [done|].
  rewrite Ht', Ht, Ha', Ha, Hl', Hl, <- app_assoc. done.
Qed.

Lemma getFileMetadata_val D fileId w md w' :
  getFileMetadata D fileId w = (Val md, w') ->
  tick w' = S (tick w) /\ actions w' = actions w
  /\ calls w' = calls w ++ [mkApiEvent (FilesGet fileId) (Returned None)].
Proof.
  unfold getFileMetadata. intros H.
  apply try_catch_val_inv in H; [|intros; apply throw_not_val].
  inv_bind H. apply initialize_val_inv in Hm. subst.
  inv_bind H. apply request_val_inv in Hm as (Hc & Ht & Hl & Ha).
  inversion H; subst. done.
Qed.

Lemma copyFile_val D src tgt newName cb w r w' :
  callback_ok cb ->
  copyFile D src tgt newName cb w = (Val r, w') ->
  exists fileName,
    calls w' = calls w
      ++ [ mkApiEvent (FilesGet src) (Returned None);
           mkApiEvent (FilesCopy src fileName tgt) (Returned (Some (res_id r)));
           public_permission (res_id r) ].
Proof.
  intros Hcb. unfold copyFile. intros H.
  apply try_catch_val_inv in H; [|intros; apply throw_not_val].
  inv_bind H. apply initialize_val_inv in Hm. subst.
  inv_bind H. apply getFileMetadata_val in Hm as (Ht1 & Ha1 & Hl1).
  inv_bind H. apply call_opt_val_inv in Hm as (Ht2 & Hl2 & _); [|done].
  inv_bind H. apply request_val_inv in Hm as (Hc & Ht3 & Hl3 & Ha3).
  inv_bind H. apply call_opt_val_inv in Hm as (Ht4 & Hl4 & _); [|done].
  inv_bind H. apply request_val_inv in Hm as (Hp & Ht5 & Hl5 & Ha5).
  inv_bind H. apply call_opt_val_inv in Hm as (Ht6 & Hl6 & _); [|done].
  inversion H; subst; clear H. cbn [res_id].
  eexists. rewrite Hl6, Hl5, Hl4, Hl3, Hl2, Hl1, <- !app_assoc. reflexivity.
Qed.

(** ** What the Drive service does to the action log *)

Ltac crunch :=
  cbv [copyFile getFileMetadata createFolder listFilesInFolder try_catch
       mbind M_bind mret M_ret initialize request call_opt throw rethrow_app
       file_callback onProgress act diverge];
  repeat match goal with
         | |- context [match ?x with _ => _ end] =>
             lazymatch x with
             | context [match _ with _ => _ end] => fail
             | _ => destruct x eqn:?; cbn [fst snd actions tick calls]
             end
         end.

Lemma initialize_spec D w :
  initialize D w = (Val tt, w)
  \/ exists m, initialize D w = (Thrown (AppError m), w).
Proof. unfold initialize. destruct (drive_initialize D (tick w)); eauto. Qed.

Lemma getFileMetadata_actions D fileId w r w' :
  getFileMetadata D fileId w = (r, w') ->
  actions w' = actions w /\ r <> Diverged
  /\ forall e, r = Thrown e -> e = AppError (js "Failed to get file metadata").
Proof.
  crunch; intros H; inversion H; subst; cbn; (split; [done|split; [done|]]);
    intros ? [= <-]; done.
Qed.

Lemma createFolder_actions D name parentId w r w' :
  createFolder D name parentId w = (r, w') ->
  actions w' = actions w /\ r <> Diverged
  /\ forall e, r = Thrown e -> exists m, e = AppError m.
Proof.
  crunch; intros H; inversion H; subst; cbn; (split; [done|split; [done|]]);
    intros ? [= <-]; eauto.
Qed.

Lemma listFilesInFolder_actions D folderId w r w' :
  listFilesInFolder D folderId w = (r, w') ->
  actions w' = actions w /\ r <> Diverged.
Proof.
  crunch; intros H; inversion H; subst; cbn; done.
Qed.

Lemma copyFile_actions_none D src tgt newName w r w' :
  copyFile D src tgt newName None w = (r, w') ->
  actions w' = actions w /\ r <> Diverged.
Proof.
  crunch; intros H; inversion H; subst; cbn; done.
Qed.

Lemma copyFile_actions D src tgt newName index w r w' :
  copyFile D src tgt newName (Some (file_callback index)) w = (r, w') ->
  exists k,
    actions w' = actions w
      ++ map (fun p => AEmit (file_progress index p)) (take k [10; 90; 100])
    /\ match r with
       | Val _ => k = 3%nat
       | Thrown e => e = AppError (js "Failed to copy file")
       | Diverged => False
       end.
Proof.
  crunch; intros H; inversion H; subst; cbn;
    first [ exists 0%nat; split; [by rewrite ?app_nil_r|done]
          | exists 1%nat; split; [done|done]
          | exists 2%nat; split; [by rewrite <- ?app_assoc|done]
          | exists 3%nat; split; [by rewrite <- ?app_assoc|done] ].
Qed.

(** *** [copyFolder] *)

Section CopyFolderActions.
Variable D : DriveApi.
Variable cb : option (nat * nat * jsstring -> M unit).
(** What the callback reports for [(current, total, fileName)]. *)
Variable out : nat * nat * jsstring -> list Action.
Hypothesis cb_out : forall x w,
  call_opt cb x w
  = (Val tt, mkWorld (tick w) (calls w) (actions w ++ out x)).

Lemma copy_children_actions sub nf total rest : forall i fc w r w',
  (forall id t n w r w', sub id t n w = (r, w') -> actions w' = actions w) ->
  copy_children D sub cb nf total rest i fc w = (r, w') ->
  exists k, (k <= length rest)%nat
    /\ actions w' = actions w ++ child_outputs out total i (take k rest)
    /\ forall n, r = Val n -> k = length rest /\ n = (fc + length rest)%nat.
Proof.
  induction rest as [|f rest IH]; intros i fc w r w' Hsub H.
  - inversion H; subst. exists 0%nat. cbn. rewrite app_nil_r.
    split; [lia|split; [done|]]. intros n [= <-]. split; [done|lia].
  - cbn [copy_children] in H. rewrite bind_run, cb_out in H.
    rewrite bind_run in H.
    set (w1 := mkWorld (tick w) (calls w)
                 (actions w ++ out ((i + 1)%nat, total, md_name f))) in *.
    assert (Hstep : forall r2 w2,
               (if jsstring_eqb (md_mimeType f) MIME_TYPES.FOLDER
                then sub (md_id f) nf (md_name f)
                else copyFile D (md_id f) nf None None ≫= λ _, mret ())
                 w1 = (r2, w2) -> actions w2 = actions w1).
    { intros r2 w2. destruct (jsstring_eqb _ _).
      - apply Hsub.
      - rewrite bind_run.
        destruct (copyFile D (md_id f) nf None None w1) as [rc wc] eqn:Ec.
        apply copyFile_actions_none in Ec as [Ec _].
        destruct rc; intros [= <- <-]; done. }
    match type of H with
    | match ?m with _ => _ end = _ => destruct m as [r2 w2] eqn:E2
    end.
    apply Hstep in E2. subst w1. cbn [actions] in E2.
    destruct r2.
    + apply IH in H as (k & Hk & Ha & Hv); [|done].
      exists (S k). cbn [take child_outputs length]. split; [lia|].
      split. { rewrite Ha, E2, <- app_assoc. done. }
      intros n Hn. destruct (Hv n Hn). split; lia.
    + inversion H; subst. exists 1%nat. cbn [take child_outputs length].
      rewrite take_0. cbn. split; [lia|]. rewrite app_nil_r.
      split; [done|]. intros n [=].
    + inversion H; subst. exists 1%nat. cbn [take child_outputs length].
      rewrite take_0. cbn. split; [lia|]. rewrite app_nil_r.
      split; [done|]. intros n [=].
Qed.
End CopyFolderActions.

Lemma call_opt_none_out {X} (x : X) w :
  call_opt None x w
  = (Val tt, mkWorld (tick w) (calls w) (actions w ++ (fun _ => []) x)).
Proof. cbn. rewrite app_nil_r. by destruct w. Qed.

Lemma child_outputs_nil total : forall fs i,
  child_outputs (fun _ => []) total i fs = [].
Proof. induction fs; intros; cbn; auto. Qed.

Lemma copyFolder_actions_none D : forall fuel src tgt newName w r w',
  copyFolder D fuel src tgt newName None w = (r, w') ->
  actions w' = actions w.
Proof.
  induction fuel as [|fuel IH]; intros src tgt newName w r w' H.
  - inversion H; done.
  - cbn [copyFolder] in H. unfold try_catch in H.
    match type of H with
    | match ?m with _ => _ end = _ => destruct m as [r1 w1] eqn:E1
    end.
    assert (actions w1 = actions w) as Hw1.
    { clear H. rewrite bind_run in E1.
      destruct (initialize_spec D w) as [Hi|[m Hi]]; rewrite Hi in E1;
        [|by inversion E1].
      rewrite bind_run in E1.
      destruct (getFileMetadata D src w) as [rm wm] eqn:Em.
      apply getFileMetadata_actions in Em as (Em & _).
      destruct rm; [|by inversion E1; subst..].
      rewrite bind_run in E1.
      destruct (createFolder D _ _ wm) as [rc wc] eqn:Ec.
      apply createFolder_actions in Ec as (Ec & _).
      destruct rc; [|by inversion E1; subst; congruence..].
      rewrite bind_run in E1.
      destruct (listFilesInFolder D src wc) as [rl wl] eqn:El.
      apply listFilesInFolder_actions in El as (El & _).
      destruct rl; [|by inversion E1; subst; congruence..].
      rewrite bind_run in E1.
      match type of E1 with
      | match ?m with _ => _ end = _ => destruct m as [r2 w2] eqn:E2
      end.
      eapply copy_children_actions in E2 as (k & _ & Ha & _).
      2: { intros. apply call_opt_none_out. }
      2: { intros id t n wa ra wa'. rewrite bind_run.
           destruct (copyFolder D fuel id t (Some n) None wa) as [rr wr] eqn:Er.
           apply IH in Er. destruct rr; intros [= <- <-]; done. }
      rewrite child_outputs_nil, app_nil_r in Ha.
      destruct r2; inversion E1; subst; congruence. }
    destruct r1; inversion H; subst; done.
Qed.

Section CopyFolderSpec.
Variable D : DriveApi.
Variable cb : option (nat * nat * jsstring -> M unit).
Variable out : nat * nat * jsstring -> list Action.
Hypothesis cb_out : forall x w,
  call_opt cb x w
  = (Val tt, mkWorld (tick w) (calls w) (actions w ++ out x)).

(** Every way [copyFolder] can end: the callbacks made are those of the
    first [k] children of the listing, and when it returns all children
    were visited and [filesCopied] is their number. *)
Lemma copyFolder_spec fuel src tgt newName w r w' :
  copyFolder D fuel src tgt newName cb w = (r, w') ->
  (exists files k,
      (k <= length files)%nat
      /\ actions w' = actions w
           ++ child_outputs out (length files) 0 (take k files)
      /\ forall res, r = Val res ->
           k = length files /\ filesCopied res = length files
           /\ exists sourceFolder w1 w2 w3,
                getFileMetadata D src w = (Val sourceFolder, w1)
                /\ createFolder D (js_or newName (md_name sourceFolder))
                     (Some tgt) w1 = (Val (fr_id res), w2)
                /\ listFilesInFolder D src w2 = (Val files, w3)
                /\ fr_name res = js_or newName (md_name sourceFolder))
  /\ (forall e, r = Thrown e -> e = AppError (js "Failed to copy folder")).
Proof.
  destruct fuel as [|fuel]; intros H.
  { inversion H; subst. split; [|intros ? [=]].
    exists [], 0%nat. cbn. rewrite app_nil_r. split; [lia|split; [done|]].
    intros ? [=]. }
  cbn [copyFolder] in H. unfold try_catch in H.
  match type of H with
  | match ?m with _ => _ end = _ => destruct m as [r1 w1] eqn:E1
  end.
  assert (Hthrow : forall e, r = Thrown e ->
                             e = AppError (js "Failed to copy folder")).
  { destruct r1; inversion H; subst; intros ? [=]; done. }
  split; [|exact Hthrow].
  assert (Hw : w' = w1) by (destruct r1; inversion H; done). subst w1.
  rewrite bind_run in E1.
  destruct (initialize_spec D w) as [Hi|[m Hi]]; rewrite Hi in E1.
  2: { inversion E1; subst. exists [], 0%nat. cbn. rewrite app_nil_r.
       split; [lia|split; [done|]]. intros res ->. inversion H. }
  rewrite bind_run in E1.
  destruct (getFileMetadata D src w) as [rm wm] eqn:Em.
  pose proof (getFileMetadata_actions _ _ _ _ _ Em) as (Am & _).
  destruct rm as [sourceFolder| |].
  2,3: inversion E1; subst; exists [], 0%nat; cbn; rewrite app_nil_r;
       (split; [lia|split; [done|]]); intros res ->; inversion H.
  rewrite bind_run in E1.
  destruct (createFolder D _ _ wm) as [rc wc] eqn:Ec.
  pose proof (createFolder_actions _ _ _ _ _ _ Ec) as (Ac & _).
  destruct rc as [newFolderId| |].
  2,3: inversion E1; subst; exists [], 0%nat; cbn; rewrite app_nil_r;
       (split; [lia|split; [congruence|]]); intros res ->; inversion H.
  rewrite bind_run in E1.
  destruct (listFilesInFolder D src wc) as [rl wl] eqn:El.
  pose proof (listFilesInFolder_actions _ _ _ _ _ El) as (Al & _).
  destruct rl as [files| |].
  2,3: inversion E1; subst; exists [], 0%nat; cbn; rewrite app_nil_r;
       (split; [lia|split; [congruence|]]); intros res ->; inversion H.
  rewrite bind_run in E1.
  match type of E1 with
  | match ?m with _ => _ end = _ => destruct m as [r2 w2] eqn:E2
  end.
  eapply copy_children_actions in E2 as (k & Hk & Ha & Hv); [|exact cb_out|].
  2: { intros id t n wa ra wa'. rewrite bind_run.
       destruct (copyFolder D fuel id t (Some n) None wa) as [rr wr] eqn:Er.
       apply copyFolder_actions_none in Er.
       destruct rr; intros [= <- <-]; done. }
  exists files, k. split; [done|].
  assert (w' = w2) by (destruct r2; inversion E1; done). subst w2.
  split; [rewrite Ha; congruence|].
  intros res ->. destruct r1; inversion H; subst.
  destruct r2; inversion E1; subst.
  destruct (Hv _ eq_refl) as [-> ->]. cbn.
  split; [done|split; [done|]]. eauto 10.
Qed.
End CopyFolderSpec.

(** ** The body of the worker loop *)

Lemma act_run a w : act a w = (Val tt, add_actions w [a]).
Proof. reflexivity. Qed.

Lemma onProgress_run i s p m w :
  onProgress i s p m w = (Val tt, add_actions w [AEmit (mkEvent i s p m)]).
Proof. reflexivity. Qed.

Lemma add_actions_app w a b :
  add_actions (add_actions w a) b = add_actions w (a ++ b).
Proof. unfold add_actions. cbn. by rewrite <- app_assoc. Qed.

Section ProcessItemSpec.
Variable pct : nat -> nat -> Z.
Variable D : DriveApi.
Variable fuel : nat.
Variable target : jsstring.

Lemma process_item_invalid item w :
  it_parsed item = None ->
  process_item pct D fuel target item w
  = (Val tt, add_actions w (failure item (js "Invalid Google Drive URL"))).
Proof.
  intros Hp. unfold process_item, try_catch, throw. rewrite Hp.
  rewrite bind_run, act_run, onProgress_run, add_actions_app. done.
Qed.

Lemma process_item_file item parsed w :
  it_parsed item = Some parsed -> parsed_type parsed = file ->
  process_item pct D fuel target item w
  = match copyFile D (parsed_id parsed) target None
            (Some (file_callback (it_index item)))
            (add_actions w [AEmit (start_event (it_index item))]) with
    | (Val result, wb) => (Val tt, add_actions wb (file_success item result))
    | (Thrown e, wb) => (Val tt, add_actions wb (failure item (exn_message e)))
    | (Diverged, wb) => (Diverged, wb)
    end.
Proof.
  intros Hp Ht. unfold process_item, try_catch. rewrite Hp, Ht.
  rewrite bind_run, onProgress_run, bind_run.
  fold (start_event (it_index item)).
  destruct (copyFile _ _ _ _ _ _) as [[result|e|] wb]; try done.
  - rewrite bind_run, act_run, onProgress_run, add_actions_app. done.
  - rewrite bind_run, act_run, onProgress_run, add_actions_app.
    destruct e; done.
Qed.

Lemma process_item_folder item parsed w :
  it_parsed item = Some parsed -> parsed_type parsed = folder ->
  process_item pct D fuel target item w
  = match copyFolder D fuel (parsed_id parsed) target None
            (Some (folder_callback pct (it_index item)))
            (add_actions w [AEmit (start_event (it_index item))]) with
    | (Val result, wb) => (Val tt, add_actions wb (folder_success item result))
    | (Thrown e, wb) => (Val tt, add_actions wb (failure item (exn_message e)))
    | (Diverged, wb) => (Diverged, wb)
    end.
Proof.
  intros Hp Ht. unfold process_item, try_catch. rewrite Hp, Ht.
  rewrite bind_run, onProgress_run, bind_run.
  fold (start_event (it_index item)).
  destruct (copyFolder _ _ _ _ _ _ _) as [[result|e|] wb]; try done.
  - rewrite bind_run, act_run, onProgress_run, add_actions_app. done.
  - rewrite bind_run, act_run, onProgress_run, add_actions_app.
    destruct e; done.
Qed.
End ProcessItemSpec.

Lemma child_outputs_events pct index total : forall fs i,
  child_outputs (fun x => [AEmit (folder_progress pct index x)]) total i fs
  = map AEmit (folder_events pct index total i fs).
Proof. induction fs as [|f fs IH]; intros i; cbn; [done|]. by rewrite IH. Qed.

Lemma folder_callback_out pct index x w :
  call_opt (Some (folder_callback pct index)) x w
  = (Val tt, mkWorld (tick w) (calls w)
               (actions w ++ [AEmit (folder_progress pct index x)])).
Proof. destruct x as [[current total] fileName]. reflexivity. Qed.

Lemma folder_events_progress pct index total : forall fs i,
  map ev_progress (folder_events pct index total i fs)
  = map (fun c => pct c total) (seq (i + 1) (length fs)).
Proof.
  induction fs as [|f fs IH]; intros i; cbn; [done|].
  f_equal. rewrite IH. by replace (S i + 1)%nat with (S (i + 1)) by lia.
Qed.

Lemma folder_events_processing pct index total : forall fs i,
  Forall (fun e => ev_index e = index /\ ev_status e = st_processing)
         (folder_events pct index total i fs).
Proof. induction fs; intros; cbn; constructor; auto. Qed.

Section ProcessItemShape.
Variable pct : nat -> nat -> Z.
Variable D : DriveApi.
Variable fuel : nat.
Variable target : jsstring.

Lemma process_item_file_shape item parsed w r w' :
  it_parsed item = Some parsed -> parsed_type parsed = file ->
  process_item pct D fuel target item w = (r, w') ->
  r = Val tt
  /\ exists k tail,
       actions w' = actions w
         ++ AEmit (start_event (it_index item))
            :: map (fun p => AEmit (file_progress (it_index item) p))
                   (take k [10; 90; 100])
         ++ tail
       /\ ((k = 3%nat /\ exists result, tail = file_success item result)
           \/ tail = failure item (js "Failed to copy file")).
Proof.
  intros Hp Ht. rewrite (process_item_file _ _ _ _ _ _ _ Hp Ht).
  destruct (copyFile _ _ _ _ _ _) as [rb wb] eqn:Eb.
  apply copyFile_actions in Eb as (k & Ha & Hr). cbn [add_actions actions] in Ha.
  destruct rb as [result|e|]; [| |done]; intros [= <- <-]; (split; [done|]);
    exists k; eexists; cbn [add_actions actions]; rewrite Ha, <- !app_assoc;
    (split; [reflexivity|]).
  - left. eauto.
  - right. by subst e.
Qed.

Lemma process_item_folder_shape item parsed w r w' :
  it_parsed item = Some parsed -> parsed_type parsed = folder ->
  process_item pct D fuel target item w = (r, w') ->
  exists files k tail,
    (k <= length files)%nat
    /\ actions w' = actions w
         ++ AEmit (start_event (it_index item))
            :: map AEmit (folder_events pct (it_index item) (length files) 0
                            (take k files))
         ++ tail
    /\ match r with
       | Val _ =>
           (k = length files
            /\ exists result, filesCopied result = length files
                              /\ tail = folder_success item result)
           \/ tail = failure item (js "Failed to copy folder")
       | Diverged => tail = []
       | Thrown _ => False
       end.
Proof.
  intros Hp Ht. rewrite (process_item_folder _ _ _ _ _ _ _ Hp Ht).
  destruct (copyFolder _ _ _ _ _ _ _) as [rb wb] eqn:Eb.
  eapply copyFolder_spec in Eb as [(files & k & Hk & Ha & Hv) He];
    [|apply folder_callback_out].
  rewrite child_outputs_events in Ha. cbn [add_actions actions] in Ha.
  destruct rb as [result|e|]; intros [= <- <-]; exists files, k; eexists;
    cbn [add_actions actions]; rewrite ?Ha, <- ?app_assoc;
    (split; [done|]); (split; [cbn; try reflexivity|]).
  - left. destruct (Hv _ eq_refl) as (-> & Hf & _). eauto.
  - right. by rewrite (He _ eq_refl).
  - by rewrite app_nil_r.
  - done.
Qed.
End ProcessItemShape.

(** ** The bound on the depth of [copyFolder]

    A computation that comes back within a bound does the same under every
    larger bound: the bound is not observable in the results. *)

Lemma agrees_refl {A} (m : M A) : agrees_when_returns m m.
Proof. by intros w r w' H _. Qed.

Lemma agrees_bind {A B} (m m' : M A) (k k' : A -> M B) :
  agrees_when_returns m m' ->
  (forall a, agrees_when_returns (k a) (k' a)) ->
  agrees_when_returns (m ≫= k) (m' ≫= k').
Proof.
  intros Hm Hk w r w' H Hr. rewrite bind_run in *.
  destruct (m w) as [[a|e|] w1] eqn:Em.
  - rewrite (Hm _ _ _ Em) by done. by apply Hk.
  - rewrite (Hm _ _ _ Em) by done. done.
  - by inversion H; subst.
Qed.

Lemma agrees_try_catch {A} (m m' : M A) (h : exn -> M A) :
  agrees_when_returns m m' ->
  agrees_when_returns (try_catch m h) (try_catch m' h).
Proof.
  intros Hm w r w' H Hr. unfold try_catch in *.
  destruct (m w) as [[a|e|] w1] eqn:Em.
  - by rewrite (Hm _ _ _ Em).
  - by rewrite (Hm _ _ _ Em).
  - by inversion H; subst.
Qed.

Lemma copy_children_agrees D sub sub' op newFolderId total rest :
  (forall a b c, agrees_when_returns (sub a b c) (sub' a b c)) ->
  forall i n,
    agrees_when_returns
      (copy_children D sub op newFolderId total rest i n)
      (copy_children D sub' op newFolderId total rest i n).
Proof.
  intros Hsub. induction rest as [|f rest IH]; intros i n;
    cbn [copy_children].
  - apply agrees_refl.
  - apply agrees_bind; [apply agrees_refl|]. intros _.
    apply agrees_bind; [|intros _; apply IH].
    destruct (jsstring_eqb (md_mimeType f) MIME_TYPES.FOLDER);
      [apply Hsub|apply agrees_refl].
Qed.

Lemma copyFolder_fuel_mono D fuel : forall fuel' src target name op,
  (fuel <= fuel')%nat ->
  agrees_when_returns (copyFolder D fuel src target name op)
                      (copyFolder D fuel' src target name op).
Proof.
  induction fuel as [|fuel IH]; intros fuel' src target name op Hle.
  - intros w r w' H Hr. by inversion H; subst.
  - destruct fuel' as [|fuel']; [lia|]. cbn [copyFolder].
    apply agrees_try_catch.
    apply agrees_bind; [apply agrees_refl|]. intros _.
    apply agrees_bind; [apply agrees_refl|]. intros sourceFolder.
    apply agrees_bind; [apply agrees_refl|]. intros newFolderId.
    apply agrees_bind; [apply agrees_refl|]. intros files.
    apply agrees_bind; [|intros ?; apply agrees_refl].
    apply copy_children_agrees. intros a b c.
    apply agrees_bind; [|intros ?; apply agrees_refl].
    apply IH. lia.
Qed.

(** The loop body of a worker does not depend on the bound once it comes
    back within it. *)
Lemma process_item_fuel_mono pct D fuel fuel' target item w :
  (fuel <= fuel')%nat ->
  fst (process_item pct D fuel target item w) <> Diverged ->
  process_item pct D fuel' target item w
  = process_item pct D fuel target item w.
Proof.
  intros Hle Hr.
  destruct (process_item pct D fuel target item w) as [r w'] eqn:E.
  revert E Hr. cbn [fst]. revert w r w'.
  change (agrees_when_returns (process_item pct D fuel target item)
                              (process_item pct D fuel' target item)).
  unfold process_item. apply agrees_try_catch.
  destruct (it_parsed item) as [parsed|]; [|apply agrees_refl].
  apply agrees_bind; [apply agrees_refl|]. intros _.
  destruct (parsed_type parsed); [apply agrees_refl|].
  apply agrees_bind; [|intros ?; apply agrees_refl].
  by apply copyFolder_fuel_mono.
Qed.

(** ** Progress events of one item *)

Lemma emitted_app a b : emitted (a ++ b) = emitted a ++ emitted b.
Proof. apply omap_app. Qed.

Lemma emitted_map_AEmit es : emitted (map AEmit es) = es.
Proof. induction es; cbn; [done|]. by f_equal. Qed.

Lemma nondecreasing_cons a l :
  nondecreasing (a :: l) = true <->
  nondecreasing l = true /\ match l with b :: _ => a <= b | [] => True end.
Proof.
  destruct l as [|b l]; cbn [nondecreasing]; [tauto|].
  rewrite andb_true_iff, Z.leb_le. tauto.
Qed.

Lemma nondecreasing_map_seq (f : nat -> Z) : forall k a,
  (forall c, (a <= c)%nat -> (S c < a + k)%nat -> f c <= f (S c)) ->
  nondecreasing (map f (seq a k)) = true.
Proof.
  induction k as [|k IH]; intros a Hf; [done|].
  cbn [seq map]. apply nondecreasing_cons. split.
  - apply IH. intros c ? ?. apply Hf; lia.
  - destruct k; cbn; [done|]. apply Hf; lia.
Qed.

Lemma nondecreasing_snoc l a :
  nondecreasing l = true -> (forall b, In b l -> b <= a) ->
  nondecreasing (l ++ [a]) = true.
Proof.
  induction l as [|x l IH]; intros Hl Hb; [done|].
  apply nondecreasing_cons in Hl as [Hl Hx].
  cbn [app]. apply nondecreasing_cons. split.
  - apply IH; [done|]. intros b ?. apply Hb. by right.
  - destruct l as [|y l]; cbn; [apply Hb; by left|done].
Qed.

Lemma take_3_cases {A} k (x y z : A) :
  take k [x; y; z] = [] \/ take k [x; y; z] = [x] \/ take k [x; y; z] = [x; y]
  \/ take k [x; y; z] = [x; y; z].
Proof. destruct k as [|[|[|[|k]]]]; cbn; auto. Qed.

Section ItemEvents.
Variable pct : nat -> nat -> Z.
Variable D : DriveApi.
Variable fuel : nat.
Variable target : jsstring.

Lemma folder_events_sorted index files k :
  percent_sane pct -> (k <= length files)%nat ->
  let ps := map ev_progress
              (folder_events pct index (length files) 0 (take k files)) in
  nondecreasing (0 :: ps) = true /\ forall b, In b ps -> 0 <= b <= 100.
Proof.
  intros Hs Hk ps. subst ps. rewrite folder_events_progress.
  rewrite length_take, Nat.min_l by done. cbn [Nat.add].
  split.
  - apply nondecreasing_cons. split.
    + apply nondecreasing_map_seq. intros c ? ?. apply Hs; lia.
    + destruct k; cbn; [done|]. apply Hs. lia.
  - intros b Hb. apply in_map_iff in Hb as (c & <- & Hc).
    apply in_seq in Hc. apply Hs. lia.
Qed.

(** The events of an item whose processing returns. *)
Lemma item_events_shape item :
  percent_sane pct ->
  fst (process_item pct D fuel target item world0) <> Diverged ->
  exists procs last,
    item_events pct D fuel target item = procs ++ [last]
    /\ Forall (fun e => ev_status e = st_processing) procs
    /\ nondecreasing (map ev_progress procs) = true
    /\ ((ev_status last = st_success /\ ev_progress last = 100
         /\ nondecreasing (map ev_progress (procs ++ [last])) = true)
        \/ (ev_status last = st_error /\ ev_progress last = 0)).
Proof.
  intros Hs Hd. unfold item_events.
  destruct (process_item pct D fuel target item world0) as [r w'] eqn:E.
  cbn [fst snd] in *.
  destruct (it_parsed item) as [parsed|] eqn:Hp.
  2: { rewrite process_item_invalid in E by done. inversion E; subst.
       exists [], (error_event (it_index item) (js "Invalid Google Drive URL")).
       cbn. split; [done|]. split; [constructor|]. split; [done|]. by right. }
  destruct (parsed_type parsed) eqn:Ht.
  - apply (process_item_file_shape _ _ _ _ _ _ _ _ _ Hp Ht) in E
      as (-> & k & tail & Ha & Htail).
    cbn [world0 actions app] in Ha. rewrite Ha. clear Ha.
    change (AEmit ?e :: ?l) with (map AEmit [e] ++ l).
    rewrite <- (map_map (file_progress (it_index item)) AEmit).
    rewrite !emitted_app, !emitted_map_AEmit.
    destruct Htail as [(-> & result & ->)| ->]; cbn [file_success failure emitted omap].
    + eexists _, _. rewrite <- app_assoc. split; [reflexivity|].
      split; [repeat constructor|]. split; [done|]. left. done.
    + eexists _, _. rewrite <- app_assoc. split; [reflexivity|].
      split. { destruct (take_3_cases k 10 90 100) as [->|[->|[->| ->]]];
               repeat constructor. }
      split; [|by right].
      destruct (take_3_cases k 10 90 100) as [->|[->|[->| ->]]]; done.
  - apply (process_item_folder_shape _ _ _ _ _ _ _ _ _ Hp Ht) in E
      as (files & k & tail & Hk & Ha & Htail).
    cbn [world0 actions app] in Ha. rewrite Ha. clear Ha.
    change (AEmit ?e :: ?l) with (map AEmit [e] ++ l).
    rewrite !emitted_app, !emitted_map_AEmit.
    destruct (folder_events_sorted (it_index item) files k Hs Hk) as [Hsorted Hrange].
    pose proof (folder_events_processing pct (it_index item) (length files)
                  (take k files) 0) as Hproc.
    set (evs := folder_events pct (it_index item) (length files) 0 (take k files)) in *.
    assert (Hprocs : Forall (fun e => ev_status e = st_processing)
                       ([start_event (it_index item)] ++ evs)).
    { constructor; [done|]. eapply Forall_impl; [exact Hproc|]. by intros ? []. }
    assert (Hmono : nondecreasing
              (map ev_progress ([start_event (it_index item)] ++ evs)) = true)
      by exact Hsorted.
    destruct r as [[]|e|]; [| done | done].
    destruct Htail as [(-> & result & Hn & ->)| ->];
      cbn [folder_success failure emitted omap];
      eexists _, _; rewrite <- app_assoc; (split; [reflexivity|]);
      (split; [exact Hprocs|]); (split; [exact Hmono|]).
    + left. split; [done|]. split; [done|].
      rewrite (app_assoc [_] evs [_]), map_app. apply nondecreasing_snoc; [done|].
      intros b [<-|Hb]; [done|]. apply Hrange in Hb. cbn. lia.
    + by right.
Qed.
End ItemEvents.

(** ** Permissions of what was created *)

Lemma created_is_public_nil : created_is_public [].
Proof. intros i c newId H. by rewrite lookup_nil in H. Qed.

Lemma created_is_public_app a b :
  created_is_public a -> created_is_public b -> created_is_public (a ++ b).
Proof.
  intros Ha Hb i c newId H.
  destruct (decide (i < length a)%nat) as [Hi|Hi].
  - rewrite lookup_app_l in H by done. apply Ha in H.
    rewrite lookup_app_l; [done|]. by apply lookup_lt_Some in H.
  - rewrite lookup_app_r in H by lia. apply Hb in H.
    rewrite lookup_app_r by lia. by replace (S i - length a)%nat
      with (S (i - length a)) by lia.
Qed.

Lemma created_is_public_single c :
  created_is_public [mkApiEvent c (Returned None)].
Proof. intros [|i] c' newId H; cbn in H; [by inversion H|done]. Qed.

Lemma created_is_public_pair c newId :
  created_is_public [mkApiEvent c (Returned (Some newId));
                     public_permission newId].
Proof.
  intros [|[|i]] c' n H; cbn in *; [by inversion H|by inversion H|done].
Qed.

Lemma listFilesInFolder_val D folderId w files w' :
  listFilesInFolder D folderId w = (Val files, w') ->
  calls w' = calls w ++ [mkApiEvent (FilesList folderId) (Returned None)].
Proof.
  unfold listFilesInFolder. intros H.
  apply try_catch_val_inv in H; [|intros; apply throw_not_val].
  inv_bind H. apply initialize_val_inv in Hm. subst.
  inv_bind H. apply request_val_inv in Hm as (Hc & Ht & Hl & Ha).
  inversion H; subst. done.
Qed.

Lemma copyFile_created_public D src tgt newName cb w r w' :
  callback_ok cb ->
  copyFile D src tgt newName cb w = (Val r, w') ->
  exists delta, calls w' = calls w ++ delta /\ created_is_public delta.
Proof.
  intros Hcb H. apply copyFile_val in H as (fileName & ->); [|done].
  eexists. split; [reflexivity|].
  apply (created_is_public_app [_]); [apply created_is_public_single|].
  apply created_is_public_pair.
Qed.

Lemma copy_children_created_public D sub cb nf total rest :
  callback_ok cb ->
  (forall id t n w u w', sub id t n w = (Val u, w') ->
     exists delta, calls w' = calls w ++ delta /\ created_is_public delta) ->
  forall i fc w n w',
    copy_children D sub cb nf total rest i fc w = (Val n, w') ->
    exists delta, calls w' = calls w ++ delta /\ created_is_public delta.
Proof.
  intros Hcb Hsub. induction rest as [|f rest IH]; intros i fc w n w' H.
  - inversion H; subst. exists []. rewrite app_nil_r.
    split; [done|apply created_is_public_nil].
  - cbn [copy_children] in H.
    inv_bind H. apply call_opt_val_inv in Hm as (_ & Hl1 & _); [|done].
    inv_bind H.
    assert (exists delta, calls w1 = calls w0 ++ delta /\ created_is_public delta)
      as (d1 & Hd1 & Hp1).
    { destruct (jsstring_eqb _ _).
      - eapply Hsub; eauto.
      - inv_bind Hm. inversion Hm; subst.
        eapply copyFile_created_public; [|exact Hm0]. done. }
    apply IH in H as (d2 & Hd2 & Hp2).
    exists (d1 ++ d2). rewrite Hd2, Hd1, Hl1, <- app_assoc.
    split; [done|]. by apply created_is_public_app.
Qed.

Lemma copyFolder_created_public D cb :
  callback_ok cb ->
  forall fuel src tgt newName w res w',
    copyFolder D fuel src tgt newName cb w = (Val res, w') ->
    exists delta, calls w' = calls w ++ delta /\ created_is_public delta.
Proof.
  intros Hcb fuel. revert cb Hcb.
  induction fuel as [|fuel IH]; intros cb Hcb src tgt newName w res w' H;
    [discriminate|].
  cbn [copyFolder] in H.
  apply try_catch_val_inv in H; [|intros; apply throw_not_val].
  inv_bind H. apply initialize_val_inv in Hm. subst.
  inv_bind H. apply getFileMetadata_val in Hm as (_ & _ & Hl1).
  inv_bind H. apply createFolder_val in Hm as (parents & _ & _ & _ & _ & Hl2).
  inv_bind H. pose proof (listFilesInFolder_val _ _ _ _ _ Hm) as Hl3.
  clear Hm. inv_bind H.
  eapply copy_children_created_public in Hm as (d & Hd & Hp); [|done|].
  2: { intros id t n wa u wa' Hs. inv_bind Hs. inversion Hs; subst.
       eapply (IH None); [done|exact Hm0]. }
  inversion H; subst.
  eexists. rewrite Hd, Hl3, Hl2, Hl1, <- !app_assoc. split; [reflexivity|].
  apply (created_is_public_app [_]); [apply created_is_public_single|].
  apply (created_is_public_app [_; _]); [apply created_is_public_pair|].
  apply (created_is_public_app [_]); [apply created_is_public_single|done].
Qed.

(** ** The form of the actions of a loop body *)

Lemma has_terminal_app a b :
  has_terminal (a ++ b) = has_terminal a || has_terminal b.
Proof. unfold has_terminal. by rewrite emitted_app, existsb_app. Qed.

Lemma has_terminal_processing procs index :
  Forall (fun e => ev_index e = index /\ ev_status e = st_processing) procs ->
  has_terminal (map AEmit procs) = false.
Proof.
  unfold has_terminal. rewrite emitted_map_AEmit.
  induction 1 as [|e l [_ He] _ IH]; cbn; [done|]. by rewrite He.
Qed.

Lemma process_item_script_ok pct D fuel target item r w' :
  process_item pct D fuel target item world0 = (r, w') ->
  script_ok (it_index item) (actions w') (is_val r).
Proof.
  intros E. destruct (it_parsed item) as [parsed|] eqn:Hp.
  2: { rewrite process_item_invalid in E by done. inversion E; subst.
       exists [], (failure item (js "Invalid Google Drive URL")).
       cbn. split; [done|]. split; [constructor|]. eauto. }
  destruct (parsed_type parsed) eqn:Ht.
  - apply (process_item_file_shape _ _ _ _ _ _ _ _ _ Hp Ht) in E
      as (-> & k & tail & Ha & Htail).
    cbn [world0 actions app] in Ha.
    exists (start_event (it_index item)
              :: map (file_progress (it_index item)) (take k [10; 90; 100])), tail.
    split. { rewrite Ha. cbn [map]. by rewrite map_map. }
    split. { constructor; [done|]. apply Forall_map, Forall_forall. done. }
    cbn. destruct Htail as [(_ & result & ->)| ->]; eauto.
  - apply (process_item_folder_shape _ _ _ _ _ _ _ _ _ Hp Ht) in E
      as (files & k & tail & Hk & Ha & Htail).
    cbn [world0 actions app] in Ha.
    exists (start_event (it_index item)
              :: folder_events pct (it_index item) (length files) 0
                   (take k files)), tail.
    split; [done|].
    split. { constructor; [done|]. apply folder_events_processing. }
    destruct r as [[]|e|]; cbn; [|done|done].
    destruct Htail as [(_ & result & _ & ->)| ->]; eauto.
Qed.

Section ScriptFacts.
Variables (index : nat) (halted : bool).

Lemma script_ok_terminal_last done todo :
  script_ok index (done ++ todo) halted ->
  has_terminal done = true -> todo = [].
Proof.
  intros (procs & tail & Ha & Hp & Ht) Hd.
  destruct todo as [|x todo _] using rev_ind; [done|]. exfalso.
  destruct halted.
  - destruct Ht as (r & term & -> & _).
    change [AStore index r; AEmit term]
      with ([AStore index r] ++ [AEmit term]) in Ha.
    rewrite !app_assoc in Ha. apply app_inj_tail in Ha as [Ha _].
    assert (has_terminal (done ++ todo) = false) as Hf.
    { rewrite Ha, has_terminal_app.
      by rewrite (has_terminal_processing _ _ Hp). }
    rewrite has_terminal_app, Hd in Hf. done.
  - subst tail. rewrite app_nil_r in Ha.
    assert (has_terminal (done ++ todo ++ [x]) = false) as Hf
      by (rewrite Ha; eapply has_terminal_processing; eauto).
    rewrite has_terminal_app, Hd in Hf. done.
Qed.

Lemma script_ok_complete acts :
  script_ok index acts true -> has_terminal acts = true.
Proof.
  intros (procs & tail & -> & Hp & r & term & -> & _ & Ht).
  rewrite has_terminal_app. apply orb_true_iff. right.
  unfold has_terminal. cbn. by rewrite Ht.
Qed.

Lemma script_ok_in acts a :
  script_ok index acts halted -> In a acts ->
  match a with
  | AEmit e => ev_index e = index
  | AStore j _ => j = index
  end.
Proof.
  intros (procs & tail & -> & Hp & Ht) Hin.
  apply in_app_or in Hin as [Hin|Hin].
  - apply in_map_iff in Hin as (e & <- & He).
    rewrite Forall_forall in Hp. apply list_elem_of_In in He.
    by apply Hp in He as [].
  - destruct halted; [|by subst].
    destruct Ht as (r & term & -> & Hi & _).
    destruct Hin as [<-|[<-|[]]]; done.
Qed.
End ScriptFacts.

(** ** Steps of the worker pool keep its invariants *)

Lemma run_item_config E0 E i item :
  same_config E0 E -> run_item E i item = run_item E0 i item.
Proof.
  intros (H1 & H2 & H3 & H4 & _). unfold run_item. by rewrite H1, H2, H3, H4.
Qed.

Lemma script_ok_engine E0 i :
  (forall i item, eng_items E0 !! i = Some item -> it_index item = i) ->
  (i < length (eng_items E0))%nat ->
  script_ok i (script E0 i) (halts E0 i).
Proof.
  intros Hitems Hi. apply lookup_lt_is_Some in Hi as [item Hitem].
  unfold script, halts. rewrite Hitem.
  destruct (run_item E0 i item) as [r w'] eqn:Er.
  rewrite <- (Hitems _ _ Hitem) at 1. eapply process_item_script_ok.
  exact Er.
Qed.

Lemma worker_insert_Some (ws : list Worker) w x w' y :
  <[w := x]> ws !! w' = Some y ->
  (w' = w /\ y = x) \/ (w' <> w /\ ws !! w' = Some y).
Proof.
  intros H. apply list_lookup_insert_Some in H as [(-> & -> & _)|[? ?]]; auto.
Qed.

Lemma stored_snoc_emit acts e : stored (acts ++ [AEmit e]) = stored acts.
Proof. unfold stored. rewrite omap_app. cbn. by rewrite app_nil_r. Qed.

Lemma stored_snoc_store acts j r : stored (acts ++ [AStore j r]) = Some r.
Proof. unfold stored. rewrite omap_app. cbn. by rewrite last_snoc. Qed.

Section EngineSteps.
Variables (E0 E : Engine) (P : nat -> list Action) (w : nat).
Hypothesis HI : EngineInv E0 E P.

(** The worker leaves the loop: [currentIndex < items.length] is false. *)
Lemma inv_step_finish :
  workers E !! w = Some AtLoopHead ->
  eng_items E !! currentIndex E = None ->
  EngineInv E0 (set_worker E w Finished) P.
Proof.
  intros Hw Hnone. destruct HI. destruct inv_config0 as (Hc1 & Hc2 & Hc3 & Hc4 & Hit).
  rewrite Hit in Hnone. apply lookup_ge_None in Hnone.
  split; cbn [set_worker results currentIndex workers eng_items].
  - done.
  - done.
  - done.
  - done.
  - done.
  - done.
  - intros w' i todo h H. apply worker_insert_Some in H as [[_ [=]]|[_ H]].
    eauto.
  - intros w1 w2 i todo h todo' h' H1 H2.
    apply worker_insert_Some in H1 as [[_ [=]]|[_ H1]].
    apply worker_insert_Some in H2 as [[_ [=]]|[_ H2]]. eauto.
  - intros i Hi Hfree. apply inv_released0; [done|].
    intros w' todo h H. apply (Hfree w' todo h).
    destruct (decide (w' = w)) as [->|Hne]; [congruence|].
    by rewrite list_lookup_insert_ne.
  - done.
  - intros. rewrite length_insert; auto.
  - done.
Qed.

(** The worker claims the next item: [const itemIndex = currentIndex++]. *)
Lemma inv_step_claim item :
  workers E !! w = Some AtLoopHead ->
  eng_items E !! currentIndex E = Some item ->
  EngineInv E0
    (mkEngine (eng_percent E) (eng_drive E) (eng_fuel E) (eng_target E)
       (eng_items E) (S (currentIndex E))
       (<[w := Busy (currentIndex E)
                 (actions (snd (run_item E (currentIndex E) item)))
                 (is_val (fst (run_item E (currentIndex E) item)))]>
          (workers E))
       (results E))
    P.
Proof.
  intros Hw Hitem. destruct HI.
  pose proof inv_config0 as (Hc1 & Hc2 & Hc3 & Hc4 & Hit).
  rewrite Hit in Hitem. pose proof (lookup_lt_Some _ _ _ Hitem) as Hlt.
  rewrite (run_item_config E0 E) by done.
  split; cbn [results currentIndex workers eng_items eng_percent eng_drive
              eng_fuel eng_target].
  - done.
  - done.
  - done.
  - lia.
  - intros i Hi. apply inv_unclaimed0. lia.
  - done.
  - intros w' i todo h H. apply worker_insert_Some in H as [[_ [= -> -> ->]]|[_ H]].
    + split; [lia|]. unfold script, halts. rewrite Hitem.
      by rewrite inv_unclaimed0.
    + apply inv_busy0 in H as (? & ? & ?). split; [lia|done].
  - intros w1 w2 i todo h todo' h' H1 H2.
    apply worker_insert_Some in H1 as [[-> [= -> -> ->]]|[Hn1 H1]];
      apply worker_insert_Some in H2 as [[-> Heq]|[Hn2 H2]]; try (injection Heq as ? ? ?); subst.
    + done.
    + apply inv_busy0 in H2 as (? & _). lia.
    + apply inv_busy0 in H1 as (? & _). lia.
    + eauto.
  - intros i Hi Hfree.
    destruct (decide (i = currentIndex E)) as [->|Hne].
    { exfalso. eapply Hfree. apply list_lookup_insert_eq.
      by eapply lookup_lt_Some. }
    apply inv_released0; [lia|].
    intros w' todo h H. apply (Hfree w' todo h).
    destruct (decide (w' = w)) as [->|Hne']; [congruence|].
    by rewrite list_lookup_insert_ne.
  - intros w' H. apply worker_insert_Some in H as [[_ [=]]|[_ H]].
    apply inv_finished0 in H. lia.
  - intros. rewrite length_insert; auto.
  - done.
Qed.

(** The worker does the next action of the loop body. *)
Lemma inv_step_action i a todo h :
  workers E !! w = Some (Busy i (a :: todo) h) ->
  EngineInv E0
    (mkEngine (eng_percent E) (eng_drive E) (eng_fuel E) (eng_target E)
       (eng_items E) (currentIndex E)
       (<[w := Busy i todo h]> (workers E))
       (match a with
        | AStore j r => <[j := Some r]> (results E)
        | AEmit _ => results E
        end))
    (fun j => if decide (j = i) then P j ++ [a] else P j).
Proof.
  intros Hw. destruct HI.
  pose proof inv_config0 as (Hc1 & Hc2 & Hc3 & Hc4 & Hit).
  destruct (inv_busy0 _ _ _ _ Hw) as (Hi & Hs & Hh).
  assert (Hok : script_ok i (script E0 i) (halts E0 i))
    by (apply script_ok_engine; [done|lia]).
  split; cbn [results currentIndex workers eng_items eng_percent eng_drive
              eng_fuel eng_target].
  - done.
  - done.
  - destruct a; [done|]. by rewrite length_insert.
  - done.
  - intros j Hj. destruct (decide (j = i)) as [->|_]; [lia|auto].
  - intros j. destruct (decide (j = i)) as [->|_]; [|done].
    exists todo. by rewrite Hs, <- app_assoc.
  - intros w' j todo' h' H.
    apply worker_insert_Some in H as [[_ [= -> -> ->]]|[Hn H]].
    + rewrite decide_True by done. rewrite <- app_assoc. done.
    + destruct (decide (j = i)) as [->|_]; [|eauto].
      exfalso. apply Hn. eauto.
  - intros w1 w2 j t1 h1 t2 h2 H1 H2.
    apply worker_insert_Some in H1 as [[-> [= -> -> ->]]|[Hn1 H1]];
      apply worker_insert_Some in H2 as [[-> Heq]|[Hn2 H2]]; try (injection Heq as ? ? ?); subst;
      eauto.
    all: symmetry; eauto.
  - intros j Hj Hfree.
    destruct (decide (j = i)) as [->|Hne].
    { exfalso. eapply Hfree. apply list_lookup_insert_eq.
      by eapply lookup_lt_Some. }
    apply inv_released0; [lia|].
    intros w' todo' h' H. apply (Hfree w' todo' h').
    destruct (decide (w' = w)) as [->|Hne']; [congruence|].
    by rewrite list_lookup_insert_ne.
  - intros w' H. apply worker_insert_Some in H as [[_ [=]]|[_ H]]. eauto.
  - intros. rewrite length_insert; auto.
  - intros j Hj. destruct a as [e|k r].
    + rewrite inv_results0 by done.
      destruct (decide (j = i)) as [->|_]; [|done].
      by rewrite stored_snoc_emit.
    + assert (k = i) as ->.
      { apply (script_ok_in _ _ _ (AStore k r) Hok). rewrite Hs.
        apply in_or_app. right. by left. }
      destruct (decide (j = i)) as [->|Hne].
      * rewrite list_lookup_insert_eq by lia. by rewrite stored_snoc_store.
      * rewrite list_lookup_insert_ne by done. auto.
Qed.

(** The loop body has returned; the worker is back at the loop test. *)
Lemma inv_step_return i :
  workers E !! w = Some (Busy i [] true) ->
  EngineInv E0 (set_worker E w AtLoopHead) P.
Proof.
  intros Hw. destruct HI.
  destruct (inv_busy0 _ _ _ _ Hw) as (Hi & Hs & Hh).
  rewrite app_nil_r in Hs.
  split; cbn [set_worker results currentIndex workers eng_items].
  - done.
  - done.
  - done.
  - done.
  - done.
  - done.
  - intros w' j todo h H. apply worker_insert_Some in H as [[_ [=]]|[_ H]].
    eauto.
  - intros w1 w2 j t1 h1 t2 h2 H1 H2.
    apply worker_insert_Some in H1 as [[_ [=]]|[_ H1]].
    apply worker_insert_Some in H2 as [[_ [=]]|[_ H2]]. eauto.
  - intros j Hj Hfree.
    destruct (decide (j = i)) as [->|Hne]; [done|].
    apply inv_released0; [done|].
    intros w' todo h H. apply (Hfree w' todo h).
    destruct (decide (w' = w)) as [->|Hne']; [congruence|].
    by rewrite list_lookup_insert_ne.
  - intros w' H. apply worker_insert_Some in H as [[_ [=]]|[_ H]]. eauto.
  - intros. rewrite length_insert; auto.
  - done.
Qed.
End EngineSteps.

(** ** [clearOldJobs] *)

Lemma clearOldJobs_fold (now maxAgeMs : Z) (jobs0 : gmap jsstring CopyJob) :
  forall m : gmap jsstring CopyJob,
    let r := map_fold
               (fun jobId job '(cleared, m) =>
                  let jobAge := now - createdAt job in
                  match job_status job with
                  | job_complete =>
                      if jobAge >? maxAgeMs then (S cleared, delete jobId m)
                      else (cleared, m)
                  | _ => (cleared, m)
                  end)
               (0%nat, jobs0) m in
    (forall k, snd r !! k
               = match m !! k with
                 | Some x => if expired now maxAgeMs x then None
                             else jobs0 !! k
                 | None => jobs0 !! k
                 end)
    /\ fst r = size (filter (fun kv => expired now maxAgeMs (snd kv) = true) m).
Proof.
  apply (map_fold_weak_ind
           (fun (r : nat * gmap jsstring CopyJob) (m : gmap jsstring CopyJob) =>
              (forall k, snd r !! k
                         = match m !! k with
                           | Some x => if expired now maxAgeMs x then None
                                       else jobs0 !! k
                           | None => jobs0 !! k
                           end)
              /\ fst r = size (filter (fun kv => expired now maxAgeMs (snd kv) = true) m))).
  - split; [intros k; by rewrite lookup_empty|].
    by rewrite map_filter_empty, map_size_empty.
  - intros i x m [c acc] Hi [Hl Hc]. cbn [fst snd] in *. cbv zeta.
    assert (Hkeep : expired now maxAgeMs x = false ->
      (forall k, acc !! k
                 = match <[i:=x]> m !! k with
                   | Some x0 => if expired now maxAgeMs x0 then None
                                else jobs0 !! k
                   | None => jobs0 !! k
                   end)
      /\ c = size (filter (fun kv => expired now maxAgeMs (snd kv) = true)
                          (<[i:=x]> m))).
    { intros Hx. split.
      - intros k. destruct (decide (k = i)) as [->|Hne].
        + rewrite lookup_insert_eq, Hx. rewrite Hl, Hi. done.
        + rewrite lookup_insert_ne by done. apply Hl.
      - rewrite map_filter_insert_False by (cbn; congruence).
        by rewrite delete_id. }
    destruct (job_status x) eqn:Hs;
      [apply Hkeep; unfold expired; by rewrite Hs| |
       apply Hkeep; unfold expired; by rewrite Hs].
    destruct (now - createdAt x >? maxAgeMs) eqn:Hg;
      [|apply Hkeep; unfold expired; by rewrite Hs].
    assert (Hx : expired now maxAgeMs x = true)
      by (unfold expired; by rewrite Hs).
    cbn [fst snd]. split.
    + intros k. destruct (decide (k = i)) as [->|Hne].
      * by rewrite lookup_delete_eq, lookup_insert_eq, Hx.
      * rewrite lookup_delete_ne, lookup_insert_ne by done. apply Hl.
    + rewrite map_filter_insert_True by done.
      rewrite map_size_insert_None; [by rewrite Hc|].
      apply map_lookup_filter_None. by left.
Qed.

Lemma clearOldJobs_lookup (now maxAgeMs : Z) (jobs : gmap jsstring CopyJob) id :
  snd (clearOldJobs now maxAgeMs jobs) !! id
  = match jobs !! id with
    | Some job => if expired now maxAgeMs job then None else Some job
    | None => None
    end.
Proof.
  pose proof (proj1 (clearOldJobs_fold now maxAgeMs jobs jobs) id) as Hl.
  cbv zeta in Hl. fold (clearOldJobs now maxAgeMs jobs) in Hl.
  rewrite Hl. by destruct (jobs !! id).
Qed.

Lemma clearOldJobs_fst (now maxAgeMs : Z) (jobs : gmap jsstring CopyJob) :
  fst (clearOldJobs now maxAgeMs jobs)
  = size (filter (fun kv => expired now maxAgeMs (snd kv) = true) jobs).
Proof. exact (proj2 (clearOldJobs_fold now maxAgeMs jobs jobs)). Qed.

Lemma clearOldJobs_count (now maxAgeMs : Z) (jobs : gmap jsstring CopyJob) :
  (fst (clearOldJobs now maxAgeMs jobs)
   + size (snd (clearOldJobs now maxAgeMs jobs)) = size jobs)%nat.
Proof.
  rewrite clearOldJobs_fst.
  assert (snd (clearOldJobs now maxAgeMs jobs)
          = filter (fun kv => ~ expired now maxAgeMs (snd kv) = true) jobs) as ->.
  { apply map_eq. intros k. rewrite clearOldJobs_lookup, map_lookup_filter.
    destruct (jobs !! k) as [job|]; cbn; [|done].
    destruct (expired now maxAgeMs job) eqn:Hx.
    - by rewrite option_guard_False by (cbn; auto).
    - by rewrite option_guard_True by (cbn; congruence). }
  rewrite <- map_size_disj_union by apply map_disjoint_filter_complement.
  by rewrite map_filter_union_complement.
Qed.

(** ** Counting the finished items *)

Lemma count_terminal_cons item items :
  count_terminal (item :: items)
  = ((if is_terminal (item_status item) then 1 else 0)
     + count_terminal items)%nat.
Proof.
  unfold count_terminal. rewrite filter_cons.
  destruct (is_terminal (item_status item)); by case_decide.
Qed.

Lemma count_terminal_le items : (count_terminal items <= length items)%nat.
Proof.
  induction items as [|x l IH]; [done|]. rewrite count_terminal_cons. cbn.
  destruct (is_terminal (item_status x)); lia.
Qed.

Lemma count_terminal_all items :
  count_terminal items = length items ->
  Forall (fun item => is_terminal (item_status item) = true) items.
Proof.
  induction items as [|x l IH]; [constructor|].
  rewrite count_terminal_cons. cbn. pose proof (count_terminal_le l).
  destruct (is_terminal (item_status x)) eqn:Hx; [|lia].
  intros Hc. constructor; [done|]. apply IH. lia.
Qed.

Lemma count_terminal_Forall items :
  Forall (fun item => is_terminal (item_status item) = true) items ->
  count_terminal items = length items.
Proof.
  induction 1 as [|x l Hx _ IH]; [done|].
  rewrite count_terminal_cons, Hx, IH. done.
Qed.

Lemma count_terminal_insert items i x y :
  items !! i = Some y ->
  (count_terminal (<[i := x]> items)
   + (if is_terminal (item_status y) then 1 else 0)
   = count_terminal items
     + (if is_terminal (item_status x) then 1 else 0))%nat.
Proof.
  revert i. induction items as [|z l IH]; intros [|i] H; try done.
  - inversion H; subst. change (<[0%nat:=x]> (y :: l)) with (x :: l).
    rewrite !count_terminal_cons.
    destruct (is_terminal (item_status x)), (is_terminal (item_status y)); lia.
  - change (<[S i:=x]> (z :: l)) with (z :: <[i:=x]> l).
    rewrite !count_terminal_cons. specialize (IH i H).
    destruct (is_terminal (item_status x)), (is_terminal (item_status y)),
      (is_terminal (item_status z)); lia.
Qed.

Lemma count_terminal_new (urls : list jsstring) (f : nat -> jsstring -> CopyItem) :
  (forall i u, item_status (f i u) = st_pending) ->
  count_terminal (imap f urls) = 0%nat.
Proof.
  revert f. induction urls as [|u l IH]; intros f Hf; [done|].
  cbn [imap]. rewrite count_terminal_cons, Hf. cbn. apply IH.
  intros i v. apply Hf.
Qed.

(** ** [updateJobItem] *)

Lemma updateJobItem_other (jobId : jsstring) (i : nat) (u : ItemUpdates)
    (jobs : gmap jsstring CopyJob) (id : jsstring) :
  id <> jobId -> updateJobItem jobId i u jobs !! id = jobs !! id.
Proof.
  intros Hne. unfold updateJobItem.
  destruct (jobs !! jobId) as [job|]; [|done].
  destruct (job_items job !! i); [|done].
  destruct (match upd_status u with Some s => is_terminal s | None => false end);
    by rewrite lookup_insert_ne.
Qed.

Lemma updateJobItem_absent (jobId : jsstring) (i : nat) (u : ItemUpdates)
    (jobs : gmap jsstring CopyJob) :
  jobs !! jobId = None -> updateJobItem jobId i u jobs = jobs.
Proof. intros H. unfold updateJobItem. by rewrite H. Qed.

Lemma updateJobItem_no_item (jobId : jsstring) (i : nat) (u : ItemUpdates)
    (jobs : gmap jsstring CopyJob) (job : CopyJob) :
  jobs !! jobId = Some job -> job_items job !! i = None ->
  updateJobItem jobId i u jobs = jobs.
Proof. intros H Hi. unfold updateJobItem. by rewrite H, Hi. Qed.

Lemma set_job_status_other (jobId : jsstring) (s : JobStatus)
    (jobs : gmap jsstring CopyJob) (id : jsstring) :
  id <> jobId -> set_job_status jobId s jobs !! id = jobs !! id.
Proof.
  intros Hne. unfold set_job_status.
  destruct (jobs !! jobId); [|done]. by rewrite lookup_insert_ne.
Qed.

(** ** Runs of the worker pool *)

Lemma batchCopy_start_inv pct drive fuel urls target concurrency :
  let E0 := batchCopy_start pct drive fuel urls target (JsInt concurrency) in
  EngineInv E0 E0 (fun _ => []).
Proof.
  intros E0. subst E0. unfold batchCopy_start.
  split; cbn [results currentIndex workers eng_items].
  - by repeat split.
  - intros i item H. unfold make_items in H.
    rewrite list_lookup_imap in H.
    destruct (urls !! i); inversion H; done.
  - by rewrite length_replicate, make_items_length.
  - lia.
  - done.
  - intros i. by eexists.
  - intros w i todo h H. apply lookup_replicate in H as [[=] _].
  - intros w w' i todo h todo' h' H. apply lookup_replicate in H as [[=] _].
  - intros i Hi. lia.
  - intros w H. apply lookup_replicate in H as [[=] _].
  - intros Hn. rewrite length_replicate, safeConcurrency_int.
    cbn [Math_min ToLength]. lia.
  - intros i Hi. rewrite make_items_length in Hi.
    by rewrite lookup_replicate_2.
Qed.

Lemma engine_step_inv E0 E P w E' oe :
  EngineInv E0 E P -> engine_step w E = Some (E', oe) ->
  exists P',
    EngineInv E0 E' P'
    /\ match oe with
       | Some e =>
           (ev_index e < length (eng_items E0))%nat
           /\ has_terminal (P (ev_index e)) = false
           /\ P' (ev_index e) = P (ev_index e) ++ [AEmit e]
           /\ forall j, j <> ev_index e -> P' j = P j
       | None => forall j, emitted (P' j) = emitted (P j)
       end.
Proof.
  intros HI Hstep. unfold engine_step in Hstep.
  destruct (workers E !! w) as [[|i [|[e|j r] todo] h|]|] eqn:Hw;
    try discriminate.
  - destruct (eng_items E !! currentIndex E) as [item|] eqn:Hitem.
    + pose proof (inv_step_claim E0 E P w HI item Hw Hitem) as HI'.
      destruct (run_item E (currentIndex E) item) as [r world] eqn:Er.
      inversion Hstep; subst; clear Hstep. exists P. split; [exact HI'|done].
    + inversion Hstep; subst; clear Hstep. exists P.
      split; [by apply inv_step_finish|done].
  - destruct h; [|discriminate]. inversion Hstep; subst; clear Hstep.
    exists P. split; [by eapply inv_step_return|done].
  - inversion Hstep; subst; clear Hstep.
    pose proof (inv_step_action E0 E P w HI i (AEmit e) todo h Hw) as HI'.
    destruct (inv_busy _ _ _ HI _ _ _ _ Hw) as (Hi & Hs & Hh).
    pose proof (inv_cursor _ _ _ HI) as Hc.
    assert (Hok : script_ok i (script E0 i) (halts E0 i))
      by (apply script_ok_engine; [apply (inv_items _ _ _ HI)|lia]).
    assert (ev_index e = i) as Hidx.
    { apply (script_ok_in _ _ _ (AEmit e) Hok). rewrite Hs.
      apply in_or_app. right. by left. }
    eexists. split; [exact HI'|]. rewrite Hidx.
    split; [lia|]. split.
    { destruct (has_terminal (P i)) eqn:Ht; [|done].
      rewrite Hs in Hok. by apply script_ok_terminal_last in Hok. }
    split; [by rewrite decide_True|].
    intros j' Hj. by rewrite decide_False.
  - inversion Hstep; subst; clear Hstep.
    pose proof (inv_step_action E0 E P w HI i (AStore j r) todo h Hw) as HI'.
    eexists. split; [exact HI'|]. intros j'. cbn beta.
    destruct (decide (j' = i)); [|done].
    rewrite emitted_app. cbn. by rewrite app_nil_r.
Qed.

(** The events sent to an index are those of the actions done for it. *)
Lemma engine_trace_inv E0 E tr :
  (exists P0, EngineInv E0 E0 P0 /\ forall i, P0 i = []) ->
  engine_trace E0 E tr ->
  exists P, EngineInv E0 E P /\ forall i, events_of i tr = emitted (P i).
Proof.
  intros (P0 & H0 & Hnil). induction 1 as [|E tr w E' oe _ IH Hstep].
  - exists P0. split; [done|]. intros i. by rewrite Hnil.
  - destruct IH as (P & HI & Hev).
    destruct (engine_step_inv _ _ _ _ _ _ HI Hstep) as (P' & HI' & Heff).
    exists P'. split; [done|]. intros i. unfold events_of in *.
    rewrite filter_app, Hev. destruct oe as [e|].
    + destruct Heff as (_ & _ & Hsame & Hother).
      destruct (decide (ev_index e = i)) as [<-|Hne].
      * rewrite Hsame, emitted_app, filter_cons_True by done. done.
      * rewrite filter_cons_False by done. rewrite Hother by done.
        by rewrite filter_nil, app_nil_r.
    + by rewrite filter_nil, app_nil_r, Heff.
Qed.

Lemma engine_reach_inv E0 E :
  (exists P0, EngineInv E0 E0 P0 /\ forall i, P0 i = []) ->
  engine_reach E0 E ->
  exists P, EngineInv E0 E P.
Proof.
  intros H0 [tr Htr].
  destruct (engine_trace_inv _ _ _ H0 Htr) as (P & HI & _). eauto.
Qed.

(** ** Jobs follow their workers *)

Lemma new_job_inv pct drive fuel urls target concurrency jobId created :
  JobInv (new_job jobId urls target created)
         (batchCopy_start pct drive fuel urls target concurrency)
         (fun _ => []).
Proof.
  split; cbn [new_job totalItems job_items completedItems job_status
              batchCopy_start eng_items].
  - by rewrite make_items_length.
  - by rewrite length_imap, make_items_length.
  - by rewrite count_terminal_new.
  - intros i item H. rewrite list_lookup_imap in H.
    destruct (urls !! i); inversion H; done.
  - done.
Qed.

Lemma job_inv_silent job E0 P P' :
  JobInv job E0 P ->
  (forall j, emitted (P' j) = emitted (P j)) ->
  JobInv job E0 P'.
Proof.
  intros [] HP. split; try done.
  intros i item H. unfold has_terminal. rewrite HP. eauto.
Qed.

Lemma job_inv_emit (jobs : gmap jsstring CopyJob) (id : jsstring) job E0 P P' e :
  JobInv job E0 P ->
  (ev_index e < length (eng_items E0))%nat ->
  has_terminal (P (ev_index e)) = false ->
  P' (ev_index e) = P (ev_index e) ++ [AEmit e] ->
  (forall j, j <> ev_index e -> P' j = P j) ->
  jobs !! id = Some job ->
  exists job', progress_sink id e jobs !! id = Some job' /\ JobInv job' E0 P'.
Proof.
  intros [Ht Hl Hc Hterm Hs] Hidx Hbefore Hsnoc Hother Hjob.
  assert (Hafter : has_terminal (P' (ev_index e)) = is_terminal (ev_status e)).
  { rewrite Hsnoc, has_terminal_app, Hbefore. unfold has_terminal. cbn.
    by rewrite orb_false_r. }
  unfold progress_sink, updateJobItem. rewrite Hjob.
  assert (is_Some (job_items job !! ev_index e)) as [item Hitem]
    by (apply lookup_lt_is_Some; lia).
  rewrite Hitem. cbn [upd_status].
  assert (Hnot : is_terminal (item_status item) = false)
    by (rewrite (Hterm _ _ Hitem); done).
  assert (Hincomplete : job_status job <> job_complete).
  { intros Hjc. apply Hs in Hjc. rewrite Ht, <- Hl in Hjc.
    apply count_terminal_all in Hjc. rewrite Forall_lookup in Hjc.
    apply Hjc in Hitem. congruence. }
  set (item' := assign item _).
  assert (Hst : item_status item' = ev_status e) by done.
  assert (Hflags : forall i x,
             <[ev_index e := item']> (job_items job) !! i = Some x ->
             is_terminal (item_status x) = has_terminal (P' i)).
  { intros i x Hx. apply list_lookup_insert_Some in Hx
      as [(<- & <- & _)|[Hne Hx]].
    - by rewrite Hst, Hafter.
    - rewrite Hother by done. eauto. }
  pose proof (count_terminal_insert _ _ item' _ Hitem) as Hcount.
  rewrite Hnot, Hst in Hcount.
  destruct (is_terminal (ev_status e)) eqn:He; rewrite lookup_insert_eq;
    eexists; (split; [reflexivity|]);
    split; cbn [totalItems job_items completedItems job_status]; try done.
  - by rewrite length_insert.
  - destruct (Nat.eqb_spec (count_terminal (<[ev_index e:=item']> (job_items job)))
                (totalItems job)); [done|]. intros Hjc. by apply Hincomplete in Hjc.
  - by rewrite length_insert.
  - rewrite Hc. lia.
Qed.

Lemma engine_done_Finished E w x :
  engine_done E = true -> workers E !! w = Some x -> x = Finished.
Proof.
  unfold engine_done. rewrite forallb_forall. intros H Hw.
  apply list_elem_of_lookup_2, list_elem_of_In, H in Hw. by destruct x.
Qed.

Lemma engine_done_all_performed E0 E P i :
  EngineInv E0 E P -> engine_done E = true ->
  (i < length (eng_items E0))%nat ->
  P i = script E0 i /\ halts E0 i = true.
Proof.
  intros HI Hdone Hi.
  assert (length (eng_items E0) <= currentIndex E)%nat as Hc.
  { assert (0 < length (workers E))%nat as Hw
      by (apply (inv_workers _ _ _ HI); lia).
    apply lookup_lt_is_Some in Hw as [x Hx].
    pose proof (engine_done_Finished _ _ _ Hdone Hx) as ->.
    by apply (inv_finished _ _ _ HI) in Hx. }
  apply (inv_released _ _ _ HI); [lia|].
  intros w todo h Hw. by apply (engine_done_Finished _ _ _ Hdone) in Hw.
Qed.

Lemma job_inv_settle job E0 E P s :
  EngineInv E0 E P -> JobInv job E0 P -> engine_done E = true ->
  JobDone (mkJob (job_id job) s (totalItems job) (completedItems job)
                 (job_items job) (job_targetFolderId job) (createdAt job)).
Proof.
  intros HI [Ht Hl Hc Hterm Hs] Hdone.
  assert (Forall (fun item => is_terminal (item_status item) = true)
                 (job_items job)) as Hall.
  { apply Forall_lookup. intros i item Hitem.
    rewrite (Hterm _ _ Hitem).
    assert (i < length (eng_items E0))%nat as Hi
      by (rewrite <- Hl; by eapply lookup_lt_Some).
    destruct (engine_done_all_performed _ _ _ _ HI Hdone Hi) as [-> Hh].
    eapply script_ok_complete. rewrite <- Hh.
    apply script_ok_engine; [apply (inv_items _ _ _ HI)|done]. }
  split; cbn [totalItems job_items completedItems]; [|done].
  rewrite Hc, Ht, <- Hl. by apply count_terminal_Forall.
Qed.

(** ** The invariant of the server *)

Lemma createJob_inv env urls tf tn concurrency sys :
  SysInv sys ->
  tasks sys !! generateJobId (env_timestamp env) (env_random env) = None ->
  SysInv (snd (createJob env urls tf tn (JsInt concurrency) sys)).
Proof.
  intros HS Hfresh. unfold createJob.
  destruct (fst (resolve_folder env tf tn world0)) as [folderId|e|];
    cbn [snd]; try done.
  intros id job. cbn [jobs tasks].
  set (jobId := generateJobId (env_timestamp env) (env_random env)) in *.
  destruct (decide (id = jobId)) as [->|Hne].
  - rewrite !lookup_insert_eq. intros [= <-].
    eexists _, _. split; [apply batchCopy_start_inv|apply new_job_inv].
  - rewrite !lookup_insert_ne by done. apply HS.
Qed.

Lemma sys_step_inv l sys sys' :
  numeric_submission l ->
  SysInv sys -> sys_step l sys = Some sys' -> SysInv sys'.
Proof.
  intros Hnum HS Hstep.
  destruct l as [env body|jobId w|jobId|jobId|now maxAgeMs];
    cbn [sys_step] in Hstep.
  - destruct (tasks sys !! _) eqn:Hfresh; [discriminate|].
    inversion Hstep; subst; clear Hstep. unfold POST.
    destruct (req_urls body) as [[|u urls]|]; try done.
    assert (exists c, default (JsInt COPY_CONFIG.DEFAULT_CONCURRENCY)
                        (req_concurrency body) = JsInt c) as [c ->].
    { cbn in Hnum. destruct (req_concurrency body) as [[c|]|]; cbn; eauto.
      done. }
    pose proof (createJob_inv env (u :: urls) (req_targetFolderId body)
                  (req_targetFolderName body)
                  (Z.max COPY_CONFIG.MIN_CONCURRENCY
                     (Z.min c COPY_CONFIG.MAX_CONCURRENCY))
                  sys HS Hfresh) as HS'.
    cbn [Math_min Math_max].
    destruct (createJob _ _ _ _ _ _) as [[jid|e|] sys1]; cbn [snd] in *;
      try done.
    by destruct (getJob jid (jobs sys1)).
  - destruct (tasks sys !! jobId) as [[E|]|] eqn:Htask; try discriminate.
    destruct (engine_step w E) as [[E' oe]|] eqn:Hes; [|discriminate].
    inversion Hstep; subst; clear Hstep.
    intros id job. cbn [jobs tasks].
    destruct (decide (id = jobId)) as [->|Hne].
    + rewrite lookup_insert_eq. intros Hjob'.
      assert (exists job0, jobs sys !! jobId = Some job0) as [job0 Hjob0].
      { destruct oe as [e|]; [|eauto].
        destruct (jobs sys !! jobId) eqn:Hj; [eauto|].
        unfold progress_sink in Hjob'.
        rewrite updateJobItem_absent in Hjob' by done. congruence. }
      specialize (HS _ _ Hjob0). rewrite Htask in HS.
      destruct HS as (E0 & P & HI & HJ).
      destruct (engine_step_inv _ _ _ _ _ _ HI Hes) as (P' & HI' & Heff).
      exists E0, P'. split; [done|].
      destruct oe as [e|].
      * destruct Heff as (Hidx & Hb & Ha & Ho).
        destruct (job_inv_emit (jobs sys) jobId _ _ _ _ _ HJ Hidx Hb Ha Ho Hjob0)
          as (job' & Hj' & HJ').
        rewrite Hj' in Hjob'. by inversion Hjob'; subst.
      * rewrite Hjob0 in Hjob'. inversion Hjob'; subst.
        by eapply job_inv_silent.
    + rewrite lookup_insert_ne by done. intros Hjob. apply HS.
      destruct oe as [e|]; [|done]. unfold progress_sink in Hjob.
      by rewrite updateJobItem_other in Hjob.
  - destruct (tasks sys !! jobId) as [[E|]|] eqn:Htask; try discriminate.
    destruct (engine_done E) eqn:Hdone; [|discriminate].
    inversion Hstep; subst; clear Hstep.
    intros id job. cbn [jobs tasks].
    destruct (decide (id = jobId)) as [->|Hne].
    + rewrite lookup_insert_eq. unfold set_job_status.
      destruct (jobs sys !! jobId) as [job0|] eqn:Hjob0; [|congruence].
      rewrite lookup_insert_eq. intros [= <-].
      specialize (HS _ _ Hjob0). rewrite Htask in HS.
      destruct HS as (E0 & P & HI & HJ). by eapply job_inv_settle.
    + rewrite lookup_insert_ne, set_job_status_other by done. apply HS.
  - inversion Hstep; subst; clear Hstep.
    intros id job. cbn [jobs tasks deleteJob snd].
    destruct (decide (id = jobId)) as [->|Hne].
    + by rewrite lookup_delete_eq.
    + rewrite lookup_delete_ne by done. apply HS.
  - inversion Hstep; subst; clear Hstep.
    intros id job. cbn [jobs tasks]. rewrite clearOldJobs_lookup.
    destruct (jobs sys !! id) as [job0|] eqn:Hjob0; [|done].
    destruct (expired now maxAgeMs job0); [done|].
    intros [= <-]. by apply HS.
Qed.

Lemma reachable_inv sys : reachable_by numeric_submission sys -> SysInv sys.
Proof.
  induction 1 as [|l sys sys' Hnum _ IH Hstep].
  - intros id job H. unfold initial_system in H. cbn [jobs] in H.
    by rewrite lookup_empty in H.
  - by eapply sys_step_inv.
Qed.

Lemma run_reachable allowed ls : forall sys sys',
  Forall allowed ls ->
  reachable_by allowed sys -> run ls sys = Some sys' ->
  reachable_by allowed sys'.
Proof.
  induction ls as [|l ls IH]; intros sys sys' Hls Hr H; cbn [run] in H.
  - by inversion H; subst.
  - inversion Hls; subst.
    destruct (sys_step l sys) as [sys1|] eqn:Hs; [|discriminate].
    eapply IH; [done| |exact H]. by eapply reach_step.
Qed.

(** ** C1 *)

(** In every state that the server reaches by submissions whose
    concurrency is a number, a job whose status is Complete has
    [completedItems = totalItems] and all its items are in a terminal
    status, Success or Error; none is Pending or Processing. *)
Theorem complete_job_all_items_terminal sys :
  reachable_by numeric_submission sys -> complete_means_all_terminal sys.
Proof.
  intros Hr id job Hjob Hc. apply reachable_inv in Hr.
  specialize (Hr _ _ Hjob).
  assert (JobDone job) as [Hn Hall].
  { destruct (tasks sys !! id) as [[E|]|]; [|done|done].
    destruct Hr as (E0 & P & HI & [Ht Hl Hco Hterm Hs]).
    specialize (Hs Hc). split; [congruence|].
    apply count_terminal_all. congruence. }
  split; [done|]. eapply Forall_impl; [exact Hall|].
  intros item. cbn. destruct (item_status item); auto; discriminate.
Qed.

Lemma demo_run : run demo_labels initial_system = Some demo_system.
Proof. vm_compute. reflexivity. Qed.

Lemma demo_reachable : reachable_by numeric_submission demo_system.
Proof.
  eapply run_reachable; [|apply reach_init|exact demo_run].
  repeat constructor. discriminate.
Qed.

Lemma complete_job_all_items_terminal_witness :
  exists job,
    jobs demo_system !! demo_id = Some job
    /\ job_status job = job_complete
    /\ completedItems job = totalItems job
    /\ Forall (fun item => item_status item = st_success
                           \/ item_status item = st_error) (job_items job).
Proof.
  destruct (jobs demo_system !! demo_id) as [job|] eqn:Hjob;
    [|vm_compute in Hjob; discriminate].
  exists job.
  assert (job_status job = job_complete) as Hc.
  { vm_compute in Hjob. injection Hjob as <-. reflexivity. }
  split; [reflexivity|]. split; [exact Hc|].
  exact (complete_job_all_items_terminal demo_system demo_reachable demo_id
           job Hjob Hc).
Defined.

Lemma nan_run : run nan_labels initial_system = Some nan_system.
Proof. vm_compute. reflexivity. Qed.

(** C1 fails on the code for a submission whose concurrency is NaN: the
    clamp of [batchCopy] yields NaN, [Array.from({ length: NaN })] starts
    no worker, [batchCopy] returns at once, and [processJob] marks the job
    Complete although nothing was processed: [completedItems] is 0 of 1
    and the item is Pending. *)
Theorem nan_concurrency_completes_unprocessed_job :
  reachable nan_system
  /\ ~ complete_means_all_terminal nan_system
  /\ exists job item,
       jobs nan_system !! demo_id = Some job
       /\ job_status job = job_complete
       /\ completedItems job = 0%nat /\ totalItems job = 1%nat
       /\ job_items job = [item] /\ item_status item = st_pending.
Proof.
  assert (exists job item,
             jobs nan_system !! demo_id = Some job
             /\ job_status job = job_complete
             /\ completedItems job = 0%nat /\ totalItems job = 1%nat
             /\ job_items job = [item] /\ item_status item = st_pending)
    as Hbad.
  { eexists _, _. split; [vm_compute; reflexivity|]. repeat split. }
  split; [|split; [|exact Hbad]].
  - eapply run_reachable; [|apply reach_init|exact nan_run].
    repeat constructor.
  - intros Hall. destruct Hbad as (job & item & Hjob & Hc & Hn & Ht & _).
    destruct (Hall _ _ Hjob Hc) as [Heq _]. congruence.
Qed.

(** ** C7 *)

Lemma exact_percent_sane : percent_sane exact_percent.
Proof.
  intros c t Hc. unfold exact_percent. split.
  - assert (100 * c / t <= 100)%nat
      by (apply Nat.Div0.div_le_upper_bound; nia).
    lia.
  - intros Hs.
    assert (100 * c / t <= 100 * S c / t)%nat
      by (apply Nat.Div0.div_le_mono; lia).
    lia.
Qed.

(** X13: what [batchCopy] sends for an item, in any interleaving of the
    workers, is an initial part of the events of that item, in their
    order; once all workers have left the loop it is all of them. *)
Lemma pool_sends_item_events pct drive fuel urls target (c : Z) E tr i item :
  let E0 := batchCopy_start pct drive fuel urls target (JsInt c) in
  engine_trace E0 E tr ->
  eng_items E0 !! i = Some item ->
  exists rest,
    item_events pct (drive i) fuel target item = events_of i tr ++ rest
    /\ (engine_done E = true -> rest = []).
Proof.
  intros E0 Htr Hitem.
  destruct (engine_trace_inv E0 E tr) as (P & HI & Hev); [|done|].
  { eexists. split; [apply batchCopy_start_inv|done]. }
  assert (Hscript : item_events pct (drive i) fuel target item
                    = emitted (script E0 i)).
  { unfold script. rewrite Hitem. done. }
  destruct (inv_prefix _ _ _ HI i) as [todo Htodo].
  exists (emitted todo). split.
  - by rewrite Hscript, Htodo, emitted_app, Hev.
  - intros Hdone.
    destruct (engine_done_all_performed E0 E P i HI Hdone) as [HP _].
    { by apply lookup_lt_Some in Hitem. }
    rewrite HP in Htodo. rewrite <- (app_nil_r (script E0 i)) in Htodo at 1.
    apply app_inv_head in Htodo. by subst todo.
Qed.

(** C7, as the specification states it, fails: when the Drive refuses the
    copy of a file after the first progress callback, the events of the
    item carry the percents 0, 10, 0. *)
Lemma progress_drops_on_error :
  ~ monotone_to_terminal
      (item_events exact_percent (test_drive [] [js "abc"]) 8 (js "target")
         refused_item).
Proof. intros [H _]. vm_compute in H. discriminate. Qed.

(** C7, amended: the events of an item whose processing returns end in
    exactly one terminal event; the Processing events before it never
    decrease in percent; a Success event carries 100 and keeps the whole
    sequence non-decreasing, an Error event carries 0. *)
Theorem item_events_processing_monotone pct D fuel target item :
  percent_sane pct ->
  fst (process_item pct D fuel target item world0) <> Diverged ->
  one_terminal_last (item_events pct D fuel target item)
  /\ exists procs last,
       item_events pct D fuel target item = procs ++ [last]
       /\ Forall (fun e => ev_status e = st_processing) procs
       /\ nondecreasing (map ev_progress procs) = true
       /\ ((ev_status last = st_success /\ ev_progress last = 100
            /\ nondecreasing (map ev_progress (procs ++ [last])) = true)
           \/ (ev_status last = st_error /\ ev_progress last = 0)).
Proof.
  intros Hs Hd.
  destruct (item_events_shape pct D fuel target item Hs Hd)
    as (procs & last & He & Hp & Hm & Hl).
  split; [|eauto 10].
  exists procs, last. split; [done|]. split.
  - destruct Hl as [(-> & _)|(-> & _)]; done.
  - eapply Forall_impl; [exact Hp|]. by intros e ->.
Qed.

Lemma item_events_processing_monotone_witness :
  map ev_progress
      (item_events exact_percent (test_drive three_files []) 8 (js "target")
         folder_item) = [0; 33; 66; 100; 100]
  /\ one_terminal_last
       (item_events exact_percent (test_drive three_files []) 8 (js "target")
          folder_item).
Proof.
  split; [vm_compute; reflexivity|].
  apply (item_events_processing_monotone exact_percent
           (test_drive three_files []) 8 (js "target") folder_item).
  - exact exact_percent_sane.
  - vm_compute. discriminate.
Defined.

(** ** C5 *)

(** C5, as the specification states it, fails: a job in status Error is
    never removed, however old it is. *)
Lemma old_failed_job_is_kept :
  ~ gc_removes_terminal 100 10 {[ js "copy_1_a" := old_failed_job ]}.
Proof.
  intros H.
  specialize (H (js "copy_1_a") old_failed_job (lookup_singleton_eq _ _)).
  destruct H as [_ H].
  assert (snd (clearOldJobs 100 10 {[ js "copy_1_a" := old_failed_job ]})
            !! js "copy_1_a" = None) as Hgone.
  { apply H. split; [by right|]. cbn. lia. }
  rewrite clearOldJobs_lookup, lookup_singleton_eq in Hgone. discriminate.
Qed.

(** C5, amended: [clearOldJobs] removes exactly the jobs whose status is
    Complete and whose age exceeds [maxAgeMs], returns their number, and
    keeps every job in status Processing or Error, whatever its age. *)
Theorem clearOldJobs_removes_old_complete (now maxAgeMs : Z)
    (jobs : gmap jsstring CopyJob) :
  (forall id,
      snd (clearOldJobs now maxAgeMs jobs) !! id
      = match jobs !! id with
        | Some job =>
            if decide (job_status job = job_complete
                       /\ maxAgeMs < now - createdAt job)
            then None else Some job
        | None => None
        end)
  /\ (fst (clearOldJobs now maxAgeMs jobs)
      + size (snd (clearOldJobs now maxAgeMs jobs)) = size jobs)%nat
  /\ (forall id job,
        jobs !! id = Some job -> job_status job <> job_complete ->
        snd (clearOldJobs now maxAgeMs jobs) !! id = Some job).
Proof.
  split; [|split].
  - intros id. rewrite clearOldJobs_lookup.
    destruct (jobs !! id) as [job|]; [|done].
    unfold expired. case_decide as Hd.
    + destruct Hd as [-> Hage].
      by rewrite (proj2 (Z.gtb_gt _ _) (Z.lt_gt _ _ Hage)).
    + destruct (job_status job); try done.
      destruct (Z.gtb_spec (now - createdAt job) maxAgeMs); [|done].
      exfalso. apply Hd. split; [done|lia].
  - apply clearOldJobs_count.
  - intros id job Hjob Hs. rewrite clearOldJobs_lookup, Hjob.
    unfold expired. by destruct (job_status job).
Qed.

(** ** C8 *)

Lemma task_steps_without_job (jobId : jsstring) ls : forall sys sys',
  jobs sys !! jobId = None ->
  Forall (task_label jobId) ls ->
  run ls sys = Some sys' ->
  jobs sys' = jobs sys.
Proof.
  induction ls as [|l ls IH]; intros sys sys' Hnone Hls Hrun; cbn [run] in Hrun.
  - by inversion Hrun.
  - inversion Hls as [|? ? Hl Hls']; subst.
    destruct (sys_step l sys) as [sys1|] eqn:Hstep; [|discriminate].
    assert (jobs sys1 = jobs sys) as Hsame.
    { destruct l as [| id w | id | |]; try done; cbn in Hl; subst id;
        cbn [sys_step] in Hstep;
        destruct (tasks sys !! jobId) as [[E|]|]; try discriminate.
      - destruct (engine_step w E) as [[E' [e|]]|]; inversion Hstep; subst;
          cbn [jobs]; [|done].
        unfold progress_sink. by apply updateJobItem_absent.
      - destruct (engine_done E); inversion Hstep; subst. cbn [jobs].
        unfold set_job_status. by rewrite Hnone. }
    rewrite <- Hsame. apply IH; [by rewrite Hsame|done|done].
Qed.

(** C8: once the record of a job is deleted, a progress callback for its
    id changes nothing and does not fail; the same holds for an index
    without an item; and the steps of the background task, which go on,
    leave the registry as it is. *)
Theorem callbacks_after_delete_are_noops :
  (forall (jobs : gmap jsstring CopyJob) jobId e,
      progress_sink jobId e (snd (deleteJob jobId jobs))
      = snd (deleteJob jobId jobs))
  /\ (forall (jobs : gmap jsstring CopyJob) jobId i u,
        jobs !! jobId = None -> updateJobItem jobId i u jobs = jobs)
  /\ (forall (jobs : gmap jsstring CopyJob) jobId job i u,
        jobs !! jobId = Some job -> (length (job_items job) <= i)%nat ->
        updateJobItem jobId i u jobs = jobs)
  /\ (forall sys jobId ls sys1 sys',
        sys_step (LDelete jobId) sys = Some sys1 ->
        Forall (task_label jobId) ls ->
        run ls sys1 = Some sys' ->
        jobs sys' = jobs sys1 /\ jobs sys' !! jobId = None)
  /\ (forall sys jobId w sys',
        sys_step (LWorker jobId w) sys = Some sys' ->
        exists sys'',
          sys_step (LWorker jobId w)
            (mkSystem (snd (deleteJob jobId (jobs sys))) (tasks sys))
          = Some sys'' /\ tasks sys'' = tasks sys').
Proof.
  split; [|split; [|split; [|split]]].
  - intros jobs jobId e. unfold progress_sink, deleteJob. cbn [snd].
    apply updateJobItem_absent, lookup_delete_eq.
  - intros. by apply updateJobItem_absent.
  - intros jobs jobId job i u Hjob Hi.
    eapply updateJobItem_no_item; [done|]. by apply lookup_ge_None.
  - intros sys jobId ls sys1 sys' Hdel Hls Hrun.
    inversion Hdel; subst; clear Hdel.
    assert (jobs (mkSystem (snd (deleteJob jobId (jobs sys))) (tasks sys))
              !! jobId = None) as Hnone by apply lookup_delete_eq.
    pose proof (task_steps_without_job jobId ls _ _ Hnone Hls Hrun) as ->.
    done.
  - intros sys jobId w sys' Hstep. cbn [sys_step tasks] in *.
    destruct (tasks sys !! jobId) as [[E|]|]; try discriminate.
    destruct (engine_step w E) as [[E' oe]|]; [|discriminate].
    inversion Hstep; subst. eexists. split; [reflexivity|done].
Qed.

Lemma callbacks_after_delete_are_noops_witness :
  exists sys sys1 sys',
    run (take 4 demo_labels) initial_system = Some sys
    /\ sys_step (LDelete demo_id) sys = Some sys1
    /\ run (drop 4 demo_labels) sys1 = Some sys'
    /\ jobs sys' = jobs sys1 /\ jobs sys' !! demo_id = None.
Proof.
  eexists _, _, _. split; [vm_compute; reflexivity|].
  split; [reflexivity|]. split; [vm_compute; reflexivity|].
  eapply (proj1 (proj2 (proj2 (proj2 callbacks_after_delete_are_noops)))
            _ demo_id (drop 4 demo_labels)).
  - reflexivity.
  - repeat constructor.
  - vm_compute. reflexivity.
Defined.

(** ** C2 *)

Lemma process_item_backend pct D fuel target item parsed w e wb :
  it_parsed item = Some parsed ->
  backend_call pct D fuel target item parsed
    (add_actions w [AEmit (start_event (it_index item))]) = (Thrown e, wb) ->
  process_item pct D fuel target item w
  = (Val tt, add_actions wb (failure item (exn_message e))).
Proof.
  intros Hp. unfold backend_call. destruct (parsed_type parsed) eqn:Ht.
  - rewrite (process_item_file _ _ _ _ _ _ _ Hp Ht), bind_run.
    destruct (copyFile _ _ _ _ _ _) as [[r|e'|] w1]; intros [= <- <-]; done.
  - rewrite (process_item_folder _ _ _ _ _ _ _ Hp Ht), bind_run.
    destruct (copyFolder _ _ _ _ _ _ _) as [[r|e'|] w1]; intros [= <- <-]; done.
Qed.

Lemma process_item_never_throws pct D fuel target item w e :
  fst (process_item pct D fuel target item w) <> Thrown e.
Proof.
  destruct (it_parsed item) as [parsed|] eqn:Hp.
  2: { by rewrite process_item_invalid. }
  destruct (parsed_type parsed) eqn:Ht.
  - rewrite (process_item_file _ _ _ _ _ _ _ Hp Ht).
    by destruct (copyFile _ _ _ _ _ _) as [[r|e'|] w1].
  - rewrite (process_item_folder _ _ _ _ _ _ _ Hp Ht).
    by destruct (copyFolder _ _ _ _ _ _ _) as [[r|e'|] w1].
Qed.

Lemma forallb_false_lookup {A} (f : A -> bool) (l : list A) :
  forallb f l = false -> exists i x, l !! i = Some x /\ f x = false.
Proof.
  induction l as [|a l IH]; [done|]. cbn [forallb].
  destruct (f a) eqn:Ha.
  - intros H. destruct (IH H) as (i & x & Hi & Hx). by exists (S i), x.
  - intros _. by exists 0%nat, a.
Qed.

Lemma engine_progress E0 E P :
  EngineInv E0 E P -> engine_done E = false ->
  (forall i, (i < length (eng_items E0))%nat -> halts E0 i = true) ->
  exists w E' oe, engine_step w E = Some (E', oe).
Proof.
  intros HI Hdone Hhalt.
  apply forallb_false_lookup in Hdone as (w & x & Hw & Hx).
  exists w. unfold engine_step. rewrite Hw.
  destruct x as [|i [|[e|j r] todo] h|]; try done; eauto.
  - destruct (eng_items E !! currentIndex E) as [item|]; eauto.
    destruct (run_item E (currentIndex E) item); eauto.
  - destruct (inv_busy _ _ _ HI _ _ _ _ Hw) as (Hi & _ & ->).
    pose proof (inv_cursor _ _ _ HI). rewrite Hhalt by lia. eauto.
Qed.

Lemma engine_final_results E0 E P i :
  EngineInv E0 E P -> engine_done E = true ->
  (i < length (eng_items E0))%nat ->
  results E !! i = Some (stored (script E0 i))
  /\ is_Some (stored (script E0 i)).
Proof.
  intros HI Hdone Hi.
  destruct (engine_done_all_performed _ _ _ _ HI Hdone Hi) as [HP Hh].
  rewrite (inv_results _ _ _ HI) by done. rewrite HP. split; [done|].
  pose proof (script_ok_engine E0 i (inv_items _ _ _ HI) Hi) as Hok.
  rewrite Hh in Hok.
  destruct Hok as (procs & tail & -> & _ & r & term & -> & _).
  unfold stored. rewrite omap_app.
  change [AStore i r; AEmit term] with ([AStore i r] ++ [AEmit term]).
  rewrite omap_app. cbn. rewrite last_snoc. eauto.
Qed.

(** C2: a fault that the backend raises for an item is caught in the loop
    body of that item and becomes the Error result and the Error event of
    its index, with the message of the fault; the loop body itself never
    throws; the pool is never stuck while the items return; and when all
    workers have finished, every index holds the result of the processing
    of its own item, which does not depend on the other items. *)
Theorem backend_fault_is_isolated :
  (forall pct D fuel target item parsed w e wb,
      it_parsed item = Some parsed ->
      backend_call pct D fuel target item parsed
        (add_actions w [AEmit (start_event (it_index item))]) = (Thrown e, wb) ->
      process_item pct D fuel target item w
      = (Val tt,
         add_actions wb
           [ AStore (it_index item)
               (mkResult (it_url item) false None None (Some (exn_message e)));
             AEmit (mkEvent (it_index item) st_error 0
                      (js "Error: " ++ exn_message e)) ]))
  /\ (forall pct D fuel target item w e,
        fst (process_item pct D fuel target item w) <> Thrown e)
  /\ (forall pct drive fuel urls target concurrency E,
        let E0 := batchCopy_start pct drive fuel urls target
                    (JsInt concurrency) in
        engine_reach E0 E ->
        (engine_done E = false ->
         (forall i item, make_items urls !! i = Some item ->
            fst (process_item pct (drive i) fuel target item world0)
            <> Diverged) ->
         exists w E' oe, engine_step w E = Some (E', oe))
        /\ (engine_done E = true ->
            forall i item, make_items urls !! i = Some item ->
              exists r,
                results E !! i = Some (Some r)
                /\ stored (actions (snd (process_item pct (drive i) fuel target
                                           item world0))) = Some r)).
Proof.
  split; [|split].
  - intros pct D fuel target item parsed w e wb Hp Hb.
    exact (process_item_backend _ _ _ _ _ _ _ _ _ Hp Hb).
  - intros. apply process_item_never_throws.
  - intros pct drive fuel urls target concurrency E E0 Hreach.
    destruct (engine_reach_inv E0 E) as [P HI]; [|done|].
    { eexists. split; [apply batchCopy_start_inv|done]. }
    split.
    + intros Hdone Hhalt. eapply engine_progress; [done|done|].
      intros i Hi. apply lookup_lt_is_Some in Hi as [item Hitem].
      unfold halts. rewrite Hitem. specialize (Hhalt i item Hitem).
      unfold run_item. cbn [E0 batchCopy_start eng_percent eng_drive eng_fuel
                            eng_target].
      by destruct (fst (process_item _ _ _ _ _ _)).
    + intros Hdone i item Hitem.
      assert (i < length (eng_items E0))%nat as Hi
        by (by eapply lookup_lt_Some).
      destruct (engine_final_results E0 E P i HI Hdone Hi) as [Hr [r Hs]].
      exists r. rewrite Hr, Hs. split; [done|].
      unfold script in Hs. cbn [E0 batchCopy_start eng_items] in Hs.
      rewrite Hitem in Hs. exact Hs.
Qed.

Lemma engine_run_reach E0 ws : forall E E',
  engine_reach E0 E -> engine_run ws E = Some E' -> engine_reach E0 E'.
Proof.
  induction ws as [|w ws IH]; intros E E' Hr H; cbn [engine_run] in H.
  - by inversion H; subst.
  - destruct (engine_step w E) as [[E1 oe]|] eqn:Hs; [|discriminate].
    eapply IH; [|exact H]. destruct Hr as [tr Htr].
    eexists. by eapply engine_trace_step.
Qed.

Lemma backend_fault_is_isolated_witness :
  exists E r0 r1,
    engine_run isolation_schedule isolation_start = Some E
    /\ engine_done E = true
    /\ results E = [Some r0; Some r1]
    /\ bcr_success r0 = false
    /\ bcr_error r0 = Some (js "Failed to copy file")
    /\ bcr_success r1 = true
    /\ exists r,
         results E !! 1%nat = Some (Some r)
         /\ stored (actions (snd (process_item exact_percent
                                    (test_drive [] [js "abc"]) 8 (js "target")
                                    (mkBatchItem
                                       (js "https://drive.google.com/file/d/xyz/view")
                                       1
                                       (parseGoogleDriveUrl
                                          (js "https://drive.google.com/file/d/xyz/view")))
                                    world0))) = Some r.
Proof.
  destruct (engine_run isolation_schedule isolation_start) as [E|] eqn:Hrun;
    [|vm_compute in Hrun; discriminate].
  assert (engine_reach isolation_start E) as Hreach
    by (eapply engine_run_reach; [eexists; apply engine_trace_nil|exact Hrun]).
  assert (engine_done E = true) as Hdone
    by (vm_compute in Hrun; injection Hrun as <-; reflexivity).
  assert (exists r0 r1, results E = [Some r0; Some r1]
                        /\ bcr_success r0 = false
                        /\ bcr_error r0 = Some (js "Failed to copy file")
                        /\ bcr_success r1 = true) as (r0 & r1 & H0 & H1 & H2 & H3).
  { vm_compute in Hrun. injection Hrun as <-. eexists _, _.
    repeat split; reflexivity. }
  exists E, r0, r1. repeat (split; [done|]).
  refine (proj2 (proj2 (proj2 backend_fault_is_isolated) exact_percent
                   (fun _ => test_drive [] [js "abc"]) 8%nat _ (js "target") 2 E
                   Hreach) Hdone 1%nat _ _).
  reflexivity.
Defined.

(** ** C6 *)

(** C6, as the specification states it, fails: when the destination folder
    cannot be created, no job is registered at all, so no job carries the
    status Error. *)
Lemma no_job_when_folder_fails :
  ~ surfaces_as_job_error full_env submit_body initial_system.
Proof.
  intros (job & Hjob & _). vm_compute in Hjob. discriminate.
Qed.

(** C6, amended: when the resolution of the destination folder throws,
    [createJob] throws the same value and leaves the registry and the
    tasks as they were: no job is registered and no item is processed.
    [POST] answers with status 500 and the message of the fault. *)
Theorem folder_failure_rejects_submission env urls tf tn concurrency sys e w :
  resolve_folder env tf tn world0 = (Thrown e, w) ->
  createJob env urls tf tn concurrency sys = (Thrown e, sys)
  /\ (urls <> [] ->
      forall c, POST env (mkRequest (Some urls) tf tn c) sys
                = (Http500 (getErrorMessage e), sys))
  /\ sys_step (LSubmit env (mkRequest (Some urls) tf tn (Some concurrency))) sys
     = match tasks sys !! generateJobId (env_timestamp env) (env_random env)
       with
       | Some _ => None
       | None => Some sys
       end.
Proof.
  intros Hr.
  assert (Hc : forall c, createJob env urls tf tn c sys = (Thrown e, sys))
    by (intros c; unfold createJob; by rewrite Hr).
  assert (Hp : forall c, snd (POST env (mkRequest (Some urls) tf tn c) sys) = sys
                         /\ (urls <> [] ->
                             POST env (mkRequest (Some urls) tf tn c) sys
                             = (Http500 (getErrorMessage e), sys))).
  { intros c. unfold POST.
    cbn [req_urls req_targetFolderId req_targetFolderName req_concurrency].
    destruct urls as [|u urls]; [done|]. by rewrite Hc. }
  split; [apply Hc|]. split; [intros Hne c; by apply Hp|].
  cbn [sys_step]. destruct (tasks sys !! _); [done|]. f_equal. apply Hp.
Qed.

Lemma folder_failure_rejects_submission_witness :
  exists e w,
    resolve_folder full_env None None world0 = (Thrown e, w)
    /\ createJob full_env [js "https://drive.google.com/file/d/abc/view"]
         None None (JsInt 3) initial_system = (Thrown e, initial_system)
    /\ getErrorMessage e = js "Failed to create folder".
Proof.
  eexists _, _. split; [vm_compute; reflexivity|]. split; [|reflexivity].
  refine (proj1 (folder_failure_rejects_submission full_env
                   [js "https://drive.google.com/file/d/abc/view"]
                   None None (JsInt 3) initial_system _ _ _)).
  vm_compute. reflexivity.
Defined.

(** ** C9 *)

Lemma getFileMetadata_log D fileId w r w' :
  getFileMetadata D fileId w = (r, w') ->
  (exists md, r = Val md)
  /\ calls w' = calls w ++ [mkApiEvent (FilesGet fileId) (Returned None)]
  \/ (exists e, r = Thrown e)
     /\ (calls w' = calls w
         \/ calls w' = calls w ++ [mkApiEvent (FilesGet fileId) Fault]).
Proof.
  unfold getFileMetadata, try_catch. rewrite bind_run.
  unfold initialize. destruct (drive_initialize D (tick w)).
  { unfold throw. intros [= <- <-]. right. eauto. }
  rewrite bind_run. unfold request.
  destruct (files_get D (tick w) fileId) as [e|md]; cbn [mret M_ret];
    unfold throw; intros [= <- <-]; cbn [calls tick].
  - right. eauto.
  - left. eauto.
Qed.

Lemma private_file_log src fileName tgt newId :
  ~ created_is_public
      [ mkApiEvent (FilesGet src) (Returned None);
        mkApiEvent (FilesCopy src fileName tgt) (Returned (Some newId));
        mkApiEvent (PermissionsCreate newId (js "reader") (js "anyone"))
                   Fault ].
Proof. intros H. specialize (H 1%nat _ _ eq_refl). discriminate. Qed.

Lemma private_folder_log name parents folderId rest :
  rest = [] \/ rest = [mkApiEvent (PermissionsCreate folderId (js "reader")
                                     (js "anyone")) Fault] ->
  ~ created_is_public
      (mkApiEvent (FilesCreate name MIME_TYPES.FOLDER parents)
                  (Returned (Some folderId)) :: rest).
Proof.
  intros [-> | ->] H; specialize (H 0%nat _ _ eq_refl); discriminate.
Qed.

Lemma created_is_public_no_id (log : list ApiEvent) :
  Forall (fun c => forall newId, api_result c <> Returned (Some newId)) log ->
  created_is_public log.
Proof.
  intros Hall i c newId Hi.
  eapply Forall_lookup_1 in Hall; [|exact Hi]. by destruct (Hall newId).
Qed.

Lemma copyFile_log D src tgt newName cb w r w' :
  callback_ok cb ->
  copyFile D src tgt newName cb w = (r, w') ->
  exists log,
    calls w' = calls w ++ log
    /\ (created_is_public log
        \/ r = Thrown (AppError (js "Failed to copy file"))
           /\ exists fileName newId,
                log = [ mkApiEvent (FilesGet src) (Returned None);
                        mkApiEvent (FilesCopy src fileName tgt)
                                   (Returned (Some newId));
                        mkApiEvent (PermissionsCreate newId (js "reader")
                                      (js "anyone")) Fault ]).
Proof.
  intros Hcb. unfold copyFile, try_catch. rewrite bind_run.
  unfold initialize at 1. destruct (drive_initialize D (tick w)).
  { unfold throw. intros [= <- <-]. exists []. rewrite app_nil_r.
    split; [done|]. left. apply created_is_public_nil. }
  rewrite bind_run.
  destruct (getFileMetadata D src w) as [rm w1] eqn:Hmeta.
  apply getFileMetadata_log in Hmeta as [[[md ->] Hl1]|[[e ->] Hl1]].
  2: { unfold throw. intros [= <- <-].
       destruct Hl1 as [->| ->].
       - exists []. rewrite app_nil_r. split; [done|]. left.
         apply created_is_public_nil.
       - eexists. split; [reflexivity|]. left.
         apply created_is_public_no_id. repeat constructor. done. }
  rewrite bind_run.
  destruct (call_opt_spec cb 10 w1 Hcb) as (a1 & -> & _).
  rewrite bind_run. unfold request at 1. cbn [tick calls actions].
  destruct (files_copy D (tick w1) src _ tgt) as [e|resp].
  { unfold throw. intros [= <- <-]. cbn [calls]. rewrite Hl1, <- app_assoc.
    eexists. split; [reflexivity|]. left.
    apply created_is_public_no_id. repeat constructor; done. }
  rewrite bind_run.
  match goal with
  | |- context [call_opt cb 90 ?w2] =>
      destruct (call_opt_spec cb 90 w2 Hcb) as (a2 & -> & _)
  end.
  rewrite bind_run. unfold request at 1. cbn [tick calls actions].
  destruct (permissions_create D _ (cr_id resp) _ _) as [e|[]].
  { unfold throw. intros [= <- <-]. cbn [calls]. rewrite Hl1, <- !app_assoc.
    eexists. split; [reflexivity|]. right. eauto. }
  rewrite bind_run.
  match goal with
  | |- context [call_opt cb 100 ?w3] =>
      destruct (call_opt_spec cb 100 w3 Hcb) as (a3 & -> & _)
  end.
  cbn [mret M_ret]. intros [= <- <-]. cbn [calls]. rewrite Hl1, <- !app_assoc.
  eexists. split; [reflexivity|]. left.
  apply (created_is_public_app [_]); [apply created_is_public_single|].
  apply created_is_public_pair.
Qed.

Lemma createFolder_log D name parentId w r w' :
  createFolder D name parentId w = (r, w') ->
  exists log,
    calls w' = calls w ++ log
    /\ (created_is_public log
        \/ (exists e, r = Thrown e)
           /\ exists parents folderId rest,
                log = mkApiEvent (FilesCreate name MIME_TYPES.FOLDER parents)
                                 (Returned (Some folderId)) :: rest
                /\ (folderId = [] /\ rest = []
                    \/ rest = [mkApiEvent (PermissionsCreate folderId
                                             (js "reader") (js "anyone"))
                                          Fault])).
Proof.
  unfold createFolder, try_catch. rewrite bind_run.
  unfold initialize at 1. destruct (drive_initialize D (tick w)).
  { cbn [rethrow_app]. unfold throw. intros [= <- <-]. exists [].
    rewrite app_nil_r. split; [done|]. left. apply created_is_public_nil. }
  cbv zeta. rewrite bind_run. unfold request at 1. cbn [tick calls actions].
  destruct (files_create D (tick w) name MIME_TYPES.FOLDER _)
    as [e|[[|c f]|]].
  - intros H. exists [mkApiEvent (FilesCreate name MIME_TYPES.FOLDER
                        match parentId with
                        | Some (c :: p) => Some (c :: p)
                        | _ => None
                        end) Fault].
    split; [by destruct e; inversion H|]. left.
    apply created_is_public_no_id. repeat constructor; done.
  - cbn [rethrow_app]. unfold throw. intros [= <- <-]. cbn [calls].
    eexists. split; [reflexivity|]. right. split; [eauto|].
    eexists _, _, _. split; [reflexivity|]. by left.
  - rewrite bind_run. unfold request at 1. cbn [tick calls actions].
    destruct (permissions_create D _ (c :: f) _ _) as [e|[]].
    + intros H. eexists. split.
      { destruct e; inversion H; cbn [calls]; rewrite <- app_assoc;
          reflexivity. }
      right. split; [destruct e; inversion H; eauto|].
      eexists _, _, _. split; [reflexivity|]. by right.
    + cbn [mret M_ret]. intros [= <- <-]. cbn [calls]. rewrite <- app_assoc.
      eexists. split; [reflexivity|]. left. apply created_is_public_pair.
  - cbn [rethrow_app]. unfold throw. intros [= <- <-]. cbn [calls].
    eexists. split; [reflexivity|]. left.
    apply created_is_public_no_id. repeat constructor; done.
Qed.

(** C9, as the specification states it, fails: on a Drive that refuses
    the permission request, [copyFile] makes the copy and [createFolder]
    makes the folder, each throws, and the new resource stays on the
    Drive without the public permission. *)
Lemma resource_stays_private_when_sharing_fails :
  ~ nothing_left_private
      (copyFile private_drive (js "abc") (js "target") None None) world0
  /\ ~ nothing_left_private
         (createFolder private_drive (js "Copied_2026-01-01") None) world0.
Proof.
  split; intros H.
  - specialize (H 1%nat (FilesCopy (js "abc") (js "name-of-" ++ js "abc")
                           (js "target"))
                  (js "copy-of-" ++ js "abc") eq_refl).
    vm_compute in H. discriminate.
  - specialize (H 0%nat (FilesCreate (js "Copied_2026-01-01")
                           MIME_TYPES.FOLDER None)
                  (js "new-" ++ js "Copied_2026-01-01") eq_refl).
    vm_compute in H. discriminate.
Qed.

(** C9, amended: when [createFolder] returns a folder id, and when
    [copyFile] returns a copy, the request that created the resource is
    followed by a permission request for it with role reader and type
    anyone, which returned; in a folder copy that returns, this holds for
    every folder created and every file copied on the way.  A resource is
    left private by a call of [copyFile] only when the permission request
    fails after the copy was made, and by a call of [createFolder] only
    when the permission request fails after the folder was made or the
    Drive answered the creation with an empty id: then the call throws,
    it makes no further request, and the resource is not removed. *)
Theorem created_resources_are_public :
  (forall D name parentId w folderId w',
      createFolder D name parentId w = (Val folderId, w') ->
      exists parents,
        calls w' = calls w
          ++ [ mkApiEvent (FilesCreate name MIME_TYPES.FOLDER parents)
                          (Returned (Some folderId));
               mkApiEvent (PermissionsCreate folderId (js "reader")
                             (js "anyone")) (Returned None) ])
  /\ (forall D src tgt newName cb w r w',
        callback_ok cb ->
        copyFile D src tgt newName cb w = (Val r, w') ->
        exists fileName,
          calls w' = calls w
            ++ [ mkApiEvent (FilesGet src) (Returned None);
                 mkApiEvent (FilesCopy src fileName tgt)
                            (Returned (Some (res_id r)));
                 mkApiEvent (PermissionsCreate (res_id r) (js "reader")
                               (js "anyone")) (Returned None) ])
  /\ (forall D cb fuel src tgt newName w res w',
        callback_ok cb ->
        copyFolder D fuel src tgt newName cb w = (Val res, w') ->
        exists log,
          calls w' = calls w ++ log /\ created_is_public log)
  /\ (forall D src tgt newName cb w r w',
        callback_ok cb ->
        copyFile D src tgt newName cb w = (r, w') ->
        exists log,
          calls w' = calls w ++ log
          /\ (created_is_public log
              \/ ~ created_is_public log
                 /\ r = Thrown (AppError (js "Failed to copy file"))
                 /\ exists fileName newId,
                      log = [ mkApiEvent (FilesGet src) (Returned None);
                              mkApiEvent (FilesCopy src fileName tgt)
                                         (Returned (Some newId));
                              mkApiEvent (PermissionsCreate newId
                                            (js "reader") (js "anyone"))
                                         Fault ]))
  /\ (forall D name parentId w r w',
        createFolder D name parentId w = (r, w') ->
        exists log,
          calls w' = calls w ++ log
          /\ (created_is_public log
              \/ ~ created_is_public log
                 /\ (exists e, r = Thrown e)
                 /\ exists parents folderId rest,
                      log = mkApiEvent
                              (FilesCreate name MIME_TYPES.FOLDER parents)
                              (Returned (Some folderId)) :: rest
                      /\ (folderId = [] /\ rest = []
                          \/ rest = [mkApiEvent
                                       (PermissionsCreate folderId
                                          (js "reader") (js "anyone"))
                                       Fault]))).
Proof.
  split; [|split; [|split; [|split]]].
  - intros D name parentId w folderId w' H.
    apply createFolder_val in H as (parents & _ & _ & _ & _ & H). eauto.
  - intros D src tgt newName cb w r w' Hcb H.
    by apply copyFile_val in H.
  - intros D cb fuel src tgt newName w res w' Hcb H.
    by eapply copyFolder_created_public.
  - intros D src tgt newName cb w r w' Hcb H.
    destruct (copyFile_log _ _ _ _ _ _ _ _ Hcb H)
      as (log & Hlog & [Hpub|(Hr & fileName & newId & ->)]);
      exists log || eexists; (split; [exact Hlog|]); [by left|right].
    split; [apply private_file_log|]. eauto.
  - intros D name parentId w r w' H.
    destruct (createFolder_log _ _ _ _ _ _ H)
      as (log & Hlog & [Hpub|(Hr & parents & folderId & rest & -> & Hrest)]);
      exists log || eexists; (split; [exact Hlog|]); [by left|right].
    split.
    + apply private_folder_log. destruct Hrest as [[_ ->]| ->]; auto.
    + split; [done|]. eauto 6.
Qed.

Lemma created_resources_are_public_witness :
  (exists folderId w' parents,
     createFolder (test_drive [] []) (js "Copied_2026-01-01") None world0
     = (Val folderId, w')
     /\ calls w' = calls world0
          ++ [ mkApiEvent (FilesCreate (js "Copied_2026-01-01")
                             MIME_TYPES.FOLDER parents)
                          (Returned (Some folderId));
               mkApiEvent (PermissionsCreate folderId (js "reader")
                             (js "anyone")) (Returned None) ])
  /\ (exists r w' fileName,
        copyFile (test_drive [] []) (js "abc") (js "target") None None world0
        = (Val r, w')
        /\ calls w' = calls world0
             ++ [ mkApiEvent (FilesGet (js "abc")) (Returned None);
                  mkApiEvent (FilesCopy (js "abc") fileName (js "target"))
                             (Returned (Some (res_id r)));
                  mkApiEvent (PermissionsCreate (res_id r) (js "reader")
                                (js "anyone")) (Returned None) ])
  /\ (exists res w' log,
        copyFolder (test_drive nested_tree []) 8 (js "F") (js "target")
          None None world0 = (Val res, w')
        /\ calls w' = calls world0 ++ log
        /\ created_is_public log)
  /\ (exists r w' log,
        copyFile private_drive (js "abc") (js "target") None None world0
        = (r, w')
        /\ calls w' = calls world0 ++ log
        /\ (created_is_public log
            \/ ~ created_is_public log
               /\ r = Thrown (AppError (js "Failed to copy file"))
               /\ exists fileName newId,
                    log = [ mkApiEvent (FilesGet (js "abc")) (Returned None);
                            mkApiEvent (FilesCopy (js "abc") fileName
                                          (js "target"))
                                       (Returned (Some newId));
                            mkApiEvent (PermissionsCreate newId
                                          (js "reader") (js "anyone"))
                                       Fault ]))
  /\ (exists r w' log,
        createFolder private_drive (js "Copied_2026-01-01") None world0
        = (r, w')
        /\ calls w' = calls world0 ++ log
        /\ (created_is_public log
            \/ ~ created_is_public log
               /\ (exists e, r = Thrown e)
               /\ exists parents folderId rest,
                    log = mkApiEvent
                            (FilesCreate (js "Copied_2026-01-01")
                               MIME_TYPES.FOLDER parents)
                            (Returned (Some folderId)) :: rest
                    /\ (folderId = [] /\ rest = []
                        \/ rest = [mkApiEvent
                                     (PermissionsCreate folderId
                                        (js "reader") (js "anyone"))
                                     Fault]))).
Proof.
  destruct created_resources_are_public as (H1 & H2 & H3 & H4 & H5).
  split; [|split; [|split; [|split]]].
  - destruct (createFolder (test_drive [] []) (js "Copied_2026-01-01") None
                world0) as [[folderId| |] w'] eqn:Hrun;
      [|vm_compute in Hrun; discriminate..].
    destruct (H1 _ _ _ _ _ _ Hrun) as (parents & Hlog).
    exists folderId, w', parents. split; [reflexivity|exact Hlog].
  - destruct (copyFile (test_drive [] []) (js "abc") (js "target") None None
                world0) as [[r| |] w'] eqn:Hrun;
      [|vm_compute in Hrun; discriminate..].
    destruct (H2 _ _ _ _ None _ _ _ I Hrun) as (fileName & Hlog).
    exists r, w', fileName. split; [reflexivity|exact Hlog].
  - destruct (copyFolder (test_drive nested_tree []) 8 (js "F") (js "target")
                None None world0) as [[res| |] w'] eqn:Hrun;
      [|vm_compute in Hrun; discriminate..].
    destruct (H3 (test_drive nested_tree []) None 8%nat (js "F")
                (js "target") None world0 res w' I Hrun)
      as (log & Hlog & Hpub).
    exists res, w', log. split; [reflexivity|]. split; [exact Hlog|exact Hpub].
  - destruct (copyFile private_drive (js "abc") (js "target") None None
                world0) as [r w'] eqn:Hrun.
    destruct (H4 _ _ _ _ None _ _ _ I Hrun) as (log & Hlog & Hcases).
    exists r, w', log. split; [reflexivity|]. split; [exact Hlog|exact Hcases].
  - destruct (createFolder private_drive (js "Copied_2026-01-01") None
                world0) as [r w'] eqn:Hrun.
    destruct (H5 _ _ _ _ _ _ Hrun) as (log & Hlog & Hcases).
    exists r, w', log. split; [reflexivity|]. split; [exact Hlog|exact Hcases].
Defined.

(** ** C10 *)

(** C10: when [copyFolder] returns, [filesCopied] is the length of the
    listing of the source folder, one for each direct child, a subfolder
    counting for one; the Success event of a folder item carries 100 and
    the message with that number. *)
Theorem filesCopied_counts_direct_children :
  (forall D fuel src tgt newName cb out w res w',
      (forall x w0, call_opt cb x w0
                    = (Val tt, mkWorld (tick w0) (calls w0)
                                 (actions w0 ++ out x))) ->
      copyFolder D fuel src tgt newName cb w = (Val res, w') ->
      exists sourceFolder w1 w2 files w3,
        getFileMetadata D src w = (Val sourceFolder, w1)
        /\ createFolder D (js_or newName (md_name sourceFolder)) (Some tgt) w1
           = (Val (fr_id res), w2)
        /\ listFilesInFolder D src w2 = (Val files, w3)
        /\ filesCopied res = length files)
  /\ (forall pct D fuel target item parsed w res wb,
        it_parsed item = Some parsed -> parsed_type parsed = folder ->
        copyFolder D fuel (parsed_id parsed) target None
          (Some (folder_callback pct (it_index item)))
          (add_actions w [AEmit (start_event (it_index item))]) = (Val res, wb) ->
        exists files w2 w3,
          listFilesInFolder D (parsed_id parsed) w2 = (Val files, w3)
          /\ last (emitted (actions (snd (process_item pct D fuel target item w))))
             = Some (mkEvent (it_index item) st_success 100
                       (js "Copied folder: " ++ fr_name res ++ js " ("
                          ++ js_of_nat (length files) ++ js " files)"))).
Proof.
  split.
  - intros D fuel src tgt newName cb out w res w' Hcb H.
    destruct (copyFolder_spec D cb out Hcb _ _ _ _ _ _ _ H)
      as [(files & k & _ & _ & Hv) _].
    destruct (Hv res eq_refl) as (_ & Hn & sf & w1 & w2 & w3 & H1 & H2 & H3 & _).
    eauto 10.
  - intros pct D fuel target item parsed w res wb Hp Ht H.
    rewrite (process_item_folder _ _ _ _ _ _ _ Hp Ht), H.
    destruct (copyFolder_spec D _ _ (folder_callback_out pct (it_index item))
                _ _ _ _ _ _ _ H) as [(files & k & _ & _ & Hv) _].
    destruct (Hv res eq_refl) as (_ & Hn & sf & w1 & w2 & w3 & _ & _ & H3 & _).
    exists files, w2, w3. split; [done|].
    cbn [snd add_actions actions]. unfold folder_success.
    rewrite emitted_app.
    match goal with
    | |- context [emitted [AStore ?i ?r; AEmit ?e]] =>
        change (emitted [AStore i r; AEmit e]) with [e]
    end.
    by rewrite last_snoc, Hn.
Qed.

Lemma filesCopied_counts_direct_children_witness :
  exists res w',
    copyFolder (test_drive nested_tree []) 8 (js "F") (js "target") None None
      world0 = (Val res, w')
    /\ filesCopied res = 1%nat
    /\ length (List.filter is_files_copy (calls w')) = 2%nat
    /\ exists sourceFolder w1 w2 files w3,
        getFileMetadata (test_drive nested_tree []) (js "F") world0
        = (Val sourceFolder, w1)
        /\ createFolder (test_drive nested_tree [])
             (js_or None (md_name sourceFolder)) (Some (js "target")) w1
           = (Val (fr_id res), w2)
        /\ listFilesInFolder (test_drive nested_tree []) (js "F") w2
           = (Val files, w3)
        /\ filesCopied res = length files.
Proof.
  destruct (copyFolder (test_drive nested_tree []) 8 (js "F") (js "target")
              None None world0) as [[res| |] w'] eqn:Hrun;
    [|vm_compute in Hrun; discriminate..].
  exists res, w'. split; [reflexivity|].
  split; [vm_compute in Hrun; by injection Hrun as <- _|].
  split; [vm_compute in Hrun; by injection Hrun as _ <-|].
  exact (proj1 filesCopied_counts_direct_children (test_drive nested_tree [])
           8%nat (js "F") (js "target") None None (fun _ => []) world0 res w'
           (fun x w0 => call_opt_none_out x w0) Hrun).
Defined.

(** ** C3 *)

(** C3: for every integer input the concurrency that [batchCopy] uses is
    the input clamped into 1..10; 0 gives 1 and 999 gives 10; the number
    of workers started is the minimum of that and of the number of items;
    and [POST] answers as it does for the clamped value: no input is
    rejected for being out of range. *)
Theorem concurrency_is_clamped (concurrency : Z) :
  safeConcurrency (JsInt concurrency)
  = JsInt (if concurrency <? 1 then 1
           else if 10 <? concurrency then 10 else concurrency)
  /\ (exists safe, safeConcurrency (JsInt concurrency) = JsInt safe
                   /\ 1 <= safe <= 10)
  /\ safeConcurrency (JsInt 0) = JsInt 1
  /\ safeConcurrency (JsInt 999) = JsInt 10
  /\ (forall pct drive fuel urls target,
        workers (batchCopy_start pct drive fuel urls target
                   (JsInt concurrency))
        = replicate (Nat.min (Z.to_nat (Z.max 1 (Z.min concurrency 10)))
                             (length urls))
                    AtLoopHead)
  /\ (forall env urls tf tn sys,
        fst (POST env (mkRequest urls tf tn (Some (JsInt concurrency))) sys)
        = fst (POST env (mkRequest urls tf tn
                           (Some (safeConcurrency (JsInt concurrency)))) sys)).
Proof.
  split; [|split; [|split; [reflexivity|split; [reflexivity|split]]]].
  - rewrite safeConcurrency_int. f_equal.
    destruct (Z.ltb_spec concurrency 1), (Z.ltb_spec 10 concurrency); lia.
  - eexists. split; [apply safeConcurrency_int|lia].
  - intros. unfold batchCopy_start. cbn [workers]. f_equal.
    rewrite safeConcurrency_int, make_items_length. cbn [Math_min ToLength].
    lia.
  - intros. unfold POST.
    cbn [req_urls req_concurrency req_targetFolderId req_targetFolderName
         default].
    destruct urls as [[|u urls]|]; try reflexivity.
    unfold createJob.
    destruct (fst (resolve_folder env tf tn world0)); try reflexivity.
    unfold getJob; cbn [jobs]. rewrite !lookup_insert_eq. reflexivity.
Qed.

(** ** C4 *)

(** C4: [parseGoogleDriveUrl] is total: it returns a reference or
    [None], the invalid result.  On the trimmed input it tries the file
    view link, the open link, the download link, the folder link and then
    the bare identifier of at least 25 identifier characters, and the
    first that matches gives the kind and the id; white space around the
    input does not change the result; the usual forms of the four links
    and the bare identifier give the expected reference. *)
Theorem parse_recognizes_in_priority_order :
  (forall url,
      parseGoogleDriveUrl url = parse_in_priority_order (trim url))
  /\ (forall ws1 s ws2,
        forallb is_trim_char ws1 = true -> forallb is_trim_char ws2 = true ->
        parseGoogleDriveUrl (ws1 ++ s ++ ws2) = parseGoogleDriveUrl s)
  /\ (forall t,
        regex_test URL_PATTERNS.DRIVE_ID_ONLY t = true
        <-> (25 <= length t)%nat /\ forallb is_id_char t = true)
  /\ (forall ident,
        forallb is_id_char ident = true -> ident <> [] ->
        parseGoogleDriveUrl
          (js "https://drive.google.com/file/d/" ++ ident ++ js "/view")
        = Some (mkParsed ident file)
        /\ parseGoogleDriveUrl
             (js "https://drive.google.com/open?id=" ++ ident)
           = Some (mkParsed ident file)
        /\ parseGoogleDriveUrl (js "https://drive.google.com/uc?id=" ++ ident)
           = Some (mkParsed ident file)
        /\ parseGoogleDriveUrl
             (js "https://drive.google.com/drive/folders/" ++ ident)
           = Some (mkParsed ident folder)
        /\ ((25 <= length ident)%nat ->
            parseGoogleDriveUrl ident = Some (mkParsed ident file)))
  /\ parseGoogleDriveUrl (js "not-a-url") = None.
Proof.
  split; [exact parse_cascade|]. split.
  { intros ws1 s ws2 H1 H2. by rewrite !parse_cascade, trim_surrounded. }
  split; [exact id_only_spec|]. split; [|vm_compute; reflexivity].
  intros ident Hc Hn.
  split; [by apply parse_file_link|]. split; [by apply parse_open_link|].
  split; [by apply parse_uc_link|]. split; [by apply parse_folder_link|].
  by apply parse_bare_id.
Qed.

Lemma parse_recognizes_in_priority_order_witness :
  parseGoogleDriveUrl
    (js "   " ++ js "https://drive.google.com/uc?export=download&id=1AbC_d-9"
       ++ js "  ")
  = parseGoogleDriveUrl
      (js "https://drive.google.com/uc?export=download&id=1AbC_d-9")
  /\ parseGoogleDriveUrl
       (js "https://drive.google.com/uc?export=download&id=1AbC_d-9")
     = Some (mkParsed (js "1AbC_d-9") file)
  /\ parseGoogleDriveUrl
       (js "https://drive.google.com/drive/folders/" ++ js "1AbC_d-9")
     = Some (mkParsed (js "1AbC_d-9") folder).
Proof.
  split; [|split].
  - apply (proj1 (proj2 parse_recognizes_in_priority_order));
      vm_compute; reflexivity.
  - vm_compute. reflexivity.
  - apply (proj1 (proj2 (proj2 (proj2 parse_recognizes_in_priority_order)))
             (js "1AbC_d-9")); [vm_compute; reflexivity|discriminate].
Defined.

(** The order decides when several patterns match: the file pattern wins
    over the folder pattern even when the folder link comes first in the
    text. *)
Example file_pattern_has_priority :
  parseGoogleDriveUrl
    (js "https://drive.google.com/drive/folders/FFF https://drive.google.com/file/d/XXX/view")
  = Some (mkParsed (js "XXX") file).
Proof. vm_compute. reflexivity. Qed.

(** ** The identifiers that the parser returns *)

Lemma take_run_length cs : forall s n,
  (n <= run_length cs s)%nat -> forallb (in_charset cs) (take n s) = true.
Proof.
  induction s as [|c s IH]; intros [|n] Hn; cbn in *; try done.
  destruct (in_charset cs c); [|lia]. cbn. apply IH. lia.
Qed.

Lemma occurs_in_cons c s t : occurs_in s t -> occurs_in s (c :: t).
Proof. intros (b & a & ->). by exists (c :: b), a. Qed.

Lemma occurs_in_drop s t n : occurs_in s (drop n t) -> occurs_in s t.
Proof.
  intros (b & a & H). exists (take n t ++ b), a.
  by rewrite <- app_assoc, <- H, take_drop.
Qed.

Lemma match_here_group r : forall bos s m,
  captures_id_chars r = true ->
  match_here r bos s = Some (Some m) ->
  forallb is_id_char m = true /\ occurs_in m s.
Proof.
  induction r as [|a r IH]; intros bos s m Hr H; [discriminate|].
  cbn [captures_id_chars forallb] in Hr. apply andb_prop in Hr as [Ha Hr].
  destruct a as [c|cs lo|cs lo| |]; cbn [match_here] in H.
  - destruct s as [|x s]; [discriminate|].
    destruct (x =? c)%N; [|discriminate].
    destruct (IH _ _ _ Hr H) as [? ?]. split; [done|].
    by apply occurs_in_cons.
  - apply try_down_Some in H as (n & _ & H).
    destruct (IH _ _ _ Hr H) as [? ?]. split; [done|].
    by eapply occurs_in_drop.
  - destruct cs; [discriminate|].
    apply try_down_Some in H as (n & [_ Hn] & H).
    destruct (match_here r _ (drop n s)); [|discriminate].
    inversion H; subst. split.
    + by apply (take_run_length CsIdChar).
    + exists [], (drop n s). cbn. by rewrite take_drop.
  - destruct bos; [|discriminate]. eauto.
  - destruct s; [|discriminate]. eauto.
Qed.

Lemma search_from_group r : forall s bos m,
  captures_id_chars r = true ->
  search_from r bos s = Some (Some m) ->
  forallb is_id_char m = true /\ occurs_in m s.
Proof.
  induction s as [|c s IH]; intros bos m Hr H; cbn [search_from] in H.
  - destruct (match_here r bos []) as [o|] eqn:E; [|discriminate].
    inversion H; subst. by eapply match_here_group.
  - destruct (match_here r bos (c :: s)) as [o|] eqn:E.
    + inversion H; subst. by eapply match_here_group.
    + destruct (IH _ _ Hr H) as [? ?]. split; [done|].
      by apply occurs_in_cons.
Qed.

Lemma patterns_capture_id_chars r t :
  In (r, t) patterns -> captures_id_chars r = true.
Proof.
  intros [H|[H|[H|[H|[]]]]]; inversion H; subst; vm_compute; reflexivity.
Qed.

Lemma try_patterns_group ps s p :
  (forall r t, In (r, t) ps -> captures_id_chars r = true) ->
  try_patterns ps s = Some p ->
  parsed_id p <> []
  /\ forallb is_id_char (parsed_id p) = true
  /\ occurs_in (parsed_id p) s.
Proof.
  induction ps as [|[r t] ps IH]; intros Hps H; cbn [try_patterns] in H;
    [discriminate|].
  destruct (match_group1 r s) as [m|] eqn:E.
  - inversion H; subst. cbn [parsed_id]. unfold match_group1, regex_exec in E.
    destruct (search_from r true s) as [[[|c m']|]|] eqn:Es; try discriminate.
    inversion E; subst. split; [done|].
    eapply search_from_group; [|exact Es]. eapply Hps. by left.
  - apply IH; [|done]. intros r' t' Hin. eapply Hps. by right.
Qed.

Lemma trim_start_suffix s : exists ws, s = ws ++ trim_start s.
Proof.
  induction s as [|c s [ws IH]]; [by exists []|]. cbn [trim_start].
  destruct (is_trim_char c).
  - exists (c :: ws). cbn. by f_equal.
  - by exists [].
Qed.

Lemma trim_occurs s : occurs_in (trim s) s.
Proof.
  unfold trim, trim_end.
  destruct (trim_start_suffix s) as [ws1 H1].
  destruct (trim_start_suffix (rev (trim_start s))) as [ws2 H2].
  exists ws1, (rev ws2). rewrite H1 at 1. f_equal.
  rewrite <- rev_app_distr, <- H2. by rewrite rev_involutive.
Qed.

Lemma occurs_in_trans a b c : occurs_in a b -> occurs_in b c -> occurs_in a c.
Proof.
  intros (b1 & a1 & ->) (b2 & a2 & ->).
  exists (b2 ++ b1), (a1 ++ a2). by rewrite <- !app_assoc.
Qed.

(** X1: whatever the input, an identifier that [parseGoogleDriveUrl]
    returns is not empty, is made of the characters [[a-zA-Z0-9_-]] only,
    and occurs in the input as a contiguous piece. *)
Theorem parsed_id_is_wellformed url p :
  parseGoogleDriveUrl url = Some p ->
  parsed_id p <> []
  /\ forallb is_id_char (parsed_id p) = true
  /\ occurs_in (parsed_id p) url.
Proof.
  unfold parseGoogleDriveUrl. destruct url as [|c0 url0]; [discriminate|].
  set (url := c0 :: url0). cbv zeta.
  destruct (try_patterns patterns (trim url)) as [q|] eqn:E.
  - intros [= <-].
    destruct (try_patterns_group _ _ _ patterns_capture_id_chars E)
      as (? & ? & ?).
    repeat split; try done. eapply occurs_in_trans; [done|apply trim_occurs].
  - destruct (regex_test URL_PATTERNS.DRIVE_ID_ONLY (trim url)) eqn:Et;
      [|discriminate].
    intros [= <-]. cbn [parsed_id].
    apply id_only_spec in Et as [Hlen Hid].
    repeat split; [|done|apply trim_occurs].
    intros Hnil. rewrite Hnil in Hlen. cbn in Hlen. lia.
Qed.

Lemma parsed_id_is_wellformed_witness :
  parsed_id (mkParsed (js "1AbC-dEf_9") file) <> []
  /\ forallb is_id_char (parsed_id (mkParsed (js "1AbC-dEf_9") file)) = true
  /\ occurs_in (parsed_id (mkParsed (js "1AbC-dEf_9") file))
       (js "  https://drive.google.com/file/d/1AbC-dEf_9/view?usp=sharing ").
Proof.
  apply (parsed_id_is_wellformed
           (js "  https://drive.google.com/file/d/1AbC-dEf_9/view?usp=sharing ")).
  vm_compute. reflexivity.
Defined.

(** ** Validation helpers of the parser module *)

(** X2: the link that the application builds for a folder id is read back
    by the parser as that folder. *)
Theorem folder_link_round_trip (folderId : jsstring) :
  folderId <> [] -> forallb is_id_char folderId = true ->
  parseGoogleDriveUrl (API_ENDPOINTS.GOOGLE_DRIVE_FOLDER folderId)
  = Some (mkParsed folderId folder)
  /\ isValidDriveUrl (API_ENDPOINTS.GOOGLE_DRIVE_FOLDER folderId) = true.
Proof.
  intros Hne Hid. unfold isValidDriveUrl, API_ENDPOINTS.GOOGLE_DRIVE_FOLDER.
  by rewrite parse_folder_link.
Qed.

Lemma folder_link_round_trip_witness :
  parseGoogleDriveUrl (API_ENDPOINTS.GOOGLE_DRIVE_FOLDER (js "1a2B_c-D"))
  = Some (mkParsed (js "1a2B_c-D") folder)
  /\ isValidDriveUrl (API_ENDPOINTS.GOOGLE_DRIVE_FOLDER (js "1a2B_c-D")) = true.
Proof.
  apply (folder_link_round_trip (js "1a2B_c-D")).
  - vm_compute. discriminate.
  - vm_compute. reflexivity.
Defined.

Lemma split_not_nil sep s : split sep s <> [].
Proof.
  destruct s as [|c s]; cbn; [done|].
  destruct (c =? sep)%N; [done|]. by destruct (split sep s).
Qed.

Lemma split_no_sep sep : forall s,
  Forall (fun piece => ~ In sep piece) (split sep s).
Proof.
  induction s as [|c s IH]; cbn [split].
  - constructor; [by intros []|constructor].
  - destruct (c =? sep)%N eqn:E.
    + constructor; [by intros []|done].
    + apply N.eqb_neq in E. destruct (split sep s) as [|piece pieces].
      * constructor; [|constructor]. intros [->|[]]. done.
      * inversion IH; subst. constructor; [|done].
        intros [->|H]; [done|auto].
Qed.

Lemma split_single sep : forall s, ~ In sep s -> split sep s = [s].
Proof.
  induction s as [|c s IH]; intros H; cbn [split]; [done|].
  destruct (c =? sep)%N eqn:E.
  - apply N.eqb_eq in E. subst. exfalso. apply H. by left.
  - rewrite IH; [done|]. intros Hin. apply H. by right.
Qed.

Lemma trim_start_snoc a c :
  is_trim_char c = false -> trim_start (a ++ [c]) = trim_start a ++ [c].
Proof.
  intros Hc. induction a as [|x a IH]; cbn; [by rewrite Hc|].
  by destruct (is_trim_char x).
Qed.

Lemma trim_idempotent s : trim (trim s) = trim s.
Proof.
  unfold trim at 2 3. unfold trim_end.
  destruct (trim_start_cases s) as [[_ ->]|(c & t & -> & Hc)]; [done|].
  cbn [rev]. rewrite trim_start_snoc by done.
  rewrite rev_app_distr. cbn [rev app].
  apply trim_fixed.
  - by apply trim_start_fixed.
  - cbn [rev]. rewrite rev_involutive.
    destruct (trim_start_cases (rev t)) as [[_ ->]|(c' & t' & -> & Hc')].
    + cbn. by rewrite Hc.
    + cbn [app]. by apply trim_start_fixed.
Qed.

Lemma trim_no_sep sep s : ~ In sep s -> ~ In sep (trim s).
Proof.
  intros H Hin. apply H.
  destruct (trim_occurs s) as (b & a & Hs). rewrite Hs.
  apply in_or_app. right. apply in_or_app. by left.
Qed.

(** X3: every line that [extractValidUrls] returns is a non-empty, valid
    reference without surrounding white space and without a line break;
    it is the trimmed form of a line of the text, and extracting from it
    again gives it back. *)
Theorem extracted_urls_are_clean text u :
  In u (extractValidUrls text) ->
  u <> []
  /\ isValidDriveUrl u = true
  /\ trim u = u
  /\ ~ In LF u
  /\ (exists line, In line (split LF text) /\ u = trim line)
  /\ extractValidUrls u = [u].
Proof.
  unfold extractValidUrls at 1. intros H.
  apply filter_In in H as [Hin Hok]. apply andb_prop in Hok as [Hlen Hvalid].
  apply in_map_iff in Hin as (line & <- & Hline).
  assert (Hnosep : ~ In LF (trim line)).
  { apply trim_no_sep.
    pose proof (split_no_sep LF text) as Hall.
    rewrite Forall_forall in Hall. apply Hall. by apply list_elem_of_In. }
  assert (Hne : trim line <> []).
  { intros Hnil. rewrite Hnil in Hlen. discriminate. }
  repeat split; try done.
  - apply trim_idempotent.
  - by exists line.
  - unfold extractValidUrls. rewrite split_single by done.
    cbn [map List.filter]. rewrite trim_idempotent, Hlen, Hvalid. done.
Qed.

Lemma extracted_urls_are_clean_witness :
  extractValidUrls
    (js "  https://drive.google.com/file/d/abc/view  " ++ [LF]
       ++ js "not a link" ++ [13%N; LF] ++ [LF]
       ++ js "https://drive.google.com/drive/folders/F_1" ++ [13%N])
  = [ js "https://drive.google.com/file/d/abc/view";
      js "https://drive.google.com/drive/folders/F_1" ]
  /\ extractValidUrls (js "https://drive.google.com/drive/folders/F_1")
     = [js "https://drive.google.com/drive/folders/F_1"].
Proof.
  split; [vm_compute; reflexivity|].
  apply (extracted_urls_are_clean
           (js "  https://drive.google.com/file/d/abc/view  " ++ [LF]
              ++ js "not a link" ++ [13%N; LF] ++ [LF]
              ++ js "https://drive.google.com/drive/folders/F_1" ++ [13%N])
           (js "https://drive.google.com/drive/folders/F_1")).
  vm_compute. right. left. reflexivity.
Defined.

Lemma validateUrls_fold urls : forall acc,
  fold_left
    (fun acc url =>
       match parseGoogleDriveUrl url with
       | Some parsed => mkValidated (valid acc ++ [parsed]) (invalid acc)
       | None => mkValidated (valid acc) (invalid acc ++ [url])
       end)
    urls acc
  = mkValidated
      (valid acc ++ omap parseGoogleDriveUrl urls)
      (invalid acc
         ++ List.filter (fun url => negb (isValidDriveUrl url)) urls).
Proof.
  induction urls as [|url urls IH]; intros [v i]; cbn [fold_left].
  - cbn. by rewrite !app_nil_r.
  - change (omap parseGoogleDriveUrl (url :: urls))
      with (match parseGoogleDriveUrl url with
            | Some y => y :: omap parseGoogleDriveUrl urls
            | None => omap parseGoogleDriveUrl urls
            end).
    cbn [List.filter]. unfold isValidDriveUrl at 1.
    destruct (parseGoogleDriveUrl url) eqn:E; rewrite IH;
      cbn [valid invalid negb]; by rewrite <- ?app_assoc.
Qed.

Lemma CopyService_validateUrls_fold urls : forall v i,
  fold_left
    (fun '(valid, invalid) url =>
       match parseGoogleDriveUrl url with
       | Some _ => (valid ++ [url], invalid)
       | None => (valid, invalid ++ [url])
       end)
    urls (v, i)
  = (v ++ List.filter isValidDriveUrl urls,
     i ++ List.filter (fun url => negb (isValidDriveUrl url)) urls).
Proof.
  induction urls as [|url urls IH]; intros v i; cbn [fold_left].
  - cbn. by rewrite !app_nil_r.
  - cbn [List.filter].
    assert (Hv : isValidDriveUrl url
                 = match parseGoogleDriveUrl url with
                   | Some _ => true
                   | None => false
                   end) by reflexivity.
    rewrite Hv. clear Hv.
    destruct (parseGoogleDriveUrl url) eqn:E; rewrite IH; cbn [negb];
      by rewrite <- ?app_assoc.
Qed.

Lemma filter_partition_length {A} (f : A -> bool) l :
  (length (List.filter f l) + length (List.filter (fun x => negb (f x)) l)
   = length l)%nat.
Proof.
  induction l as [|x l IH]; cbn; [done|]. destruct (f x); cbn; lia.
Qed.

Lemma omap_parse_length urls :
  length (omap parseGoogleDriveUrl urls)
  = length (List.filter isValidDriveUrl urls).
Proof.
  induction urls as [|url urls IH]; [done|].
  change (omap parseGoogleDriveUrl (url :: urls))
    with (match parseGoogleDriveUrl url with
          | Some y => y :: omap parseGoogleDriveUrl urls
          | None => omap parseGoogleDriveUrl urls
          end).
  cbn [List.filter]. unfold isValidDriveUrl at 1.
  destruct (parseGoogleDriveUrl url); cbn [length]; by rewrite IH.
Qed.

(** X4: both [validateUrls] split the urls, in their order, into those
    that parse and those that do not: every url is on exactly one side,
    the two functions agree on the invalid urls, and the parser module
    returns the parsed references of the urls that the copy service
    returns as valid. *)
Theorem validateUrls_partitions urls :
  CopyService.validateUrls urls
  = (List.filter isValidDriveUrl urls,
     List.filter (fun url => negb (isValidDriveUrl url)) urls)
  /\ invalid (validateUrls urls) = snd (CopyService.validateUrls urls)
  /\ valid (validateUrls urls)
     = omap parseGoogleDriveUrl (fst (CopyService.validateUrls urls))
  /\ (length (valid (validateUrls urls))
      + length (invalid (validateUrls urls)) = length urls)%nat.
Proof.
  assert (H1 : CopyService.validateUrls urls
               = (List.filter isValidDriveUrl urls,
                  List.filter (fun url => negb (isValidDriveUrl url)) urls))
    by apply (CopyService_validateUrls_fold urls [] []).
  assert (H2 : validateUrls urls
               = mkValidated (omap parseGoogleDriveUrl urls)
                   (List.filter (fun url => negb (isValidDriveUrl url)) urls))
    by apply (validateUrls_fold urls (mkValidated [] [])).
  rewrite H1, H2. cbn [fst snd valid invalid].
  split; [done|]. split; [done|]. split.
  - clear H1 H2. induction urls as [|url urls IH]; cbn; [done|]. unfold isValidDriveUrl.
    destruct (parseGoogleDriveUrl url) eqn:E; [|apply IH].
    change (omap parseGoogleDriveUrl (url :: ?l))
      with (match parseGoogleDriveUrl url with
            | Some y => y :: omap parseGoogleDriveUrl l
            | None => omap parseGoogleDriveUrl l
            end).
    rewrite E. f_equal. apply IH.
  - rewrite omap_parse_length. apply filter_partition_length.
Qed.

(** X5: a url that does not parse never reaches the Drive: the loop body
    of [batchCopy] makes no request for it, stores the failure
    'Invalid Google Drive URL' at its index and reports one Error event,
    without a Processing event before it. *)
Theorem invalid_url_never_reaches_drive pct D fuel target urls i url :
  urls !! i = Some url ->
  isValidDriveUrl url = false ->
  exists item,
    make_items urls !! i = Some item
    /\ process_item pct D fuel target item world0
       = (Val tt,
          mkWorld 0 []
            [ AStore i (mkResult url false None None
                          (Some (js "Invalid Google Drive URL")));
              AEmit (mkEvent i st_error 0
                       (js "Error: " ++ js "Invalid Google Drive URL")) ]).
Proof.
  intros Hurl Hinv. eexists. split.
  - unfold make_items. rewrite list_lookup_imap, Hurl. reflexivity.
  - rewrite process_item_invalid.
    + reflexivity.
    + cbn [it_parsed]. unfold isValidDriveUrl in Hinv.
      by destruct (parseGoogleDriveUrl url).
Qed.

Lemma invalid_url_never_reaches_drive_witness :
  exists item,
    make_items [js "https://drive.google.com/file/d/abc/view";
                js "https://example.com/x"] !! 1%nat = Some item
    /\ process_item exact_percent full_drive 8 (js "target") item world0
       = (Val tt,
          mkWorld 0 []
            [ AStore 1 (mkResult (js "https://example.com/x") false None None
                          (Some (js "Invalid Google Drive URL")));
              AEmit (mkEvent 1 st_error 0
                       (js "Error: " ++ js "Invalid Google Drive URL")) ]).
Proof.
  apply (invalid_url_never_reaches_drive exact_percent full_drive 8
           (js "target")
           [js "https://drive.google.com/file/d/abc/view";
            js "https://example.com/x"] 1 (js "https://example.com/x")).
  - reflexivity.
  - vm_compute. reflexivity.
Defined.

(** ** Formatting helpers *)

Lemma slice_0_nonneg text e :
  0 <= e -> slice_0 text e = take (Z.to_nat e) text.
Proof.
  intros He. unfold slice_0.
  destruct (e <? 0) eqn:E; [apply Z.ltb_lt in E; lia|].
  destruct (Z.le_ge_cases e (Z.of_nat (length text))) as [H|H].
  - by rewrite Z.min_l.
  - rewrite Z.min_r by lia. rewrite Nat2Z.id.
    rewrite !take_ge; [done|lia|lia].
Qed.

(** X6: for a maximal length that is not negative, [truncateText] returns
    the text itself when it is short enough and else its first
    [maxLength] code units followed by three dots, so a result of
    [maxLength + 3] units, which can be longer than the text; truncating
    the result again changes nothing.  A negative [maxLength] never
    returns the text: it drops that many units from the end and appends
    the dots. *)
Theorem truncateText_length_and_idempotence text maxLength :
  (0 <= maxLength ->
   truncateText text maxLength
   = (if Z.of_nat (length text) <=? maxLength then text
      else take (Z.to_nat maxLength) text ++ js "...")
   /\ Z.of_nat (length (truncateText text maxLength))
      = (if Z.of_nat (length text) <=? maxLength
         then Z.of_nat (length text) else maxLength + 3)
   /\ truncateText (truncateText text maxLength) maxLength
      = truncateText text maxLength)
  /\ (maxLength < 0 ->
      truncateText text maxLength
      = take (length text - Z.to_nat (- maxLength)) text ++ js "...").
Proof.
  split.
  - intros Hmax. unfold truncateText.
    destruct (Z.of_nat (length text) <=? maxLength) eqn:E.
    + split; [done|]. split; [done|]. by rewrite E.
    + apply Z.leb_gt in E. rewrite slice_0_nonneg by done.
      split; [done|].
      assert (Hlen : length (take (Z.to_nat maxLength) text ++ js "...")
                     = (Z.to_nat maxLength + 3)%nat).
      { rewrite length_app, length_take. cbn [length js]. 
        change (length (js "...")) with 3%nat. lia. }
      split; [rewrite Hlen; lia|].
      rewrite Hlen.
      destruct (Z.of_nat (Z.to_nat maxLength + 3) <=? maxLength) eqn:E2;
        [apply Z.leb_le in E2; lia|].
      rewrite slice_0_nonneg by done.
      rewrite take_app_le by (rewrite length_take; lia).
      rewrite take_take. by rewrite Nat.min_id.
  - intros Hmax. unfold truncateText.
    destruct (Z.of_nat (length text) <=? maxLength) eqn:E;
      [apply Z.leb_le in E; lia|].
    unfold slice_0. destruct (maxLength <? 0) eqn:E2;
      [|apply Z.ltb_ge in E2; lia].
    do 2 f_equal. lia.
Qed.

Lemma truncateText_length_and_idempotence_witness :
  truncateText (js "abcd") 3 = js "abc..."
  /\ truncateText (truncateText (js "abcd") 3) 3 = truncateText (js "abcd") 3
  /\ truncateText (js "hello") (-2) = js "hel...".
Proof.
  destruct (truncateText_length_and_idempotence (js "abcd") 3) as [H _].
  destruct (H ltac:(lia)) as (H1 & _ & H3).
  destruct (truncateText_length_and_idempotence (js "hello") (-2)) as [_ H'].
  split; [exact H1|]. split; [exact H3|]. exact (H' ltac:(lia)).
Defined.

(** X7: for a duration of a whole number of milliseconds that is not
    negative, [formatDuration] splits the whole seconds into hours,
    minutes below 60 and seconds below 60, and prints the two leading
    units that are not zero: hours and minutes (the seconds are dropped),
    or minutes and seconds, or the seconds alone.  A negative duration is
    printed as its floored, negative number of seconds, never in minutes
    or hours. *)
Theorem formatDuration_units ms :
  is_safe_integer ms ->
  (0 <= ms ->
   exists h m s,
     ms / 1000 = 3600 * h + 60 * m + s
     /\ 0 <= h /\ 0 <= m < 60 /\ 0 <= s < 60
     /\ formatDuration ms
        = if 0 <? h then js_of_Z h ++ js "h " ++ js_of_Z m ++ js "m"
          else if 0 <? m then js_of_Z m ++ js "m " ++ js_of_Z s ++ js "s"
          else js_of_Z s ++ js "s")
  /\ (ms < 0 ->
      ms / 1000 < 0
      /\ formatDuration ms = js_of_Z (ms / 1000) ++ js "s").
Proof.
  intros _. unfold formatDuration. cbv zeta. set (sec := ms / 1000). split.
  - intros Hms. assert (0 <= sec) by (apply Z.div_pos; lia).
    exists (sec / 60 / 60), ((sec / 60) mod 60), (sec mod 60).
    assert (0 <= sec / 60) by (apply Z.div_pos; lia).
    assert (0 <= sec / 60 / 60) by (apply Z.div_pos; lia).
    pose proof (Z.mod_pos_bound sec 60 ltac:(lia)).
    pose proof (Z.mod_pos_bound (sec / 60) 60 ltac:(lia)).
    pose proof (Z.div_mod sec 60 ltac:(lia)).
    pose proof (Z.div_mod (sec / 60) 60 ltac:(lia)).
    split; [lia|]. split; [done|]. split; [done|]. split; [done|].
    rewrite !Z.rem_mod_nonneg by lia.
    destruct (0 <? sec / 60 / 60) eqn:Eh; [done|].
    apply Z.ltb_ge in Eh.
    assert (sec / 60 / 60 = 0) as Hh by lia.
    assert ((sec / 60) mod 60 = sec / 60) as -> by lia.
    destruct (0 <? sec / 60) eqn:Em; [done|].
    apply Z.ltb_ge in Em.
    assert (sec mod 60 = sec) as -> by lia. done.
  - intros Hms.
    assert (sec < 0) by (apply Z.div_lt_upper_bound; lia).
    assert (sec / 60 < 0) by (apply Z.div_lt_upper_bound; lia).
    assert (sec / 60 / 60 < 0) by (apply Z.div_lt_upper_bound; lia).
    split; [done|].
    destruct (0 <? sec / 60 / 60) eqn:Eh; [apply Z.ltb_lt in Eh; lia|].
    destruct (0 <? sec / 60) eqn:Em; [apply Z.ltb_lt in Em; lia|]. done.
Qed.

Lemma formatDuration_units_witness :
  (exists h m s,
     7384000 / 1000 = 3600 * h + 60 * m + s
     /\ 0 <= h /\ 0 <= m < 60 /\ 0 <= s < 60
     /\ formatDuration 7384000
        = if 0 <? h then js_of_Z h ++ js "h " ++ js_of_Z m ++ js "m"
          else if 0 <? m then js_of_Z m ++ js "m " ++ js_of_Z s ++ js "s"
          else js_of_Z s ++ js "s")
  /\ formatDuration 7384000 = js "2h 3m"
  /\ formatDuration (-1) = js_of_Z (-1 / 1000) ++ js "s"
  /\ formatDuration (-1) = js "-1s".
Proof.
  assert (H1 : is_safe_integer 7384000)
    by (unfold is_safe_integer, MAX_SAFE_INTEGER; lia).
  assert (H2 : is_safe_integer (-1))
    by (unfold is_safe_integer, MAX_SAFE_INTEGER; lia).
  split; [apply (proj1 (formatDuration_units 7384000 H1)); lia|].
  split; [vm_compute; reflexivity|].
  split; [apply (proj2 (formatDuration_units (-1) H2)); lia|].
  vm_compute. reflexivity.
Defined.

(** ** Failures of [GoogleDriveService] *)

Lemma try_catch_fixed {A} (body : M A) e0 w e w' :
  try_catch body (fun _ => throw e0) w = (Thrown e, w') -> e = e0.
Proof.
  unfold try_catch, throw. destruct (body w) as [[a|e1|] w1]; intros H;
    inversion H; done.
Qed.

Lemma initialize_fails D w m :
  drive_initialize D (tick w) = Some m ->
  initialize D w = (Thrown (AppError m), w).
Proof. intros H. unfold initialize. by rewrite H. Qed.

Lemma initialize_ok D w :
  drive_initialize D (tick w) = None -> initialize D w = (Val tt, w).
Proof. intros H. unfold initialize. by rewrite H. Qed.

(** X8: whatever goes wrong, [getFileMetadata], [copyFile],
    [listFilesInFolder] and [copyFolder] throw an [AppError] with the
    fixed message of the method, so the cause is not visible to the
    caller; only [createFolder] lets the message of an [AppError] through.
    When the credentials are missing, [createFolder] reports the message
    of [initialize] and [copyFile] reports 'Failed to copy file'; neither
    makes a request. *)
Theorem service_failures_have_fixed_messages :
  (forall D fileId w e w',
      getFileMetadata D fileId w = (Thrown e, w') ->
      e = AppError (js "Failed to get file metadata"))
  /\ (forall D src tgt newName cb w e w',
        copyFile D src tgt newName cb w = (Thrown e, w') ->
        e = AppError (js "Failed to copy file"))
  /\ (forall D folderId w e w',
        listFilesInFolder D folderId w = (Thrown e, w') ->
        e = AppError (js "Failed to list files in folder"))
  /\ (forall D fuel src tgt newName cb w e w',
        copyFolder D fuel src tgt newName cb w = (Thrown e, w') ->
        e = AppError (js "Failed to copy folder"))
  /\ (forall D name parentId w e w',
        createFolder D name parentId w = (Thrown e, w') ->
        exists m, e = AppError m)
  /\ (forall D w m,
        drive_initialize D (tick w) = Some m ->
        (forall name parentId,
            createFolder D name parentId w = (Thrown (AppError m), w))
        /\ (forall src tgt newName cb,
              copyFile D src tgt newName cb w
              = (Thrown (AppError (js "Failed to copy file")), w))).
Proof.
  split; [intros D fileId w e w'; apply try_catch_fixed|].
  split; [intros D src tgt newName cb w e w'; apply try_catch_fixed|].
  split; [intros D folderId w e w'; apply try_catch_fixed|].
  split.
  { intros D [|fuel] src tgt newName cb w e w'; [discriminate|].
    apply try_catch_fixed. }
  split.
  { intros D name parentId w e w' H.
    by destruct (createFolder_actions D name parentId w _ w' H)
      as (_ & _ & He); apply He. }
  intros D w m Hm. split.
  - intros name parentId. unfold createFolder, try_catch.
    rewrite bind_run, (initialize_fails D w m Hm). reflexivity.
  - intros src tgt newName cb. unfold copyFile, try_catch.
    rewrite bind_run, (initialize_fails D w m Hm). reflexivity.
Qed.

Lemma service_failures_have_fixed_messages_witness :
  createFolder locked_drive (js "Copied_2026-01-01") None world0
  = (Thrown (AppError (js "credentials.json not found. Please setup Google OAuth first.")),
     world0)
  /\ copyFile locked_drive (js "abc") (js "target") None None world0
     = (Thrown (AppError (js "Failed to copy file")), world0).
Proof.
  destruct service_failures_have_fixed_messages as (_ & _ & _ & _ & _ & H).
  destruct (H locked_drive world0
              (js "credentials.json not found. Please setup Google OAuth first.")
              eq_refl) as [H1 H2].
  split; [apply H1|apply H2].
Defined.

(** X9: neither [copyFile] nor [createFolder] undoes what it created.
    When the Drive makes the copy (or the folder) but refuses the
    permission, the call throws after three (two) requests, the new
    resource is on the Drive without the public permission, and no
    further request is made. *)
Theorem permission_failure_leaves_private_resource :
  (forall D src tgt newName w md resp e,
      drive_initialize D (tick w) = None ->
      files_get D (tick w) src = inr md ->
      let fileName := js_or newName (md_name md) in
      files_copy D (S (tick w)) src fileName tgt = inr resp ->
      permissions_create D (S (S (tick w))) (cr_id resp) (js "reader")
        (js "anyone") = inl e ->
      copyFile D src tgt newName None w
      = (Thrown (AppError (js "Failed to copy file")),
         mkWorld (S (S (S (tick w))))
           (calls w
              ++ [ mkApiEvent (FilesGet src) (Returned None);
                   mkApiEvent (FilesCopy src fileName tgt)
                              (Returned (Some (cr_id resp)));
                   mkApiEvent (PermissionsCreate (cr_id resp) (js "reader")
                                 (js "anyone")) Fault ])
           (actions w)))
  /\ (forall D name w c folderId e,
        drive_initialize D (tick w) = None ->
        files_create D (tick w) name MIME_TYPES.FOLDER None
        = inr (Some (c :: folderId)) ->
        permissions_create D (S (tick w)) (c :: folderId) (js "reader")
          (js "anyone") = inl e ->
        createFolder D name None w
        = (Thrown (AppError match e with
                            | AppError m => m
                            | _ => js "Failed to create folder"
                            end),
           mkWorld (S (S (tick w)))
             (calls w
                ++ [ mkApiEvent (FilesCreate name MIME_TYPES.FOLDER None)
                                (Returned (Some (c :: folderId)));
                     mkApiEvent (PermissionsCreate (c :: folderId)
                                   (js "reader") (js "anyone")) Fault ])
             (actions w))).
Proof.
  split.
  - intros D src tgt newName [t cs acts] md resp e Hinit Hget fileName
      Hcopy Hperm. cbn [tick calls actions] in *.
    unfold copyFile, try_catch. rewrite bind_run.
    rewrite initialize_ok by done. rewrite bind_run.
    unfold getFileMetadata at 1, try_catch. rewrite bind_run.
    rewrite initialize_ok by done. rewrite bind_run.
    unfold request at 1. cbn [tick calls actions]. rewrite Hget.
    cbn [mret M_ret md_name]. rewrite bind_run. cbn [call_opt mret M_ret].
    rewrite bind_run. unfold request at 1. cbn [tick calls actions].
    fold fileName. rewrite Hcopy.
    rewrite bind_run. cbn [call_opt mret M_ret].
    rewrite bind_run. unfold request at 1. cbn [tick calls actions].
    rewrite Hperm. unfold throw. by rewrite <- !app_assoc.
  - intros D name [t cs acts] c folderId e Hinit Hcreate Hperm.
    cbn [tick calls actions] in *.
    unfold createFolder, try_catch. rewrite bind_run.
    rewrite initialize_ok by done. cbv zeta. rewrite bind_run.
    unfold request at 1. cbn [tick calls actions]. rewrite Hcreate.
    rewrite bind_run. unfold request at 1. cbn [tick calls actions].
    rewrite Hperm. rewrite <- !app_assoc. by destruct e.
Qed.

Lemma permission_failure_leaves_private_resource_witness :
  copyFile private_drive (js "abc") (js "target") None None world0
  = (Thrown (AppError (js "Failed to copy file")),
     mkWorld 3
       [ mkApiEvent (FilesGet (js "abc")) (Returned None);
         mkApiEvent (FilesCopy (js "abc") (js "name-of-" ++ js "abc")
                       (js "target"))
                    (Returned (Some (js "copy-of-" ++ js "abc")));
         mkApiEvent (PermissionsCreate (js "copy-of-" ++ js "abc")
                       (js "reader") (js "anyone")) Fault ]
       []).
Proof.
  destruct permission_failure_leaves_private_resource as [H _].
  apply (H private_drive (js "abc") (js "target") None world0
           (mkMeta (js "abc") (js "name-of-" ++ js "abc") (js "text/plain")
                   (Some (js "42")) None)
           (mkCopyResponse (js "copy-of-" ++ js "abc")
                           (Some (js "name-of-" ++ js "abc"))
                           (Some (js "42")))
           (OtherError (js "sharing is disabled by the domain")));
    reflexivity.
Defined.

(** ** A folder copy that fails on the way *)

Lemma copy_children_cons D sub cb nf total f rest i fc w :
  copy_children D sub cb nf total (f :: rest) i fc w
  = match copy_child D sub cb nf total f i w with
    | (Val _, w1) => copy_children D sub cb nf total rest (S i) (S fc) w1
    | (Thrown e, w1) => (Thrown e, w1)
    | (Diverged, w1) => (Diverged, w1)
    end.
Proof.
  cbn [copy_children]. unfold copy_child. rewrite !bind_run.
  by destruct (call_opt cb ((i + 1)%nat, total, md_name f) w) as [[u|e|] w1].
Qed.

Lemma copy_children_app D sub cb nf total pre post : forall i fc w,
  copy_children D sub cb nf total (pre ++ post) i fc w
  = match copy_children D sub cb nf total pre i fc w with
    | (Val n, w1) =>
        copy_children D sub cb nf total post (i + length pre) n w1
    | (Thrown e, w1) => (Thrown e, w1)
    | (Diverged, w1) => (Diverged, w1)
    end.
Proof.
  induction pre as [|f pre IH]; intros i fc w.
  - cbn [app length copy_children]. by rewrite Nat.add_0_r.
  - change ((f :: pre) ++ post) with (f :: (pre ++ post)).
    rewrite !copy_children_cons.
    destruct (copy_child D sub cb nf total f i w) as [[u|e|] w1]; try done.
    rewrite IH. cbn [length]. by rewrite Nat.add_succ_r.
Qed.

(** X25: [copyFolder] stops at the first child whose copy fails.  When the
    children before it were copied and the copy of the child [f] throws,
    the loop throws at once, and [copyFolder] throws 'Failed to copy
    folder' in the state of the failure: the children after [f] get no
    request, and the new folder and the copies made so far stay on the
    Drive. *)
Theorem folder_copy_stops_at_first_failure D fuel src tgt newName cb
    pre f post w sourceFolder wa newFolderId wb wc n w1 e w2 :
  let sub := copy_subfolder D fuel in
  let total := length (pre ++ f :: post) in
  drive_initialize D (tick w) = None ->
  getFileMetadata D src w = (Val sourceFolder, wa) ->
  createFolder D (js_or newName (md_name sourceFolder)) (Some tgt) wa
  = (Val newFolderId, wb) ->
  listFilesInFolder D src wb = (Val (pre ++ f :: post), wc) ->
  copy_children D sub cb newFolderId total pre 0 0 wc = (Val n, w1) ->
  copy_child D sub cb newFolderId total f (length pre) w1 = (Thrown e, w2) ->
  copy_children D sub cb newFolderId total (pre ++ f :: post) 0 0 wc
  = (Thrown e, w2)
  /\ copyFolder D (S fuel) src tgt newName cb w
     = (Thrown (AppError (js "Failed to copy folder")), w2).
Proof.
  intros sub total Hinit Hmeta Hfolder Hlist Hpre Hf.
  assert (Hloop : copy_children D sub cb newFolderId total (pre ++ f :: post)
                    0 0 wc = (Thrown e, w2)).
  { rewrite copy_children_app, Hpre. cbn [Nat.add].
    by rewrite copy_children_cons, Hf. }
  split; [exact Hloop|].
  cbn [copyFolder]. unfold try_catch. rewrite bind_run.
  rewrite initialize_ok by done. rewrite bind_run, Hmeta.
  rewrite bind_run, Hfolder. rewrite bind_run, Hlist. rewrite bind_run.
  fold (copy_subfolder D fuel). fold sub. fold total. by rewrite Hloop.
Qed.

Lemma folder_copy_stops_at_first_failure_witness :
  exists w2,
    copyFolder (test_drive two_files [js "a"]) 8 (js "F") (js "target") None
      None world0
    = (Thrown (AppError (js "Failed to copy folder")), w2)
    /\ List.filter is_files_copy (calls w2)
       = [ mkApiEvent (FilesCopy (js "a") (js "name-of-" ++ js "a")
                         (js "new-" ++ js "name-of-" ++ js "F")) Fault ].
Proof.
  eexists. split.
  - edestruct (folder_copy_stops_at_first_failure
                 (test_drive two_files [js "a"]) 7 (js "F")
                 (js "target") None None []
                 (mkMeta (js "a") (js "a.txt") (js "text/plain") None None)
                 [mkMeta (js "b") (js "b.txt") (js "text/plain") None None]
                 world0) as [_ H].
    + reflexivity.
    + vm_compute. reflexivity.
    + vm_compute. reflexivity.
    + vm_compute. reflexivity.
    + vm_compute. reflexivity.
    + vm_compute. reflexivity.
    + exact H.
  - vm_compute. reflexivity.
Defined.

(** ** The target folder of a submission *)



(** ** The worker pool: termination, bounds, results *)

Lemma engine_step_config w E E' oe :
  engine_step w E = Some (E', oe) -> same_config E E'.
Proof.
  unfold engine_step, same_config.
  destruct (workers E !! w) as [[|i [|[e|j r] todo] [|]|]|]; try discriminate.
  - destruct (eng_items E !! currentIndex E) as [item|].
    + destruct (run_item E (currentIndex E) item). by intros [= <- <-].
    + by intros [= <- <-].
  - by intros [= <- <-].
  - by intros [= <- <-].
  - by intros [= <- <-].
  - by intros [= <- <-].
  - by intros [= <- <-].
Qed.

Lemma script_config E E' i : same_config E E' -> script E' i = script E i.
Proof.
  intros H. unfold script.
  destruct H as (Hp & Hd & Hf & Ht & Hi). rewrite Hi.
  destruct (eng_items E !! i) as [item|]; [|done].
  unfold run_item. by rewrite Hp, Hd, Hf, Ht.
Qed.

Lemma sum_list_insert (f : Worker -> nat) ws w x y :
  ws !! w = Some x ->
  (sum_list (map f (<[w := y]> ws)) + f x = sum_list (map f ws) + f y)%nat.
Proof.
  revert w. induction ws as [|a ws IH]; intros [|w] H; try done.
  - injection H as ->. change (<[0%nat:=y]> (x :: ws)) with (y :: ws).
    cbn [map sum_list_with id]. lia.
  - change (<[S w:=y]> (a :: ws)) with (a :: <[w:=y]> ws).
    change ((a :: ws) !! S w) with (ws !! w) in H.
    cbn [map sum_list_with id]. specialize (IH w H). lia.
Qed.

Lemma engine_step_counts w E E' oe :
  engine_step w E = Some (E', oe) -> S (steps_left E') = steps_left E.
Proof.
  intros Hstep. pose proof (engine_step_config _ _ _ _ Hstep) as Hcfg.
  assert (Hitems : forall i, item_steps E' i = item_steps E i)
    by (intros i; unfold item_steps; by rewrite (script_config E E')).
  assert (Hlen : length (eng_items E') = length (eng_items E))
    by (destruct Hcfg as (_ & _ & _ & _ & ->); done).
  unfold steps_left. rewrite Hlen.
  rewrite (map_ext _ _ Hitems). clear Hitems Hlen Hcfg.
  unfold engine_step in Hstep.
  destruct (workers E !! w) as [[|i [|[e|j r] todo] h|]|] eqn:Hw;
    try discriminate.
  - destruct (eng_items E !! currentIndex E) as [item|] eqn:Hitem.
    + destruct (run_item E (currentIndex E) item) as [r world] eqn:Er.
      inversion Hstep; subst; clear Hstep.
      cbn [currentIndex workers eng_items].
      pose proof (sum_list_insert worker_steps _ _ _
                    (Busy (currentIndex E) (actions world) (is_val r)) Hw) as Hs.
      cbn [worker_steps] in Hs.
      apply lookup_lt_Some in Hitem as Hlt.
      replace (length (eng_items E) - currentIndex E)%nat
        with (S (length (eng_items E) - S (currentIndex E))) by lia.
      cbn [seq map sum_list_with id].
      assert (item_steps E (currentIndex E)
              = (length (actions world) + 2)%nat) as ->
        by (unfold item_steps, script; by rewrite Hitem, Er).
      lia.
    + inversion Hstep; subst; clear Hstep.
      cbn [set_worker currentIndex workers eng_items].
      pose proof (sum_list_insert worker_steps _ _ _ Finished Hw) as Hs.
      cbn [worker_steps] in Hs. lia.
  - destruct h; [|discriminate]. inversion Hstep; subst; clear Hstep.
    cbn [set_worker currentIndex workers eng_items].
    pose proof (sum_list_insert worker_steps _ _ _ AtLoopHead Hw) as Hs.
    cbn [worker_steps length] in Hs. lia.
  - inversion Hstep; subst; clear Hstep.
    cbn [set_worker currentIndex workers eng_items].
    pose proof (sum_list_insert worker_steps _ _ _ (Busy i todo h) Hw) as Hs.
    cbn [worker_steps length] in Hs. lia.
  - inversion Hstep; subst; clear Hstep.
    cbn [currentIndex workers eng_items].
    pose proof (sum_list_insert worker_steps _ _ _ (Busy i todo h) Hw) as Hs.
    cbn [worker_steps length] in Hs. lia.
Qed.

Lemma engine_run_counts ws : forall E E',
  engine_run ws E = Some E' ->
  (length ws + steps_left E' = steps_left E)%nat.
Proof.
  induction ws as [|w ws IH]; intros E E' H; cbn [engine_run] in H.
  - by inversion H.
  - destruct (engine_step w E) as [[E1 oe]|] eqn:Hs; [|discriminate].
    apply engine_step_counts in Hs. apply IH in H. cbn [length]. lia.
Qed.

Lemma sum_list_zero (l : list nat) :
  sum_list l = 0%nat <-> Forall (fun n => n = 0%nat) l.
Proof.
  induction l as [|a l IH]; cbn.
  - split; [constructor|done].
  - split.
    + intros H. constructor; [lia|]. apply IH. lia.
    + intros H. inversion H; subst. apply IH in H3. lia.
Qed.

Lemma steps_left_zero_done E : steps_left E = 0%nat -> engine_done E = true.
Proof.
  unfold steps_left, engine_done. intros H.
  assert (Hw : sum_list (map worker_steps (workers E)) = 0%nat) by lia.
  apply sum_list_zero in Hw. apply forallb_forall. intros x Hx.
  rewrite Forall_forall in Hw.
  assert (worker_steps x = 0%nat) as Hx0.
  { apply Hw. apply list_elem_of_fmap. exists x. split; [done|].
    by apply list_elem_of_In. }
  destruct x; cbn in Hx0; try done; lia.
Qed.

Lemma done_steps_left_zero E0 E P :
  EngineInv E0 E P -> engine_done E = true -> steps_left E = 0%nat.
Proof.
  intros HI Hdone. unfold steps_left.
  assert (Hw : sum_list (map worker_steps (workers E)) = 0%nat).
  { apply sum_list_zero. apply Forall_forall. intros n Hn.
    apply list_elem_of_fmap in Hn as (x & -> & Hx).
    apply list_elem_of_lookup in Hx as [w Hw].
    by rewrite (engine_done_Finished _ _ _ Hdone Hw). }
  rewrite Hw.
  destruct (inv_config _ _ _ HI) as (_ & _ & _ & _ & Hitems).
  rewrite Hitems.
  destruct (decide (length (eng_items E0) = 0)%nat) as [Hz|Hnz].
  - rewrite Hz. done.
  - assert (0 < length (workers E))%nat as Hlen
      by (apply (inv_workers _ _ _ HI); lia).
    apply lookup_lt_is_Some in Hlen as [x Hx].
    pose proof (engine_done_Finished _ _ _ Hdone Hx) as ->.
    apply (inv_finished _ _ _ HI) in Hx.
    replace (length (eng_items E0) - currentIndex E)%nat with 0%nat by lia.
    done.
Qed.

(** X10: [batchCopy] cannot run forever.  Each step of a worker (claiming
    an item, a callback, a store, the return to the loop condition, the
    last test of the condition) uses up one of the steps that are left,
    whatever the interleaving; so a run from the start has at most
    [steps_left] steps, all workers have finished exactly when none is
    left, and before that, if the items come back, some worker can
    step. *)
Theorem batchCopy_runs_are_bounded pct drive fuel urls target (c : Z) ws E :
  let E0 := batchCopy_start pct drive fuel urls target (JsInt c) in
  engine_run ws E0 = Some E ->
  (length ws + steps_left E = steps_left E0)%nat
  /\ (engine_done E = true <-> steps_left E = 0%nat)
  /\ (engine_done E = false ->
      (forall i item, make_items urls !! i = Some item ->
         fst (process_item pct (drive i) fuel target item world0)
         <> Diverged) ->
      exists w E' oe, engine_step w E = Some (E', oe)).
Proof.
  intros E0 Hrun.
  assert (Hreach : engine_reach E0 E)
    by (eapply engine_run_reach; [eexists; apply engine_trace_nil|exact Hrun]).
  destruct (engine_reach_inv E0 E) as [P HI]; [|done|].
  { eexists. split; [apply batchCopy_start_inv|done]. }
  split; [by apply engine_run_counts|]. split.
  - split; [by apply (done_steps_left_zero E0 E P)|apply steps_left_zero_done].
  - intros Hdone Hhalt. apply (engine_progress E0 E P HI Hdone).
    intros i Hi. unfold halts.
    destruct (eng_items E0 !! i) as [item|] eqn:Hitem; [|done].
    specialize (Hhalt i item Hitem). unfold run_item. cbn [E0 batchCopy_start
      eng_percent eng_drive eng_fuel eng_target].
    by destruct (fst (process_item pct (drive i) fuel target item world0)).
Qed.

Lemma batchCopy_runs_are_bounded_witness :
  exists E,
    engine_run isolation_schedule isolation_start = Some E
    /\ steps_left isolation_start = 16%nat
    /\ (length isolation_schedule + steps_left E
        = steps_left isolation_start)%nat
    /\ engine_done E = true.
Proof.
  destruct (engine_run isolation_schedule isolation_start) as [E|] eqn:Hrun;
    [|vm_compute in Hrun; discriminate].
  exists E. split; [done|]. split; [vm_compute; reflexivity|].
  destruct (batchCopy_runs_are_bounded exact_percent
              (fun _ => test_drive [] [js "abc"]) 8
              [js "https://drive.google.com/file/d/abc/view";
               js "https://drive.google.com/file/d/xyz/view"]
              (js "target") 2 isolation_schedule E Hrun) as (H1 & H2 & _).
  split; [exact H1|]. apply H2.
  assert (steps_left isolation_start = 16%nat) as H16
    by (vm_compute; reflexivity).
  unfold isolation_start in H16. rewrite H16 in H1.
  change (length isolation_schedule) with 16%nat in H1. lia.
Defined.

Lemma engine_step_workers_length w E E' oe :
  engine_step w E = Some (E', oe) -> length (workers E') = length (workers E).
Proof.
  unfold engine_step.
  destruct (workers E !! w) as [[|i [|[e|j r] todo] [|]|]|]; try discriminate.
  - destruct (eng_items E !! currentIndex E) as [item|].
    + destruct (run_item E (currentIndex E) item).
      intros [= <- <-]. cbn. apply length_insert.
    + intros [= <- <-]. cbn. apply length_insert.
  - intros [= <- <-]. cbn. apply length_insert.
  - intros [= <- <-]. cbn. apply length_insert.
  - intros [= <- <-]. cbn. apply length_insert.
  - intros [= <- <-]. cbn. apply length_insert.
  - intros [= <- <-]. cbn. apply length_insert.
Qed.

Lemma engine_trace_workers_length E0 E tr :
  engine_trace E0 E tr -> length (workers E) = length (workers E0).
Proof.
  induction 1 as [|E tr w E' oe _ IH Hstep]; [done|].
  by rewrite (engine_step_workers_length _ _ _ _ Hstep).
Qed.

Lemma busy_length (ws : list Worker) :
  (length (omap busy_item ws) <= length ws)%nat.
Proof. induction ws as [|x l IH]; [done|]. destruct x; cbn in *; lia. Qed.

Lemma busy_lookup (ws : list Worker) i :
  In i (omap busy_item ws) ->
  exists w todo h, ws !! w = Some (Busy i todo h).
Proof.
  induction ws as [|x l IH]; [done|].
  destruct x as [|j todo h|]; cbn.
  - intros H. destruct (IH H) as (w & ? & ? & ?). by exists (S w); eauto.
  - intros [->|H]; [by exists 0%nat, todo, h|].
    destruct (IH H) as (w & ? & ? & ?). by exists (S w); eauto.
  - intros H. destruct (IH H) as (w & ? & ? & ?). by exists (S w); eauto.
Qed.

Lemma busy_NoDup (ws : list Worker) :
  (forall w w' i todo h todo' h',
      ws !! w = Some (Busy i todo h) -> ws !! w' = Some (Busy i todo' h') ->
      w = w') ->
  List.NoDup (omap busy_item ws).
Proof.
  induction ws as [|x l IH]; intros Hinj; [constructor|].
  assert (Hl : forall w w' i todo h todo' h',
             l !! w = Some (Busy i todo h) -> l !! w' = Some (Busy i todo' h') ->
             w = w').
  { intros w w' i todo h todo' h' H1 H2.
    specialize (Hinj (S w) (S w') i todo h todo' h' H1 H2). lia. }
  destruct x as [|j todo h|]; cbn; try (by apply IH).
  constructor; [|by apply IH].
  intros Hin. destruct (busy_lookup l j Hin) as (w & todo' & h' & Hw).
  specialize (Hinj 0%nat (S w) j todo h todo' h' eq_refl Hw). lia.
Qed.

(** X11: in every state of [batchCopy] the number of workers is the
    smaller of the clamped concurrency and the number of urls, so at most
    ten items are in process at a time; no item is in process with two
    workers at once; and the items in process are items of the batch. *)
Theorem pool_respects_concurrency pct drive fuel urls target (c : Z) E :
  engine_reach (batchCopy_start pct drive fuel urls target (JsInt c)) E ->
  length (workers E)
  = Nat.min (Z.to_nat (Z.max 1 (Z.min c 10))) (length urls)
  /\ (length (busy_items E) <= length (workers E) <= 10)%nat
  /\ List.NoDup (busy_items E)
  /\ Forall (fun i => (i < length urls)%nat) (busy_items E).
Proof.
  intros Hreach. pose proof Hreach as [tr Htr].
  destruct (engine_reach_inv
              (batchCopy_start pct drive fuel urls target (JsInt c)) E)
    as [P HI]; [|exact Hreach|].
  { eexists. split; [apply batchCopy_start_inv|done]. }
  assert (Hlen : length (workers E)
                 = Nat.min (Z.to_nat (Z.max 1 (Z.min c 10))) (length urls)).
  { rewrite (engine_trace_workers_length _ _ _ Htr).
    cbn [batchCopy_start workers]. rewrite length_replicate.
    rewrite safeConcurrency_int, make_items_length. cbn [Math_min ToLength].
    lia. }
  split; [done|]. split.
  - split; [apply busy_length|]. rewrite Hlen. lia.
  - split.
    + apply busy_NoDup. apply (inv_nodup _ _ _ HI).
    + apply Forall_forall. intros i Hi. apply list_elem_of_In in Hi.
      apply busy_lookup in Hi as (w & todo & h & Hw).
      destruct (inv_busy _ _ _ HI _ _ _ _ Hw) as (Hlt & _).
      pose proof (inv_cursor _ _ _ HI) as Hc.
      cbn [batchCopy_start eng_items] in Hc.
      rewrite make_items_length in Hc. lia.
Qed.

Lemma pool_respects_concurrency_witness :
  exists E,
    engine_run (take 5 isolation_schedule) isolation_start = Some E
    /\ busy_items E = [0; 1]%nat
    /\ length (workers E) = 2%nat
    /\ List.NoDup (busy_items E).
Proof.
  destruct (engine_run (take 5 isolation_schedule) isolation_start)
    as [E|] eqn:Hrun; [|vm_compute in Hrun; discriminate].
  exists E. split; [done|].
  split; [vm_compute in Hrun; injection Hrun as <-; reflexivity|].
  assert (Hreach : engine_reach isolation_start E)
    by (eapply engine_run_reach;
        [eexists; apply engine_trace_nil|exact Hrun]).
  destruct (pool_respects_concurrency exact_percent
              (fun _ => test_drive [] [js "abc"]) 8
              [js "https://drive.google.com/file/d/abc/view";
               js "https://drive.google.com/file/d/xyz/view"]
              (js "target") 2 E Hreach) as (H1 & _ & H3 & _).
  split; [exact H1|exact H3].
Defined.

Lemma stored_emits es t : stored (map AEmit es ++ t) = stored t.
Proof.
  unfold stored. rewrite omap_app.
  assert (omap (fun a => match a with
                         | AStore _ r => Some r
                         | AEmit _ => None
                         end) (map AEmit es) = []) as ->
    by (induction es; [done|by cbn]).
  done.
Qed.

(** What the loop body leaves in [results] for its item. *)
Lemma process_item_stored pct D fuel target item r w' :
  process_item pct D fuel target item world0 = (r, w') ->
  r <> Diverged ->
  exists res,
    stored (actions w') = Some res
    /\ bcr_url res = it_url item
    /\ ((bcr_success res = true /\ is_Some (bcr_id res)
         /\ is_Some (bcr_name res) /\ bcr_error res = None)
        \/ (bcr_success res = false /\ bcr_id res = None
            /\ bcr_name res = None /\ is_Some (bcr_error res))).
Proof.
  intros Hrun Hr.
  destruct (it_parsed item) as [parsed|] eqn:Hp.
  - destruct (parsed_type parsed) eqn:Ht.
    + destruct (process_item_file_shape pct D fuel target item parsed
                  world0 r w' Hp Ht Hrun) as (_ & k & tail & Ha & Htail).
      cbn [world0 actions app] in Ha. rewrite Ha.
      rewrite <- (map_map (file_progress (it_index item)) AEmit).
      change (AEmit ?e :: map AEmit ?l ++ ?t)
        with (map AEmit (e :: l) ++ t).
      rewrite stored_emits.
      destruct Htail as [(_ & result & ->)| ->].
      * exists (mkResult (it_url item) true (Some (res_id result))
                  (Some (res_name result)) None).
        split; [done|]. split; [done|]. left. cbn [bcr_success bcr_id
          bcr_name bcr_error]. eauto.
      * exists (mkResult (it_url item) false None None
                  (Some (js "Failed to copy file"))).
        split; [done|]. split; [done|]. right. cbn [bcr_success bcr_id
          bcr_name bcr_error]. eauto.
    + destruct (process_item_folder_shape pct D fuel target item parsed
                  world0 r w' Hp Ht Hrun) as (files & k & tail & _ & Ha & Htail).
      cbn [world0 actions app] in Ha. rewrite Ha.
      change (AEmit ?e :: map AEmit ?l ++ ?t)
        with (map AEmit (e :: l) ++ t).
      rewrite stored_emits.
      destruct r as [u|e|]; [|done|done].
      destruct Htail as [(_ & result & _ & ->)| ->].
      * exists (mkResult (it_url item) true (Some (fr_id result))
                  (Some (fr_name result)) None).
        split; [done|]. split; [done|]. left. cbn [bcr_success bcr_id
          bcr_name bcr_error]. eauto.
      * exists (mkResult (it_url item) false None None
                  (Some (js "Failed to copy folder"))).
        split; [done|]. split; [done|]. right. cbn [bcr_success bcr_id
          bcr_name bcr_error]. eauto.
  - rewrite process_item_invalid in Hrun by done.
    inversion Hrun; subst. cbn [add_actions actions world0 app].
    exists (mkResult (it_url item) false None None
              (Some (js "Invalid Google Drive URL"))).
    split; [done|]. split; [done|]. right. cbn [bcr_success bcr_id
      bcr_name bcr_error]. eauto.
Qed.

(** X12: when all workers have finished, [results] has one entry for each
    url, at the position of the url and carrying that url, whatever the
    order in which the workers took and finished the items; an entry is
    either a success with the id and the name of the copy and no error, or
    a failure with an error message and neither id nor name. *)
Theorem results_follow_the_urls pct drive fuel urls target (c : Z) E :
  engine_reach (batchCopy_start pct drive fuel urls target (JsInt c)) E ->
  engine_done E = true ->
  length (results E) = length urls
  /\ forall i url,
       urls !! i = Some url ->
       exists res,
         results E !! i = Some (Some res)
         /\ bcr_url res = url
         /\ ((bcr_success res = true /\ is_Some (bcr_id res)
              /\ is_Some (bcr_name res) /\ bcr_error res = None)
             \/ (bcr_success res = false /\ bcr_id res = None
                 /\ bcr_name res = None /\ is_Some (bcr_error res))).
Proof.
  intros Hreach Hdone.
  set (E0 := batchCopy_start pct drive fuel urls target (JsInt c)) in *.
  destruct (engine_reach_inv E0 E) as [P HI]; [|exact Hreach|].
  { eexists. split; [apply batchCopy_start_inv|done]. }
  split.
  - rewrite (inv_len _ _ _ HI). cbn [E0 batchCopy_start eng_items].
    apply make_items_length.
  - intros i url Hurl.
    assert (Hitem : eng_items E0 !! i
                    = Some (mkBatchItem url i (parseGoogleDriveUrl url))).
    { cbn [E0 batchCopy_start eng_items]. unfold make_items.
      by rewrite list_lookup_imap, Hurl. }
    apply lookup_lt_Some in Hitem as Hlt.
    destruct (engine_final_results E0 E P i HI Hdone Hlt) as [Hres _].
    destruct (engine_done_all_performed E0 E P i HI Hdone Hlt) as [_ Hhalt].
    unfold script in Hres. unfold halts in Hhalt. rewrite Hitem in Hres, Hhalt.
    unfold run_item in Hres, Hhalt.
    cbn [E0 batchCopy_start eng_percent eng_drive eng_fuel eng_target]
      in Hres, Hhalt.
    destruct (process_item pct (drive i) fuel target
                (mkBatchItem url i (parseGoogleDriveUrl url)) world0)
      as [r w'] eqn:Hrun.
    cbn [fst snd] in Hres, Hhalt.
    destruct (process_item_stored _ _ _ _ _ _ _ Hrun) as (res & Hs & Hu & Hk).
    { by destruct r. }
    exists res. rewrite Hres, Hs. by split.
Qed.

Lemma results_follow_the_urls_witness :
  exists E r0 r1,
    engine_run isolation_schedule isolation_start = Some E
    /\ results E !! 0%nat = Some (Some r0)
    /\ bcr_url r0 = js "https://drive.google.com/file/d/abc/view"
    /\ results E !! 1%nat = Some (Some r1)
    /\ bcr_url r1 = js "https://drive.google.com/file/d/xyz/view".
Proof.
  destruct (engine_run isolation_schedule isolation_start) as [E|] eqn:Hrun;
    [|vm_compute in Hrun; discriminate].
  assert (Hreach : engine_reach isolation_start E)
    by (eapply engine_run_reach;
        [eexists; apply engine_trace_nil|exact Hrun]).
  assert (Hdone : engine_done E = true)
    by (vm_compute in Hrun; injection Hrun as <-; reflexivity).
  destruct (results_follow_the_urls exact_percent
              (fun _ => test_drive [] [js "abc"]) 8
              [js "https://drive.google.com/file/d/abc/view";
               js "https://drive.google.com/file/d/xyz/view"]
              (js "target") 2 E Hreach Hdone) as [_ Hall].
  destruct (Hall 0%nat (js "https://drive.google.com/file/d/abc/view")
              eq_refl) as (r0 & H0 & Hu0 & _).
  destruct (Hall 1%nat (js "https://drive.google.com/file/d/xyz/view")
              eq_refl) as (r1 & H1 & Hu1 & _).
  exists E, r0, r1. auto.
Defined.

Lemma engine_run_events_trace E0 ws : forall E tr0 E' tr,
  engine_trace E0 E tr0 ->
  engine_run_events ws E = Some (E', tr) ->
  engine_trace E0 E' (tr0 ++ tr).
Proof.
  induction ws as [|w ws IH]; intros E tr0 E' tr Htr H;
    cbn [engine_run_events] in H.
  - inversion H; subst. by rewrite app_nil_r.
  - destruct (engine_step w E) as [[E1 oe]|] eqn:Hs; [|discriminate].
    destruct (engine_run_events ws E1) as [[E2 tr1]|] eqn:Hr; [|discriminate].
    inversion H; subst; clear H.
    pose proof (engine_trace_step E0 E tr0 w E1 oe Htr Hs) as Htr1.
    specialize (IH _ _ _ _ Htr1 Hr).
    destruct oe as [e|]; [|by rewrite app_nil_r in IH].
    by rewrite <- app_assoc in IH.
Qed.

Lemma pool_sends_item_events_witness :
  exists E tr,
    engine_run_events isolation_schedule isolation_start = Some (E, tr)
    /\ map ev_index tr = [0; 1; 0; 1; 1; 0; 1; 1]%nat
    /\ item_events exact_percent (test_drive [] [js "abc"]) 8 (js "target")
         refused_item
       = events_of 0 tr.
Proof.
  destruct (engine_run_events isolation_schedule isolation_start)
    as [[E tr]|] eqn:Hrun; [|vm_compute in Hrun; discriminate].
  exists E, tr. split; [done|].
  split; [vm_compute in Hrun; injection Hrun as <- <-; reflexivity|].
  assert (Hdone : engine_done E = true)
    by (vm_compute in Hrun; injection Hrun as <- <-; reflexivity).
  pose proof (engine_run_events_trace isolation_start isolation_schedule
                isolation_start [] E tr (engine_trace_nil _) Hrun) as Htr.
  destruct (pool_sends_item_events exact_percent
              (fun _ => test_drive [] [js "abc"]) 8
              [js "https://drive.google.com/file/d/abc/view";
               js "https://drive.google.com/file/d/xyz/view"]
              (js "target") 2 E tr 0 refused_item Htr eq_refl)
    as (rest & Hev & Hrest).
  rewrite (Hrest Hdone), app_nil_r in Hev. exact Hev.
Defined.

Lemma finish_from E0 : forall n E P,
  steps_left E = n ->
  EngineInv E0 E P ->
  (forall i, (i < length (eng_items E0))%nat -> halts E0 i = true) ->
  exists ws E',
    engine_run ws E = Some E' /\ engine_done E' = true /\ length ws = n.
Proof.
  induction n as [|n IH]; intros E P Hn HI Hhalt.
  - exists [], E. split; [done|]. split; [|done].
    by apply steps_left_zero_done.
  - destruct (engine_done E) eqn:Hdone.
    + pose proof (done_steps_left_zero E0 E P HI Hdone). lia.
    + destruct (engine_progress E0 E P HI Hdone Hhalt) as (w & E1 & oe & Hs).
      destruct (engine_step_inv _ _ _ _ _ _ HI Hs) as (P1 & HI1 & _).
      pose proof (engine_step_counts _ _ _ _ Hs) as Hc.
      destruct (IH E1 P1 ltac:(lia) HI1 Hhalt) as (ws & E' & Hrun & Hd & Hl).
      exists (w :: ws), E'. cbn [engine_run length]. rewrite Hs.
      split; [done|]. split; [done|]. lia.
Qed.

(** X24: while the processing of every item comes back, [batchCopy] can
    always be brought to its end: from every state that it reaches there
    is a schedule of the workers after which all of them have finished,
    and it has exactly [steps_left] steps. *)
Theorem batchCopy_can_always_finish pct drive fuel urls target (c : Z) E :
  let E0 := batchCopy_start pct drive fuel urls target (JsInt c) in
  engine_reach E0 E ->
  (forall i item, make_items urls !! i = Some item ->
     fst (process_item pct (drive i) fuel target item world0) <> Diverged) ->
  exists ws E',
    engine_run ws E = Some E'
    /\ engine_done E' = true
    /\ length ws = steps_left E.
Proof.
  intros E0 Hreach Hhalt.
  destruct (engine_reach_inv E0 E) as [P HI]; [|done|].
  { eexists. split; [apply batchCopy_start_inv|done]. }
  apply (finish_from E0 (steps_left E) E P eq_refl HI).
  intros i Hi. unfold halts.
  destruct (eng_items E0 !! i) as [item|] eqn:Hitem; [|done].
  specialize (Hhalt i item Hitem). unfold run_item.
  cbn [E0 batchCopy_start eng_percent eng_drive eng_fuel eng_target].
  by destruct (fst (process_item pct (drive i) fuel target item world0)).
Qed.

Lemma batchCopy_can_always_finish_witness :
  exists ws E',
    engine_run ws isolation_start = Some E'
    /\ engine_done E' = true
    /\ length ws = steps_left isolation_start.
Proof.
  apply (batchCopy_can_always_finish exact_percent
           (fun _ => test_drive [] [js "abc"]) 8
           [js "https://drive.google.com/file/d/abc/view";
            js "https://drive.google.com/file/d/xyz/view"]
           (js "target") 2 isolation_start).
  - eexists. apply engine_trace_nil.
  - intros i item Hitem.
    destruct i as [|[|i]]; cbn in Hitem; inversion Hitem; subst;
      vm_compute; discriminate.
Defined.

(** ** Job records in the running server *)

Lemma same_identity_refl job : same_identity job job.
Proof. repeat split. intros i item H. exists item. eauto. Qed.

Lemma same_identity_trans a b c :
  same_identity a b -> same_identity b c -> same_identity a c.
Proof.
  intros (H1 & H2 & H3 & H4 & H5 & H6) (G1 & G2 & G3 & G4 & G5 & G6).
  repeat split; try congruence.
  intros i item Hi. destruct (H6 _ _ Hi) as (item' & Hi' & ? & ? & ? & ?).
  destruct (G6 _ _ Hi') as (item'' & Hi'' & ? & ? & ? & ?).
  exists item''. repeat split; congruence.
Qed.

Lemma updateJobItem_lookup (jobId : jsstring) (i : nat) (u : ItemUpdates)
    (jobs : gmap jsstring CopyJob) (id : jsstring) (job' : CopyJob) :
  updateJobItem jobId i u jobs !! id = Some job' ->
  exists job,
    jobs !! id = Some job
    /\ (job' = job
        \/ (id = jobId
            /\ exists item,
                 job_items job !! i = Some item
                 /\ job_items job' = <[i := assign item u]> (job_items job)
                 /\ job_id job' = job_id job
                 /\ totalItems job' = totalItems job
                 /\ job_targetFolderId job' = job_targetFolderId job
                 /\ createdAt job' = createdAt job
                 /\ (job_status job' = job_status job
                     \/ job_status job' = job_complete))).
Proof.
  unfold updateJobItem.
  destruct (jobs !! jobId) as [job|] eqn:Hjob; [|by eauto].
  destruct (job_items job !! i) as [item|] eqn:Hitem; [|by eauto].
  destruct (decide (id = jobId)) as [->|Hne].
  - intros H. exists job. split; [done|]. right. split; [done|].
    exists item. split; [done|].
    destruct (match upd_status u with Some s => is_terminal s | None => false end);
      rewrite lookup_insert_eq in H; inversion H; subst; cbn;
      repeat split; auto.
    destruct (_ =? _)%nat; auto.
  - intros H. exists job'. split; [|by left].
    destruct (match upd_status u with Some s => is_terminal s | None => false end);
      by rewrite lookup_insert_ne in H.
Qed.

Lemma assign_identity item u :
  item_index (assign item u) = item_index item
  /\ item_url (assign item u) = item_url item
  /\ item_result (assign item u) = item_result item
  /\ item_error (assign item u) = item_error item.
Proof. done. Qed.

Lemma updateJobItem_identity (jobId : jsstring) (i : nat) (u : ItemUpdates)
    (jobs : gmap jsstring CopyJob) (id : jsstring) (job job' : CopyJob) :
  jobs !! id = Some job ->
  updateJobItem jobId i u jobs !! id = Some job' ->
  same_identity job job'
  /\ (job_status job' = job_status job \/ job_status job' = job_complete).
Proof.
  intros Hjob H. apply updateJobItem_lookup in H as (job0 & Hjob0 & H).
  rewrite Hjob in Hjob0. inversion Hjob0; subst job0; clear Hjob0.
  destruct H as [->|(_ & item & Hitem & Hitems & ? & ? & ? & ? & Hst)].
  - split; [apply same_identity_refl|by left].
  - split; [|done]. repeat split; try done.
    + rewrite Hitems. apply length_insert.
    + intros j x Hx. rewrite Hitems.
      destruct (decide (j = i)) as [->|Hne].
      * rewrite Hitem in Hx. inversion Hx; subst x.
        exists (assign item u). split; [|apply assign_identity].
        apply list_lookup_insert_eq. by apply lookup_lt_Some in Hitem.
      * exists x. rewrite list_lookup_insert_ne by done. eauto.
Qed.

Lemma updateJobItem_None (jobId : jsstring) (i : nat) (u : ItemUpdates)
    (jobs : gmap jsstring CopyJob) (id : jsstring) :
  jobs !! id = None -> updateJobItem jobId i u jobs !! id = None.
Proof.
  intros H. destruct (updateJobItem jobId i u jobs !! id) as [job'|] eqn:E;
    [|done].
  apply updateJobItem_lookup in E as (job & Hjob & _). congruence.
Qed.

Lemma set_job_status_lookup (jobId : jsstring) (s : JobStatus)
    (jobs : gmap jsstring CopyJob) (id : jsstring) :
  set_job_status jobId s jobs !! id
  = match jobs !! id with
    | Some job =>
        if decide (id = jobId)
        then Some (mkJob (job_id job) s (totalItems job) (completedItems job)
                         (job_items job) (job_targetFolderId job)
                         (createdAt job))
        else Some job
    | None => None
    end.
Proof.
  unfold set_job_status. destruct (decide (id = jobId)) as [->|Hne].
  - destruct (jobs !! jobId) as [job|] eqn:E.
    + by rewrite lookup_insert_eq.
    + by rewrite E.
  - destruct (jobs !! jobId) as [job|] eqn:E.
    + rewrite lookup_insert_ne by done. by destruct (jobs !! id).
    + by destruct (jobs !! id).
Qed.

(** The job that a submission registers, if it registers one. *)
Lemma POST_jobs env body sys :
  snd (POST env body sys) = sys
  \/ exists urls folderId task,
       snd (POST env body sys)
       = mkSystem
           (<[generateJobId (env_timestamp env) (env_random env)
              := new_job (generateJobId (env_timestamp env) (env_random env))
                   urls folderId (env_createdAt env)]> (jobs sys))
           (<[generateJobId (env_timestamp env) (env_random env) := task]>
              (tasks sys)).
Proof.
  unfold POST. destruct (req_urls body) as [[|u urls]|]; [by left| |by left].
  unfold createJob.
  destruct (fst (resolve_folder env _ _ world0)) as [folderId|e|];
    cbn [fst snd]; [|by left|by left].
  right. exists (u :: urls), folderId. eexists.
  by destruct (getJob _ _).
Qed.

(** One step of the server, seen from one job id. *)
Lemma sys_step_job l sys sys' id :
  sys_step l sys = Some sys' ->
  is_Some (tasks sys !! id) ->
  is_Some (tasks sys' !! id)
  /\ match jobs sys !! id, jobs sys' !! id with
     | Some job, Some job' =>
         same_identity job job'
         /\ (job_status job' = job_status job
             \/ job_status job' = job_complete)
     | None, Some _ => False
     | _, None => True
     end.
Proof.
  intros Hstep Htask.
  destruct l as [env body|jobId w|jobId|jobId|now maxAgeMs];
    cbn [sys_step] in Hstep.
  - destruct (tasks sys !! generateJobId _ _) eqn:Hfresh; [discriminate|].
    inversion Hstep; subst; clear Hstep.
    destruct (POST_jobs env body sys) as [->|(urls & folderId & task & ->)].
    + split; [done|]. destruct (jobs sys !! id);
        [split; [apply same_identity_refl|by left]|done].
    + cbn [jobs tasks].
      assert (id <> generateJobId (env_timestamp env) (env_random env))
        by (intros ->; rewrite Hfresh in Htask; by destruct Htask).
      rewrite !lookup_insert_ne by done. split; [done|].
      destruct (jobs sys !! id);
        [split; [apply same_identity_refl|by left]|done].
  - destruct (tasks sys !! jobId) as [[E|]|] eqn:Ht; try discriminate.
    destruct (engine_step w E) as [[E' oe]|]; [|discriminate].
    inversion Hstep; subst; clear Hstep. cbn [jobs tasks]. split.
    + destruct (decide (id = jobId)) as [->|Hne];
        [by rewrite lookup_insert_eq|by rewrite lookup_insert_ne].
    + destruct oe as [e|].
      * unfold progress_sink.
        destruct (jobs sys !! id) as [job|] eqn:Hjob.
        -- destruct (updateJobItem _ _ _ _ !! id) eqn:Hj'; [|done].
           by eapply updateJobItem_identity.
        -- by rewrite updateJobItem_None.
      * destruct (jobs sys !! id);
          [split; [apply same_identity_refl|by left]|done].
  - destruct (tasks sys !! jobId) as [[E|]|] eqn:Ht; try discriminate.
    destruct (engine_done E); [|discriminate].
    inversion Hstep; subst; clear Hstep. cbn [jobs tasks]. split.
    + destruct (decide (id = jobId)) as [->|Hne];
        [by rewrite lookup_insert_eq|by rewrite lookup_insert_ne].
    + rewrite set_job_status_lookup.
      destruct (jobs sys !! id) as [job|]; [|done].
      destruct (decide (id = jobId)).
      * split; [|by right]. repeat split. intros i item Hi. exists item. eauto.
      * split; [apply same_identity_refl|by left].
  - inversion Hstep; subst; clear Hstep. cbn [jobs tasks deleteJob snd].
    split; [done|].
    destruct (decide (id = jobId)) as [->|Hne].
    + rewrite lookup_delete_eq. by destruct (jobs sys !! jobId).
    + rewrite lookup_delete_ne by done.
      destruct (jobs sys !! id);
        [split; [apply same_identity_refl|by left]|done].
  - inversion Hstep; subst; clear Hstep. cbn [jobs tasks]. split; [done|].
    rewrite clearOldJobs_lookup.
    destruct (jobs sys !! id) as [job|]; [|done].
    destruct (expired now maxAgeMs job); [done|].
    split; [apply same_identity_refl|by left].
Qed.

Lemma sys_step_jobs_have_tasks l sys sys' :
  jobs_have_tasks sys -> sys_step l sys = Some sys' -> jobs_have_tasks sys'.
Proof.
  intros Hinv Hstep id [job' Hjob'].
  destruct (tasks sys !! id) as [t|] eqn:Ht.
  - by destruct (sys_step_job l sys sys' id Hstep ltac:(eauto)) as [? _].
  - assert (jobs sys !! id = None) as Hnone.
    { destruct (jobs sys !! id) eqn:E; [|done].
      destruct (Hinv id ltac:(eauto)). congruence. }
    destruct l as [env body|jobId w|jobId|jobId|now maxAgeMs];
      cbn [sys_step] in Hstep.
    + destruct (tasks sys !! generateJobId _ _) eqn:Hfresh; [discriminate|].
      inversion Hstep; subst; clear Hstep.
      destruct (POST_jobs env body sys) as [Heq|(urls & folderId & task & Heq)];
        rewrite Heq in *; [congruence|].
      cbn [jobs tasks] in *.
      destruct (decide (id = generateJobId (env_timestamp env) (env_random env)))
        as [->|Hne]; [by rewrite lookup_insert_eq|].
      rewrite lookup_insert_ne in Hjob' by done. congruence.
    + destruct (tasks sys !! jobId) as [[E|]|]; try discriminate.
      destruct (engine_step w E) as [[E' oe]|]; [|discriminate].
      inversion Hstep; subst; clear Hstep. cbn [jobs] in Hjob'.
      destruct oe; [|congruence].
      unfold progress_sink in Hjob'. rewrite updateJobItem_None in Hjob' by done.
      done.
    + destruct (tasks sys !! jobId) as [[E|]|]; try discriminate.
      destruct (engine_done E); [|discriminate].
      inversion Hstep; subst; clear Hstep. cbn [jobs] in Hjob'.
      rewrite set_job_status_lookup, Hnone in Hjob'. done.
    + inversion Hstep; subst; clear Hstep. cbn [jobs deleteJob snd] in Hjob'.
      apply lookup_delete_Some in Hjob' as [_ ?]. congruence.
    + inversion Hstep; subst; clear Hstep. cbn [jobs] in Hjob'.
      rewrite clearOldJobs_lookup, Hnone in Hjob'. done.
Qed.

Lemma reachable_jobs_have_tasks allowed sys :
  reachable_by allowed sys -> jobs_have_tasks sys.
Proof.
  induction 1 as [|l sys sys' _ _ IH Hstep].
  - intros id [job H]. cbn in H. by rewrite lookup_empty in H.
  - by eapply sys_step_jobs_have_tasks.
Qed.

Lemma new_job_wellformed jobId urls folderId created :
  job_wellformed jobId (new_job jobId urls folderId created).
Proof.
  unfold job_wellformed, new_job. cbn. split; [done|].
  split; [by rewrite length_imap|].
  intros i item H. rewrite list_lookup_imap in H.
  destruct (urls !! i); inversion H; done.
Qed.

Lemma wellformed_same_identity id job job' :
  job_wellformed id job -> same_identity job job' -> job_wellformed id job'.
Proof.
  intros (Hid & Htot & Hitems) (H1 & H2 & _ & _ & H5 & H6).
  split; [congruence|]. split; [congruence|].
  intros i item' Hi'.
  assert (i < length (job_items job))%nat as Hlt
    by (rewrite <- H5; by apply lookup_lt_Some in Hi').
  apply lookup_lt_is_Some in Hlt as [item Hi].
  destruct (H6 _ _ Hi) as (item'' & Hi'' & Ha & _ & Hc & Hd).
  rewrite Hi' in Hi''. inversion Hi''; subst item''.
  destruct (Hitems _ _ Hi) as (? & ? & ?). repeat split; congruence.
Qed.

(** A record that appears under an id without a task is the fresh record
    of a submission. *)
Lemma sys_step_new_job l sys sys' id job' :
  sys_step l sys = Some sys' ->
  jobs_have_tasks sys ->
  tasks sys !! id = None ->
  jobs sys' !! id = Some job' ->
  exists urls folderId created, job' = new_job id urls folderId created.
Proof.
  intros Hstep Hinv Ht Hjob'.
  assert (jobs sys !! id = None) as Hnone.
  { destruct (jobs sys !! id) eqn:E; [|done].
    destruct (Hinv id ltac:(eauto)). congruence. }
  destruct l as [env body|jobId w|jobId|jobId|now maxAgeMs];
    cbn [sys_step] in Hstep.
  - destruct (tasks sys !! generateJobId _ _) eqn:Hfresh; [discriminate|].
    inversion Hstep; subst; clear Hstep.
    destruct (POST_jobs env body sys) as [Heq|(urls & folderId & task & Heq)];
      rewrite Heq in *; [congruence|].
    cbn [jobs tasks] in *.
    destruct (decide (id = generateJobId (env_timestamp env) (env_random env)))
      as [->|Hne].
    + rewrite lookup_insert_eq in Hjob'. inversion Hjob'. eauto.
    + rewrite lookup_insert_ne in Hjob' by done. congruence.
  - destruct (tasks sys !! jobId) as [[E|]|]; try discriminate.
    destruct (engine_step w E) as [[E' oe]|]; [|discriminate].
    inversion Hstep; subst; clear Hstep. cbn [jobs] in Hjob'.
    destruct oe; [|congruence].
    unfold progress_sink in Hjob'. rewrite updateJobItem_None in Hjob' by done.
    done.
  - destruct (tasks sys !! jobId) as [[E|]|]; try discriminate.
    destruct (engine_done E); [|discriminate].
    inversion Hstep; subst; clear Hstep. cbn [jobs] in Hjob'.
    rewrite set_job_status_lookup, Hnone in Hjob'. done.
  - inversion Hstep; subst; clear Hstep. cbn [jobs deleteJob snd] in Hjob'.
    apply lookup_delete_Some in Hjob' as [_ ?]. congruence.
  - inversion Hstep; subst; clear Hstep. cbn [jobs] in Hjob'.
    rewrite clearOldJobs_lookup, Hnone in Hjob'. done.
Qed.

Lemma reachable_wellformed allowed sys :
  reachable_by allowed sys ->
  forall id job, jobs sys !! id = Some job -> job_wellformed id job.
Proof.
  induction 1 as [|l sys sys' _ Hreach IH Hstep]; intros id job' Hjob'.
  - cbn in Hjob'. by rewrite lookup_empty in Hjob'.
  - pose proof (reachable_jobs_have_tasks _ _ Hreach) as Hinv.
    destruct (tasks sys !! id) as [t|] eqn:Ht.
    + destruct (sys_step_job l sys sys' id Hstep ltac:(eauto)) as [_ Hm].
      rewrite Hjob' in Hm. destruct (jobs sys !! id) as [job|] eqn:Hjob; [|done].
      destruct Hm as [Hsame _]. eapply wellformed_same_identity; eauto.
    + destruct (sys_step_new_job _ _ _ _ _ Hstep Hinv Ht Hjob')
        as (urls & folderId & created & ->).
      apply new_job_wellformed.
Qed.

(** X14: in every state of the server, the record stored under a job id
    carries that id, [totalItems] is the number of its items, the item at
    position [i] has index [i], and no item has a [result] or an [error]:
    the registry only ever writes the status, the progress and the message
    of an item; and the id belongs to a background task. *)
Theorem job_records_are_wellformed sys id job :
  reachable sys ->
  jobs sys !! id = Some job ->
  job_id job = id
  /\ totalItems job = length (job_items job)
  /\ (forall i item,
         job_items job !! i = Some item ->
         item_index item = i
         /\ item_result item = None /\ item_error item = None)
  /\ is_Some (tasks sys !! id).
Proof.
  intros Hreach Hjob.
  destruct (reachable_wellformed _ _ Hreach _ _ Hjob) as (? & ? & ?).
  split; [done|]. split; [done|]. split; [done|].
  apply (reachable_jobs_have_tasks _ _ Hreach). eauto.
Qed.

Lemma job_records_are_wellformed_witness :
  exists job,
    jobs demo_system !! demo_id = Some job
    /\ job_id job = demo_id
    /\ totalItems job = length (job_items job)
    /\ Forall (fun item => item_result item = None) (job_items job).
Proof.
  assert (Hreach : reachable demo_system).
  { eapply (run_reachable (fun _ => True) demo_labels initial_system);
      [by apply Forall_forall|apply reach_init|apply demo_run]. }
  destruct (jobs demo_system !! demo_id) as [job|] eqn:Hjob;
    [|vm_compute in Hjob; discriminate].
  destruct (job_records_are_wellformed demo_system demo_id job Hreach Hjob)
    as (H1 & H2 & H3 & _).
  exists job. split; [done|]. split; [done|]. split; [done|].
  apply Forall_forall. intros item Hin.
  apply list_elem_of_lookup in Hin as [i Hi]. by destruct (H3 i item Hi) as (_ & ? & _).
Defined.

(** Over the steps of [sys_step], which give every job id to one task:
    [completedItems] is the number of items whose status is Success or
    Error, and it does not exceed [totalItems]. *)
Lemma sys_completedItems_counts_terminal sys id job :
  reachable_by numeric_submission sys ->
  jobs sys !! id = Some job ->
  completedItems job = count_terminal (job_items job)
  /\ (completedItems job <= totalItems job)%nat.
Proof.
  intros Hreach Hjob.
  destruct (reachable_wellformed _ _ Hreach _ _ Hjob) as (_ & Htot & _).
  pose proof (reachable_inv sys Hreach id job Hjob) as HS.
  destruct (tasks sys !! id) as [[E|]|]; [| |done].
  - destruct HS as (E0 & P & _ & HJ).
    pose proof (ji_completed _ _ _ HJ) as Hc.
    split; [done|]. rewrite Hc, Htot. apply count_terminal_le.
  - destruct HS as [Hc Hall]. split; [|lia].
    rewrite Hc, Htot. symmetry. by apply count_terminal_Forall.
Qed.

Lemma absent_job_stays_absent ls : forall sys sys' id,
  is_Some (tasks sys !! id) -> jobs sys !! id = None ->
  run ls sys = Some sys' -> jobs sys' !! id = None.
Proof.
  induction ls as [|l ls IH]; intros sys sys' id Ht Hnone Hrun;
    cbn [run] in Hrun.
  - by inversion Hrun; subst.
  - destruct (sys_step l sys) as [sys1|] eqn:Hstep; [|discriminate].
    destruct (sys_step_job l sys sys1 id Hstep Ht) as [Ht1 Hm].
    rewrite Hnone in Hm.
    destruct (jobs sys1 !! id) eqn:Hj1; [done|].
    by eapply IH.
Qed.

(** Over the steps of [sys_step]: a job record keeps its identity, and a
    job that reports Complete goes on reporting it. *)
Lemma sys_job_identity_stable ls sys sys' id job job' :
  reachable sys ->
  run ls sys = Some sys' ->
  jobs sys !! id = Some job ->
  jobs sys' !! id = Some job' ->
  same_identity job job'
  /\ (job_status job = job_complete -> job_status job' = job_complete).
Proof.
  intros Hreach. 
  assert (Ht : is_Some (tasks sys !! id) \/ jobs sys !! id = None).
  { destruct (jobs sys !! id) eqn:E; [|by right]. left.
    apply (reachable_jobs_have_tasks _ _ Hreach). eauto. }
  clear Hreach. revert sys job Ht.
  induction ls as [|l ls IH]; intros sys job Ht Hrun Hjob Hjob';
    cbn [run] in Hrun.
  - inversion Hrun; subst. rewrite Hjob in Hjob'. inversion Hjob'; subst.
    split; [apply same_identity_refl|done].
  - destruct Ht as [Ht|Hn]; [|congruence].
    destruct (sys_step l sys) as [sys1|] eqn:Hstep; [|discriminate].
    destruct (sys_step_job l sys sys1 id Hstep Ht) as [Ht1 Hm].
    rewrite Hjob in Hm.
    destruct (jobs sys1 !! id) as [job1|] eqn:Hj1.
    + destruct Hm as [Hs1 Hst1].
      destruct (IH sys1 job1 (or_introl Ht1) Hrun Hj1 Hjob') as [Hs2 Hst2].
      split; [by eapply same_identity_trans|].
      intros Hc. apply Hst2. destruct Hst1; congruence.
    + pose proof (absent_job_stays_absent ls sys1 sys' id Ht1 Hj1 Hrun).
      congruence.
Qed.

Lemma terminal_item_step l sys sys' id job job' i item :
  SysInv sys -> sys_step l sys = Some sys' ->
  jobs sys !! id = Some job -> jobs sys' !! id = Some job' ->
  job_items job !! i = Some item ->
  is_terminal (item_status item) = true ->
  job_items job' !! i = Some item.
Proof.
  intros HS Hstep Hjob Hjob' Hitem Hterm.
  pose proof (HS id job Hjob) as HSj.
  destruct l as [env body|jobId w|jobId|jobId|now maxAgeMs];
    cbn [sys_step] in Hstep.
  - destruct (tasks sys !! generateJobId _ _) eqn:Hfresh; [discriminate|].
    inversion Hstep; subst; clear Hstep.
    destruct (POST_jobs env body sys) as [Heq|(urls & folderId & task & Heq)];
      rewrite Heq in *; [congruence|].
    cbn [jobs] in Hjob'.
    destruct (decide (id = generateJobId (env_timestamp env) (env_random env)))
      as [->|Hne]; [by rewrite Hfresh in HSj|].
    rewrite lookup_insert_ne in Hjob' by done. congruence.
  - destruct (tasks sys !! jobId) as [[E|]|] eqn:Ht; try discriminate.
    destruct (engine_step w E) as [[E' oe]|] eqn:Hes; [|discriminate].
    inversion Hstep; subst; clear Hstep. cbn [jobs] in Hjob'.
    destruct oe as [e|]; [|congruence].
    unfold progress_sink in Hjob'.
    apply updateJobItem_lookup in Hjob' as (job0 & Hjob0 & Hcase).
    rewrite Hjob in Hjob0. inversion Hjob0; subst job0; clear Hjob0.
    destruct Hcase as [->|(-> & item0 & Hitem0 & Hitems & _)]; [done|].
    rewrite Ht in HSj. destruct HSj as (E0 & P & HI & HJ).
    destruct (engine_step_inv _ _ _ _ _ _ HI Hes) as (P' & _ & _ & Hb & _).
    assert (i <> ev_index e) as Hne.
    { intros ->. pose proof (ji_terminal _ _ _ HJ _ _ Hitem) as Hji.
      congruence. }
    rewrite Hitems. by rewrite list_lookup_insert_ne.
  - destruct (tasks sys !! jobId) as [[E|]|] eqn:Ht; try discriminate.
    destruct (engine_done E); [|discriminate].
    inversion Hstep; subst; clear Hstep. cbn [jobs] in Hjob'.
    rewrite set_job_status_lookup, Hjob in Hjob'.
    destruct (decide (id = jobId)); by inversion Hjob'; subst.
  - inversion Hstep; subst; clear Hstep. cbn [jobs deleteJob snd] in Hjob'.
    apply lookup_delete_Some in Hjob' as [_ ?]. congruence.
  - inversion Hstep; subst; clear Hstep. cbn [jobs] in Hjob'.
    rewrite clearOldJobs_lookup, Hjob in Hjob'.
    destruct (expired now maxAgeMs job); by inversion Hjob'; subst.
Qed.

(** Over the steps of [sys_step]: an item that has reached Success or
    Error stays as it is. *)
Lemma sys_terminal_items_final ls sys sys' id job job' i item :
  reachable_by numeric_submission sys ->
  Forall numeric_submission ls ->
  run ls sys = Some sys' ->
  jobs sys !! id = Some job ->
  jobs sys' !! id = Some job' ->
  job_items job !! i = Some item ->
  is_terminal (item_status item) = true ->
  job_items job' !! i = Some item.
Proof.
  revert sys job.
  induction ls as [|l ls IH]; intros sys job Hreach Hnum Hrun Hjob Hjob'
    Hitem Hterm; cbn [run] in Hrun.
  - inversion Hrun; subst. congruence.
  - destruct (sys_step l sys) as [sys1|] eqn:Hstep; [|discriminate].
    inversion Hnum as [|? ? Hl Hls]; subst.
    assert (Hreach1 : reachable_by numeric_submission sys1)
      by (eapply reach_step; eauto).
    assert (Ht : is_Some (tasks sys !! id))
      by (apply (reachable_jobs_have_tasks _ _ Hreach); eauto).
    destruct (sys_step_job l sys sys1 id Hstep Ht) as [Ht1 _].
    destruct (jobs sys1 !! id) as [job1|] eqn:Hj1.
    + eapply (IH sys1 job1); eauto.
      eapply terminal_item_step; eauto. by apply reachable_inv.
    + pose proof (absent_job_stays_absent ls sys1 sys' id Ht1 Hj1 Hrun).
      congruence.
Qed.

(** ** Operations of the registry and the routes *)

Lemma assign_assign item u : assign (assign item u) u = assign item u.
Proof.
  unfold assign. cbn. f_equal.
  - by destruct (upd_status u).
  - by destruct (upd_progress u).
  - by destruct (upd_message u).
Qed.

(** X18: applying the same update twice is the same as applying it once:
    a repeated progress callback changes nothing, neither in the item nor
    in [completedItems] nor in the status of the job. *)
Theorem updateJobItem_is_idempotent (jobId : jsstring) (i : nat)
    (u : ItemUpdates) (jobs : gmap jsstring CopyJob) :
  updateJobItem jobId i u (updateJobItem jobId i u jobs)
  = updateJobItem jobId i u jobs.
Proof.
  unfold updateJobItem at 2 3.
  destruct (jobs !! jobId) as [job|] eqn:Hjob;
    [|by rewrite updateJobItem_absent].
  destruct (job_items job !! i) as [item|] eqn:Hitem;
    [|by rewrite (updateJobItem_no_item _ _ _ _ job)].
  assert (Hlt : (i < length (job_items job))%nat)
    by (by apply lookup_lt_Some in Hitem).
  cbv zeta.
  destruct (match upd_status u with Some s => is_terminal s | None => false end)
    eqn:Hterm; unfold updateJobItem; rewrite lookup_insert_eq;
    cbn [job_items job_id totalItems job_status completedItems
         job_targetFolderId createdAt];
    rewrite list_lookup_insert_eq by done; cbv zeta; rewrite Hterm;
    rewrite assign_assign, list_insert_insert_eq, insert_insert_eq.
  - do 2 f_equal.
    by destruct (count_terminal (<[i:=assign item u]> (job_items job))
                 =? totalItems job)%nat.
  - done.
Qed.

(** X19: the status route.  GET answers 404 for an id that is not in the
    registry and else the record.  DELETE of a job that is there answers
    success, after which GET and a second DELETE of that id answer 404,
    while the other records and all background tasks are untouched; DELETE
    of an id that is not there answers 404 and changes nothing. *)
Theorem status_route_get_and_delete sys jobId :
  (StatusRoute.GET jobId sys
   = match jobs sys !! jobId with
     | Some job => StatusRoute.Json200 job
     | None => StatusRoute.Error404 StatusRoute.NOT_FOUND
     end)
  /\ (let sys' := snd (StatusRoute.DELETE jobId sys) in
      fst (StatusRoute.DELETE jobId sys)
      = match jobs sys !! jobId with
        | Some _ => StatusRoute.Success200
        | None => StatusRoute.Error404 StatusRoute.NOT_FOUND
        end
      /\ StatusRoute.GET jobId sys'
         = StatusRoute.Error404 StatusRoute.NOT_FOUND
      /\ StatusRoute.DELETE jobId sys'
         = (StatusRoute.Error404 StatusRoute.NOT_FOUND, sys')
      /\ (forall other, other <> jobId ->
            StatusRoute.GET other sys' = StatusRoute.GET other sys)
      /\ tasks sys' = tasks sys
      /\ (jobs sys !! jobId = None -> jobs sys' = jobs sys)
      /\ sys_step (LDelete jobId) sys = Some sys').
Proof.
  split; [unfold StatusRoute.GET, getJob; by destruct (jobs sys !! jobId)|].
  cbv zeta. unfold StatusRoute.DELETE, StatusRoute.GET, deleteJob, getJob.
  assert (Hsys' : snd (if bool_decide (is_Some (jobs sys !! jobId))
                       then (StatusRoute.Success200,
                             mkSystem (delete jobId (jobs sys)) (tasks sys))
                       else (StatusRoute.Error404 StatusRoute.NOT_FOUND,
                             mkSystem (delete jobId (jobs sys)) (tasks sys)))
                  = mkSystem (delete jobId (jobs sys)) (tasks sys))
    by (by destruct (bool_decide _)).
  rewrite Hsys'. cbn [jobs tasks]. rewrite lookup_delete_eq.
  split.
  { destruct (jobs sys !! jobId) eqn:E.
    - rewrite bool_decide_eq_true_2 by eauto. done.
    - rewrite bool_decide_eq_false_2; [done|]. by intros [? ?]. }
  split; [done|]. split.
  { rewrite bool_decide_eq_false_2 by (by intros [? ?]). cbn.
    f_equal. f_equal. apply delete_id. apply lookup_delete_eq. }
  split; [intros other Hne; by rewrite lookup_delete_ne|].
  split; [done|]. split; [apply delete_id|done].
Qed.

Lemma status_route_get_and_delete_witness :
  exists job,
    StatusRoute.GET demo_id demo_system = StatusRoute.Json200 job
    /\ fst (StatusRoute.DELETE demo_id demo_system) = StatusRoute.Success200
    /\ StatusRoute.GET demo_id (snd (StatusRoute.DELETE demo_id demo_system))
       = StatusRoute.Error404 StatusRoute.NOT_FOUND.
Proof.
  destruct (status_route_get_and_delete demo_system demo_id)
    as (_ & Hfst & Hget' & _).
  eexists. split; [vm_compute; reflexivity|]. split; [|exact Hget'].
  rewrite Hfst. vm_compute. reflexivity.
Defined.

(** X21: [clearOldJobs] is idempotent: a second call with the same clock
    and the same age removes nothing and returns 0. *)
Theorem clearOldJobs_is_idempotent (now maxAgeMs : Z)
    (jobs : gmap jsstring CopyJob) :
  clearOldJobs now maxAgeMs (snd (clearOldJobs now maxAgeMs jobs))
  = (0%nat, snd (clearOldJobs now maxAgeMs jobs)).
Proof.
  set (kept := snd (clearOldJobs now maxAgeMs jobs)).
  assert (Hkept : forall id job, kept !! id = Some job ->
                                 expired now maxAgeMs job = false).
  { intros id job H. unfold kept in H. rewrite clearOldJobs_lookup in H.
    destruct (jobs !! id) as [job0|]; [|done].
    destruct (expired now maxAgeMs job0) eqn:E; [done|]. congruence. }
  rewrite (surjective_pairing (clearOldJobs now maxAgeMs kept)). f_equal.
  - rewrite clearOldJobs_fst. apply map_size_empty_iff.
    apply map_empty. intros id. apply map_lookup_filter_None. right.
    intros job Hjob Hexp. cbn in Hexp.
    rewrite (Hkept id job Hjob) in Hexp. discriminate.
  - apply map_eq. intros id. rewrite clearOldJobs_lookup.
    destruct (kept !! id) as [job|] eqn:E; [|done].
    by rewrite (Hkept id job E).
Qed.

(** ** Every accepted job can complete *)

Lemma halts_config E E' i : same_config E E' -> halts E' i = halts E i.
Proof.
  intros (Hp & Hd & Hf & Ht & Hi). unfold halts. rewrite Hi.
  destruct (eng_items E !! i) as [item|]; [|done].
  unfold run_item. by rewrite Hp, Hd, Hf, Ht.
Qed.

Lemma updateJobItem_is_Some (jobId : jsstring) (i : nat) (u : ItemUpdates)
    (jobs : gmap jsstring CopyJob) (id : jsstring) :
  is_Some (jobs !! id) -> is_Some (updateJobItem jobId i u jobs !! id).
Proof.
  intros Hid. unfold updateJobItem.
  destruct (jobs !! jobId) as [job|] eqn:Hjob; [|done].
  destruct (job_items job !! i) as [item|]; [|done].
  destruct (decide (id = jobId)) as [->|Hne].
  - destruct (match upd_status u with Some s => is_terminal s | None => false end);
      rewrite lookup_insert_eq; eauto.
  - destruct (match upd_status u with Some s => is_terminal s | None => false end);
      by rewrite lookup_insert_ne.
Qed.

Lemma run_app ls1 : forall ls2 sys sys1 sys2,
  run ls1 sys = Some sys1 -> run ls2 sys1 = Some sys2 ->
  run (ls1 ++ ls2) sys = Some sys2.
Proof.
  induction ls1 as [|l ls1 IH]; intros ls2 sys sys1 sys2 H1 H2;
    cbn [run app] in *.
  - by inversion H1; subst.
  - destruct (sys_step l sys) as [s|]; [|discriminate]. eauto.
Qed.

Lemma run_workers id ws : forall sys E E',
  tasks sys !! id = Some (Running E) ->
  engine_run ws E = Some E' ->
  exists sys',
    run (map (LWorker id) ws) sys = Some sys'
    /\ tasks sys' !! id = Some (Running E')
    /\ (is_Some (jobs sys !! id) -> is_Some (jobs sys' !! id)).
Proof.
  induction ws as [|w ws IH]; intros sys E E' Ht Hrun;
    cbn [engine_run map run] in *.
  - inversion Hrun; subst. eauto.
  - destruct (engine_step w E) as [[E1 oe]|] eqn:Hs; [|discriminate].
    cbn [sys_step]. rewrite Ht, Hs.
    destruct (IH (mkSystem
                    (match oe with
                     | Some e => progress_sink id e (jobs sys)
                     | None => jobs sys
                     end)
                    (<[id := Running E1]> (tasks sys))) E1 E')
      as (sys' & Hr & Ht' & Hj); [by cbn; rewrite lookup_insert_eq|done|].
    exists sys'. split; [done|]. split; [done|].
    intros Hsome. apply Hj. cbn [jobs].
    destruct oe; [by apply updateJobItem_is_Some|done].
Qed.

(** Over the steps of [sys_step]: a job whose items all come back can be
    completed by steps of its own task. *)
Lemma sys_job_can_complete sys id E :
  reachable_by numeric_submission sys ->
  tasks sys !! id = Some (Running E) ->
  is_Some (jobs sys !! id) ->
  (forall i, (i < length (eng_items E))%nat -> halts E i = true) ->
  exists ls sys' job',
    Forall (task_label id) ls
    /\ run ls sys = Some sys'
    /\ tasks sys' !! id = Some Settled
    /\ jobs sys' !! id = Some job'
    /\ job_status job' = job_complete
    /\ completedItems job' = totalItems job'
    /\ Forall (fun item => is_terminal (item_status item) = true)
              (job_items job').
Proof.
  intros Hreach Htask [job Hjob] Hhalt.
  pose proof (reachable_inv sys Hreach id job Hjob) as HS.
  rewrite Htask in HS. destruct HS as (E0 & P & HI & _).
  pose proof (inv_config _ _ _ HI) as Hcfg.
  assert (Hhalt0 : forall i, (i < length (eng_items E0))%nat ->
                             halts E0 i = true).
  { intros i Hi. rewrite <- (halts_config E0 E i Hcfg). apply Hhalt.
    destruct Hcfg as (_ & _ & _ & _ & ->). done. }
  destruct (finish_from E0 (steps_left E) E P eq_refl HI Hhalt0)
    as (ws & E' & Hrun & Hdone & _).
  destruct (run_workers id ws sys E E' Htask Hrun) as (sys1 & Hr1 & Ht1 & Hj1).
  destruct (Hj1 ltac:(eauto)) as [job1 Hjob1].
  set (sys2 := mkSystem (set_job_status id job_complete (jobs sys1))
                        (<[id := Settled]> (tasks sys1))).
  assert (Hstep : sys_step (LSettle id) sys1 = Some sys2)
    by (cbn [sys_step]; by rewrite Ht1, Hdone).
  set (ls := map (LWorker id) ws ++ [LSettle id]).
  assert (Hrun2 : run ls sys = Some sys2).
  { apply (run_app _ _ _ sys1); [done|]. cbn [run]. by rewrite Hstep. }
  assert (Hlabels : Forall (task_label id) ls).
  { apply Forall_app. split; [|by repeat constructor].
    apply Forall_forall. intros l Hl.
    apply list_elem_of_fmap in Hl as (w & -> & _). done. }
  assert (Hnum : Forall numeric_submission ls).
  { eapply Forall_impl; [exact Hlabels|]. by intros [| | | |]. }
  pose proof (run_reachable numeric_submission ls sys sys2 Hnum Hreach Hrun2)
    as Hreach2.
  assert (Hjob2 : jobs sys2 !! id
                  = Some (mkJob (job_id job1) job_complete (totalItems job1)
                            (completedItems job1) (job_items job1)
                            (job_targetFolderId job1) (createdAt job1))).
  { cbn [sys2 jobs]. rewrite set_job_status_lookup, Hjob1.
    by rewrite decide_True. }
  pose proof (reachable_inv sys2 Hreach2 id _ Hjob2) as HS2.
  assert (Ht2 : tasks sys2 !! id = Some Settled)
    by (cbn [sys2 tasks]; by rewrite lookup_insert_eq).
  rewrite Ht2 in HS2. destruct HS2 as [Hc Hall].
  eexists ls, sys2, _. repeat (split; [done|]). done.
Qed.

(** ** Job ids *)

Lemma pretty_N_char_digit x : is_digit (N_of_ascii (pretty_N_char x)) = true.
Proof.
  unfold pretty_N_char.
  repeat match goal with
         | |- context [match ?p with _ => _ end] => destruct p
         end; reflexivity.
Qed.

Lemma pretty_N_go_digits x : forall s,
  forallb is_digit (js s) = true ->
  forallb is_digit (js (pretty_N_go x s)) = true.
Proof.
  induction (N.lt_wf_0 x) as [x _ IH]; intros s Hs.
  destruct (decide (x = 0)%N) as [->|Hx].
  - by rewrite pretty_N_go_0.
  - rewrite pretty_N_go_step by lia. apply IH.
    + apply N.div_lt; lia.
    + unfold js. cbn [list_ascii_of_string map forallb].
      rewrite pretty_N_char_digit. exact Hs.
Qed.

Lemma pretty_N_digits (x : N) : forallb is_digit (js (pretty x)) = true.
Proof.
  unfold pretty, pretty_N. destruct (decide (x = 0)%N); [done|].
  by apply pretty_N_go_digits.
Qed.

Lemma js_inj s1 s2 : js s1 = js s2 -> s1 = s2.
Proof.
  unfold js. revert s2. induction s1 as [|a s1 IH]; intros [|b s2] H;
    cbn in H; try done.
  inversion H as [[Ha Hs]]. f_equal.
  - rewrite <- (ascii_N_embedding a), <- (ascii_N_embedding b). by rewrite Ha.
  - by apply IH.
Qed.

Lemma split_at_first (sep : N) : forall d1 d2 r1 r2 : jsstring,
  ~ In sep d1 -> ~ In sep d2 ->
  d1 ++ sep :: r1 = d2 ++ sep :: r2 -> d1 = d2 /\ r1 = r2.
Proof.
  induction d1 as [|a d1 IH]; intros [|b d2] r1 r2 H1 H2 H; cbn in H.
  - by inversion H.
  - inversion H; subst. exfalso. apply H2. by left.
  - inversion H; subst. exfalso. apply H1. by left.
  - inversion H; subst. destruct (IH d2 r1 r2) as [-> ->]; try done.
    + intros Hin. apply H1. by right.
    + intros Hin. apply H2. by right.
Qed.

Lemma digits_no_underscore (d : jsstring) :
  forallb is_digit d = true -> ~ In 95%N d.
Proof.
  intros Hd Hin. rewrite forallb_forall in Hd. by apply Hd in Hin.
Qed.

(** X22: [generateJobId] is injective: two ids are equal only if they
    were made in the same millisecond and with the same random suffix. *)
Theorem generateJobId_is_injective (t1 t2 : N) (r1 r2 : jsstring) :
  generateJobId t1 r1 = generateJobId t2 r2 -> t1 = t2 /\ r1 = r2.
Proof.
  unfold generateJobId. intros H. apply app_inv_head in H.
  change (js "_" ++ ?r) with (95%N :: r) in H.
  apply split_at_first in H as [Ht Hr];
    try (apply digits_no_underscore, pretty_N_digits).
  split; [|done]. apply js_inj in Ht. by apply (inj pretty) in Ht.
Qed.

Lemma generateJobId_is_injective_witness :
  generateJobId 1700000000000 (js "k3x9f") = demo_id
  /\ (1700000000000%N = 1700000000000%N /\ js "k3x9f" = js "k3x9f").
Proof.
  split; [vm_compute; reflexivity|].
  apply (generateJobId_is_injective 1700000000000 1700000000000
           (js "k3x9f") (js "k3x9f")).
  reflexivity.
Defined.

(** ** The start of [processJob] *)

Lemma engine_run_events_app a b E :
  engine_run_events (a ++ b) E
  = match engine_run_events a E with
    | Some (E1, t1) =>
        match engine_run_events b E1 with
        | Some (E2, t2) => Some (E2, t1 ++ t2)
        | None => None
        end
    | None => None
    end.
Proof.
  revert E. induction a as [|w a IH]; intros E; cbn [app engine_run_events].
  - by destruct (engine_run_events b E) as [[? ?]|].
  - destruct (engine_step w E) as [[E1 oe]|]; [|done]. rewrite IH.
    destruct (engine_run_events a E1) as [[E2 t1]|]; [|done].
    destruct (engine_run_events b E2) as [[E3 t2]|]; [|done]. by destruct oe.
Qed.

Lemma valid_item_starts pct D fuel target item parsed :
  it_parsed item = Some parsed ->
  exists todo,
    actions (snd (process_item pct D fuel target item world0))
    = AEmit (start_event (it_index item)) :: todo.
Proof.
  intros Hp.
  destruct (process_item pct D fuel target item world0) as [r w'] eqn:Hrun.
  destruct (parsed_type parsed) eqn:Ht.
  - destruct (process_item_file_shape _ _ _ _ _ _ _ _ _ Hp Ht Hrun)
      as (_ & k & tail & Ha & _).
    cbn [snd]. rewrite Ha. cbn [world0 actions app]. eauto.
  - destruct (process_item_folder_shape _ _ _ _ _ _ _ _ _ Hp Ht Hrun)
      as (files & k & tail & _ & Ha & _).
    cbn [snd]. rewrite Ha. cbn [world0 actions app]. eauto.
Qed.

Lemma first_await_runs : forall rest E w,
  workers E !! w = Some AtLoopHead ->
  drop (currentIndex E) (eng_items E) = rest ->
  exists E',
    engine_run_events (replicate (fst (first_await rest)) w) E
    = Some (E', first_await_events rest)
    /\ same_config E E'
    /\ currentIndex E' = (currentIndex E + snd (first_await rest))%nat
    /\ length (workers E') = length (workers E)
    /\ (forall w', w' <> w -> workers E' !! w' = workers E !! w').
Proof.
  induction rest as [|item rest IH]; intros E w Hw Hdrop.
  - assert (Hnone : eng_items E !! currentIndex E = None).
    { apply lookup_ge_None. apply drop_nil_inv in Hdrop. lia. }
    cbn [first_await fst snd replicate engine_run_events first_await_events].
    unfold engine_step. rewrite Hw, Hnone.
    eexists. split; [reflexivity|]. unfold set_worker. cbn.
    split; [done|]. split; [lia|]. split; [by rewrite length_insert|].
    intros w' Hne. by rewrite list_lookup_insert_ne.
  - assert (Hitem : eng_items E !! currentIndex E = Some item).
    { pose proof (lookup_drop (eng_items E) (currentIndex E) 0) as Hl.
      rewrite Hdrop, Nat.add_0_r in Hl. by rewrite <- Hl. }
    assert (Hrest : drop (S (currentIndex E)) (eng_items E) = rest).
    { replace (S (currentIndex E)) with (currentIndex E + 1)%nat by lia.
      by rewrite <- drop_drop, Hdrop. }
    pose proof (lookup_lt_Some _ _ _ Hw) as Hlen.
    destruct E as [pct drv fuel tgt items c ws res].
    cbn [workers eng_items currentIndex] in *.
    cbn [first_await first_await_events].
    destruct (it_parsed item) as [parsed|] eqn:Hp.
    + destruct (valid_item_starts pct (drv c) fuel tgt item parsed Hp)
        as (todo & Hact).
      cbn [fst snd replicate engine_run_events].
      unfold engine_step at 1. cbn [workers eng_items currentIndex].
      rewrite Hw, Hitem. unfold run_item.
      cbn [eng_percent eng_drive eng_fuel eng_target].
      destruct (process_item pct (drv c) fuel tgt item world0) as [r wd].
      cbn [snd] in Hact. rewrite Hact.
      unfold engine_step at 1. cbn [workers].
      rewrite list_lookup_insert_eq by done.
      unfold set_worker. cbn.
      eexists. split; [reflexivity|]. cbn.
      split; [done|]. split; [lia|].
      split; [by rewrite !length_insert|].
      intros w' Hne. by rewrite !list_lookup_insert_ne.
    + destruct (first_await rest) as [n k] eqn:Hfa.
      cbn [fst snd].
      change (replicate (4 + n) w) with ([w; w; w; w] ++ replicate n w).
      rewrite engine_run_events_app.
      cbn [engine_run_events].
      unfold engine_step at 1. cbn [workers eng_items currentIndex].
      rewrite Hw, Hitem. unfold run_item.
      cbn [eng_percent eng_drive eng_fuel eng_target].
      rewrite process_item_invalid by done.
      unfold failure, add_actions. cbn [world0 actions app fst snd is_val].
      unfold engine_step at 1. cbn [workers results].
      rewrite list_lookup_insert_eq by done.
      unfold engine_step at 1. cbn [workers results].
      rewrite list_lookup_insert_eq by (by rewrite length_insert).
      unfold set_worker. cbn [workers eng_percent eng_drive eng_fuel
        eng_target eng_items currentIndex results].
      unfold engine_step at 1. cbn [workers].
      rewrite list_lookup_insert_eq by (by rewrite !length_insert).
      unfold set_worker. cbn [workers eng_percent eng_drive eng_fuel
        eng_target eng_items currentIndex results].
      match goal with
      | |- context [engine_run_events (replicate n w) ?E4] =>
          destruct (IH E4 w) as (E' & Hrun & Hcfg & Hcur & Hlen' & Hoth)
      end.
      { cbn [workers]. rewrite list_lookup_insert_eq; [done|].
        by rewrite !length_insert. }
      { cbn [eng_items currentIndex]. exact Hrest. }
      cbn [fst snd] in Hrun, Hcur.
      rewrite Hrun. cbn [currentIndex workers] in Hcur, Hlen', Hoth.
      exists E'. split; [reflexivity|].
      split; [exact Hcfg|]. split; [cbn [currentIndex]; lia|].
      split; [by rewrite Hlen', !length_insert|].
      intros w' Hne. rewrite Hoth by done.
      by rewrite !list_lookup_insert_ne.
Qed.

Lemma same_config_trans E0 E1 E2 :
  same_config E0 E1 -> same_config E1 E2 -> same_config E0 E2.
Proof.
  intros (a1 & a2 & a3 & a4 & a5) (b1 & b2 & b3 & b4 & b5).
  repeat split; congruence.
Qed.

Lemma start_schedule_runs : forall k E w,
  (forall w', (w <= w' < w + k)%nat -> workers E !! w' = Some AtLoopHead) ->
  exists E',
    engine_run_events
      (start_schedule k w (drop (currentIndex E) (eng_items E))) E
    = Some (E', start_events k (drop (currentIndex E) (eng_items E)))
    /\ same_config E E'
    /\ length (workers E') = length (workers E).
Proof.
  induction k as [|k IH]; intros E w Hws.
  - exists E. cbn. split; [done|]. split; [|done]. by repeat split.
  - cbn [start_schedule start_events].
    destruct (first_await_runs _ E w (Hws w ltac:(lia)) eq_refl)
      as (E1 & Hrun & Hcfg & Hcur & Hlen & Hoth).
    destruct (first_await (drop (currentIndex E) (eng_items E)))
      as [n c] eqn:Hfa.
    cbn [fst snd] in *.
    destruct (IH E1 (S w)) as (E2 & Hrun2 & Hcfg2 & Hlen2).
    { intros w' Hw'. rewrite Hoth by lia. apply Hws. lia. }
    assert (Hd : drop (currentIndex E1) (eng_items E1)
                 = drop c (drop (currentIndex E) (eng_items E))).
    { destruct Hcfg as (_ & _ & _ & _ & ->). by rewrite drop_drop, Hcur. }
    rewrite Hd in Hrun2.
    rewrite engine_run_events_app, Hrun, Hrun2.
    exists E2. split; [done|].
    split; [by eapply same_config_trans|]. by rewrite Hlen2.
Qed.

Lemma processJob_start_runs E0 :
  currentIndex E0 = 0%nat ->
  (forall w x, workers E0 !! w = Some x -> x = AtLoopHead) ->
  exists E,
    engine_run_events
      (start_schedule (length (workers E0)) 0 (eng_items E0)) E0
    = Some (E, start_events (length (workers E0)) (eng_items E0))
    /\ processJob_start E0
       = (E, start_events (length (workers E0)) (eng_items E0))
    /\ same_config E0 E.
Proof.
  intros Hc Hws.
  destruct (start_schedule_runs (length (workers E0)) E0 0)
    as (E & Hrun & Hcfg & _).
  { intros w' Hw'.
    destruct (lookup_lt_is_Some_2 (workers E0) w' ltac:(lia)) as [x Hx].
    by rewrite Hx, (Hws _ _ Hx). }
  rewrite Hc, !drop_0 in Hrun.
  exists E. split; [exact Hrun|]. split; [|exact Hcfg].
  unfold processJob_start. by rewrite Hrun.
Qed.

Lemma batchCopy_start_at_loop_head pct drive fuel urls target concurrency :
  let E0 := batchCopy_start pct drive fuel urls target concurrency in
  currentIndex E0 = 0%nat
  /\ forall w x, workers E0 !! w = Some x -> x = AtLoopHead.
Proof.
  split; [done|]. intros w x H. cbn [batchCopy_start workers] in H.
  by apply lookup_replicate in H as [-> _].
Qed.

(** ** The server and the steps of [sys_step]

    As long as no job id is handed out twice, what the server does is a
    run of [sys_step]: a submission is the step [LSubmit] followed by the
    steps of the workers up to their first [await]. *)

Lemma view_lookup (l : list (jsstring * Task)) p id t :
  NoDup (map fst l) -> l !! p = Some (id, t) ->
  (list_to_map l : gmap jsstring Task) !! id = Some t.
Proof.
  intros Hnd Hl. apply elem_of_list_to_map_1; [done|].
  by eapply list_elem_of_lookup_2.
Qed.

Lemma view_insert : forall (l : list (jsstring * Task)) p id t t',
  NoDup (map fst l) -> l !! p = Some (id, t) ->
  (list_to_map (<[p := (id, t')]> l) : gmap jsstring Task)
  = <[id := t']> (list_to_map l).
Proof.
  induction l as [|[k x] l IH]; intros [|p] id t t' Hnd Hl; try done.
  - cbn in Hl. inversion Hl; subst.
    change (<[0%nat := (id, t')]> ((id, t) :: l)) with ((id, t') :: l).
    by rewrite !list_to_map_cons, insert_insert_eq.
  - change (<[S p := (id, t')]> ((k, x) :: l))
      with ((k, x) :: <[p := (id, t')]> l).
    cbn in Hl, Hnd. apply NoDup_cons in Hnd as [Hk Hnd].
    rewrite !list_to_map_cons, (IH p id t t') by done.
    apply insert_insert_ne. intros ->. apply Hk.
    apply list_elem_of_fmap. exists (id, t). split; [done|].
    by eapply list_elem_of_lookup_2.
Qed.

Lemma promises_insert_ids (l : list (jsstring * Task)) p id t t' :
  l !! p = Some (id, t) -> map fst (<[p := (id, t')]> l) = map fst l.
Proof.
  intros Hl. change (map fst ?x) with (fst <$> x).
  rewrite list_fmap_insert. apply list_insert_id.
  by rewrite list_lookup_fmap, Hl.
Qed.

Lemma run_workers_events id : forall ws sys E E' tr,
  tasks sys !! id = Some (Running E) ->
  engine_run_events ws E = Some (E', tr) ->
  run (map (LWorker id) ws) sys
  = Some (mkSystem (foldl (fun m e => progress_sink id e m) (jobs sys) tr)
                   (<[id := Running E']> (tasks sys))).
Proof.
  induction ws as [|w ws IH]; intros sys E E' tr Ht Hrun;
    cbn [engine_run_events map run] in *.
  - inversion Hrun; subst. cbn [foldl]. rewrite insert_id by done.
    by destruct sys.
  - destruct (engine_step w E) as [[E1 oe]|] eqn:Hs; [|discriminate].
    destruct (engine_run_events ws E1) as [[E2 tr1]|] eqn:Hr; [|discriminate].
    inversion Hrun; subst; clear Hrun.
    cbn [sys_step]. rewrite Ht, Hs.
    erewrite IH; [|by cbn [tasks]; rewrite lookup_insert_eq|exact Hr].
    cbn [jobs tasks]. rewrite insert_insert_eq. by destruct oe.
Qed.

Lemma foldl_sink_lookup id : forall events (m : gmap jsstring CopyJob) job,
  m !! id = Some job ->
  exists job',
    foldl (fun m e => progress_sink id e m) m events !! id = Some job'
    /\ same_identity job job'.
Proof.
  induction events as [|e events IH]; intros m job Hm; cbn [foldl].
  - exists job. split; [done|apply same_identity_refl].
  - destruct (updateJobItem_is_Some id (ev_index e)
                (mkUpdates (Some (ev_status e)) (Some (ev_progress e))
                   (Some (ev_message e))) m id ltac:(eauto)) as [job1 H1].
    destruct (updateJobItem_identity _ _ _ _ _ _ _ Hm H1) as [Hid _].
    destruct (IH _ _ H1) as (job' & H' & Hid').
    exists job'. split; [exact H'|]. by eapply same_identity_trans.
Qed.

Lemma foldl_sink_other id other : forall events (m : gmap jsstring CopyJob),
  other <> id ->
  foldl (fun m e => progress_sink id e m) m events !! other = m !! other.
Proof.
  induction events as [|e events IH]; intros m Hne; cbn [foldl]; [done|].
  rewrite IH by done. by apply updateJobItem_other.
Qed.

(** What [POST] does to the server, and what the step [LSubmit] does to
    its view. *)
Lemma server_POST_cases env body s :
  let id := generateJobId (env_timestamp env) (env_random env) in
  Server.POST env body s = (fst (Server.POST env body s), s)
  /\ (forall jobId st target,
         fst (Server.POST env body s) <> Http200 jobId st target)
  \/ exists urls folderId E,
       let safe := Math_max (JsInt COPY_CONFIG.MIN_CONCURRENCY)
                     (Math_min
                        (default (JsInt COPY_CONFIG.DEFAULT_CONCURRENCY)
                           (req_concurrency body))
                        (JsInt COPY_CONFIG.MAX_CONCURRENCY)) in
       let E0 := batchCopy_start (env_percent env) (env_item_drive env)
                   (env_fuel env) urls folderId safe in
       let events := start_events (length (workers E0)) (eng_items E0) in
       let job := new_job id urls folderId (env_createdAt env) in
       req_urls body = Some urls /\ urls <> []
       /\ fst (resolve_folder env (req_targetFolderId body)
                 (req_targetFolderName body) world0) = Val folderId
       /\ engine_run_events
            (start_schedule (length (workers E0)) 0 (eng_items E0)) E0
          = Some (E, events)
       /\ same_config E0 E
       /\ Server.POST env body s
          = (Http200 id job_processing folderId,
             Server.mkState
               (foldl (fun m e => progress_sink id e m)
                  (<[id := job]> (Server.srv_jobs s)) events)
               (Server.srv_promises s ++ [(id, Running E)]))
       /\ snd (POST env body (Server.view s))
          = mkSystem (<[id := job]> (Server.srv_jobs s))
                     (<[id := Running E0]>
                        (list_to_map (Server.srv_promises s))).
Proof.
  intros id. unfold Server.POST, POST.
  destruct (req_urls body) as [[|u urls]|] eqn:Hurls; [by left| |by left].
  unfold Server.createJob, createJob. fold id.
  destruct (fst (resolve_folder env (req_targetFolderId body)
                   (req_targetFolderName body) world0))
    as [folderId|e|] eqn:Hfolder; [|by left..].
  right. exists (u :: urls), folderId.
  set (safe := Math_max _ _).
  set (E0 := batchCopy_start _ _ _ _ _ safe).
  destruct (batchCopy_start_at_loop_head (env_percent env)
              (env_item_drive env) (env_fuel env) (u :: urls) folderId safe)
    as [Hc Hws].
  destruct (processJob_start_runs E0 Hc Hws) as (E & Hrun & Hstart & Hcfg).
  exists E. cbv zeta. fold E0. rewrite Hstart.
  split; [done|]. split; [done|]. split; [done|]. split; [exact Hrun|].
  split; [exact Hcfg|]. split.
  - unfold getJob. cbn [Server.srv_jobs].
    destruct (foldl_sink_lookup id
                (start_events (length (workers E0)) (eng_items E0))
                (<[id := new_job id (u :: urls) folderId (env_createdAt env)]>
                   (Server.srv_jobs s)) _ (lookup_insert_eq _ _ _))
      as (job' & -> & (_ & _ & -> & _)). done.
  - unfold getJob. cbn [jobs Server.view]. by rewrite lookup_insert_eq.
Qed.

Lemma server_step_ids ev s s' :
  Server.step ev s = Some s' ->
  exists extra,
    map fst (Server.srv_promises s')
    = map fst (Server.srv_promises s) ++ extra.
Proof.
  destruct ev as [env body|p w|p|jobId|now maxAgeMs]; cbn [Server.step].
  - intros [= <-].
    destruct (server_POST_cases env body s)
      as [[-> _]|(urls & folderId & E & _ & _ & _ & _ & _ & -> & _)];
      cbn [snd Server.srv_promises].
    + exists []. by rewrite app_nil_r.
    + eexists. by rewrite map_app.
  - destruct (Server.srv_promises s !! p) as [[id [E|]]|] eqn:Hp;
      try discriminate.
    destruct (engine_step w E) as [[E' oe]|]; [|discriminate].
    intros [= <-]. cbn [Server.srv_promises]. exists [].
    by rewrite app_nil_r, (promises_insert_ids _ _ _ _ _ Hp).
  - destruct (Server.srv_promises s !! p) as [[id [E|]]|] eqn:Hp;
      try discriminate.
    destruct (engine_done E); [|discriminate].
    intros [= <-]. cbn [Server.srv_promises]. exists [].
    by rewrite app_nil_r, (promises_insert_ids _ _ _ _ _ Hp).
  - intros [= <-]. exists []. by rewrite app_nil_r.
  - intros [= <-]. exists []. by rewrite app_nil_r.
Qed.

Lemma ids_distinct_before ev s s' :
  Server.step ev s = Some s' ->
  Server.ids_distinct s' -> Server.ids_distinct s.
Proof.
  intros Hstep. destruct (server_step_ids _ _ _ Hstep) as [extra Hids].
  unfold Server.ids_distinct. rewrite Hids. by intros [? _]%NoDup_app.
Qed.

Lemma ids_distinct_run evs : forall s s',
  Server.run evs s = Some s' ->
  Server.ids_distinct s' -> Server.ids_distinct s.
Proof.
  induction evs as [|ev evs IH]; intros s s' Hrun Hd; cbn [Server.run] in Hrun.
  - by inversion Hrun; subst.
  - destruct (Server.step ev s) as [s1|] eqn:Hstep; [|discriminate].
    eapply ids_distinct_before; [exact Hstep|]. by eapply IH.
Qed.

(** One event of the server, seen through [view]. *)
Lemma sim_step ev s s' :
  Server.step ev s = Some s' ->
  Server.ids_distinct s' ->
  exists ls,
    run ls (Server.view s) = Some (Server.view s')
    /\ (Server.numeric ev -> Forall numeric_submission ls).
Proof.
  intros Hstep Hd'. pose proof (ids_distinct_before _ _ _ Hstep Hd') as Hd.
  destruct ev as [env body|p w|p|jobId|now maxAgeMs]; cbn [Server.step] in Hstep.
  - injection Hstep as <-.
    destruct (server_POST_cases env body s)
      as [[Heq _]|(urls & folderId & E & _ & _ & _ & Hrun & _ & Heq & Hold)].
    + rewrite Heq. cbn [snd]. exists []. split; [done|]. by constructor.
    + rewrite Heq in Hd' |- *. cbn [snd] in *.
      set (id := generateJobId (env_timestamp env) (env_random env)) in *.
      assert (Hfresh : id ∉ map fst (Server.srv_promises s)).
      { unfold Server.ids_distinct in Hd'. cbn [Server.srv_promises] in Hd'.
        rewrite map_app in Hd'. apply NoDup_app in Hd' as (_ & Hnot & _).
        intros Hin. apply (Hnot _ Hin). cbn. by left. }
      eexists (LSubmit env body :: map (LWorker id) _).
      split.
      * cbn [run sys_step]. fold id. cbn [Server.view tasks].
        rewrite (not_elem_of_list_to_map_1 _ _ Hfresh).
        change (mkSystem (Server.srv_jobs s)
                  (list_to_map (Server.srv_promises s)))
          with (Server.view s).
        rewrite Hold.
        erewrite run_workers_events;
          [|by cbn [tasks]; rewrite lookup_insert_eq|exact Hrun].
        unfold Server.view. cbn [jobs tasks Server.srv_jobs Server.srv_promises].
        by rewrite insert_insert_eq, list_to_map_snoc.
      * intros Hnum. constructor; [exact Hnum|].
        apply Forall_forall. intros l Hl.
        by apply list_elem_of_fmap in Hl as (w & -> & _).
  - destruct (Server.srv_promises s !! p) as [[id [E|]]|] eqn:Hp;
      try discriminate.
    destruct (engine_step w E) as [[E' oe]|] eqn:Hs; [|discriminate].
    injection Hstep as <-. exists [LWorker id w]. split; [|by repeat constructor].
    unfold Server.view.
    cbn [run sys_step tasks jobs Server.srv_jobs Server.srv_promises].
    rewrite (view_lookup _ _ _ _ Hd Hp), Hs.
    by rewrite (view_insert _ _ _ _ _ Hd Hp).
  - destruct (Server.srv_promises s !! p) as [[id [E|]]|] eqn:Hp;
      try discriminate.
    destruct (engine_done E) eqn:Hdone; [|discriminate].
    injection Hstep as <-. exists [LSettle id]. split; [|by repeat constructor].
    unfold Server.view.
    cbn [run sys_step tasks jobs Server.srv_jobs Server.srv_promises].
    rewrite (view_lookup _ _ _ _ Hd Hp), Hdone.
    by rewrite (view_insert _ _ _ _ _ Hd Hp).
  - injection Hstep as <-. exists [LDelete jobId].
    split; [done|by repeat constructor].
  - injection Hstep as <-. exists [LClear now maxAgeMs].
    split; [done|by repeat constructor].
Qed.

Lemma sim_run evs : forall s s',
  Server.run evs s = Some s' ->
  Server.ids_distinct s' ->
  exists ls,
    run ls (Server.view s) = Some (Server.view s')
    /\ (Forall Server.numeric evs -> Forall numeric_submission ls).
Proof.
  induction evs as [|ev evs IH]; intros s s' Hrun Hd; cbn [Server.run] in Hrun.
  - inversion Hrun; subst. exists []. split; [done|]. by constructor.
  - destruct (Server.step ev s) as [s1|] eqn:Hstep; [|discriminate].
    destruct (IH _ _ Hrun Hd) as (ls2 & Hrun2 & Hnum2).
    pose proof (ids_distinct_run _ _ _ Hrun Hd) as Hd1.
    destruct (sim_step _ _ _ Hstep Hd1) as (ls1 & Hrun1 & Hnum1).
    exists (ls1 ++ ls2). split; [by eapply run_app|].
    intros Hnum. inversion Hnum; subst. apply Forall_app. auto.
Qed.

(** A state of the server without a repeated job id is, seen through
    [view], a state that [sys_step] reaches. *)
Lemma server_view_reachable evs s :
  Server.run evs Server.initial = Some s ->
  Server.ids_distinct s ->
  reachable (Server.view s)
  /\ (Forall Server.numeric evs ->
      reachable_by numeric_submission (Server.view s)).
Proof.
  intros Hrun Hd. destruct (sim_run _ _ _ Hrun Hd) as (ls & Hls & Hnum).
  split.
  - eapply (run_reachable (fun _ => True) ls initial_system);
      [by apply Forall_forall|apply reach_init|exact Hls].
  - intros Hn. eapply (run_reachable numeric_submission ls initial_system);
      [by apply Hnum|apply reach_init|exact Hls].
Qed.

(** ** Job records, as long as job ids are not repeated *)

(** X15: as long as no two submissions were given the same job id, and
    the concurrency of every submission is a number, [completedItems] of
    every record is the number of its items whose status is Success or
    Error, and it does not exceed [totalItems]. *)
Theorem completedItems_counts_terminal_items evs s id job :
  Server.run evs Server.initial = Some s ->
  Forall Server.numeric evs ->
  Server.ids_distinct s ->
  Server.srv_jobs s !! id = Some job ->
  completedItems job = count_terminal (job_items job)
  /\ (completedItems job <= totalItems job)%nat.
Proof.
  intros Hrun Hnum Hd Hjob.
  destruct (server_view_reachable _ _ Hrun Hd) as [_ Hreach].
  exact (sys_completedItems_counts_terminal (Server.view s) id job
           (Hreach Hnum) Hjob).
Qed.

Lemma completedItems_counts_terminal_items_witness :
  exists job,
    Server.run (take 3 demo_events) Server.initial = Some demo_midway
    /\ Server.srv_jobs demo_midway !! demo_id = Some job
    /\ completedItems job = 1%nat
    /\ completedItems job = count_terminal (job_items job)
    /\ (completedItems job <= totalItems job)%nat.
Proof.
  assert (Hrun : Server.run (take 3 demo_events) Server.initial
                 = Some demo_midway) by (vm_compute; reflexivity).
  eexists. split; [exact Hrun|]. split; [vm_compute; reflexivity|].
  split; [reflexivity|].
  eapply (completedItems_counts_terminal_items (take 3 demo_events)
            demo_midway demo_id).
  - exact Hrun.
  - vm_compute. repeat constructor; discriminate.
  - unfold Server.ids_distinct.
    replace (map fst (Server.srv_promises demo_midway)) with [demo_id]
      by (vm_compute; reflexivity).
    apply NoDup_singleton.
  - vm_compute. reflexivity.
Defined.

(** X27: [createJob] does not look whether the generated id is in use.
    When two submissions are given the same id, the record of the second
    replaces the record of the first, and the [processJob] of the first
    goes on and writes to the new record: here it reports Success for the
    first item, which sets [completedItems] to 1, and then the worker of
    the second submission reports its progress on that item, so that the
    record shows [completedItems = 1] with no item in a final status.
    The concurrency of both submissions is a number. *)
Theorem repeated_job_id_breaks_the_count :
  exists job,
    Server.run twin_events Server.initial = Some twin_server
    /\ Forall Server.numeric twin_events
    /\ map fst (Server.srv_promises twin_server) = [demo_id; demo_id]
    /\ Server.srv_jobs twin_server !! demo_id = Some job
    /\ completedItems job = 1%nat
    /\ count_terminal (job_items job) = 0%nat
    /\ map item_status (job_items job) = [st_processing; st_processing]
    /\ job_status job = job_processing.
Proof.
  eexists. split; [vm_compute; reflexivity|].
  split; [vm_compute; repeat constructor; discriminate|].
  split; [vm_compute; reflexivity|].
  split; [vm_compute; reflexivity|].
  repeat split; reflexivity.
Qed.

(** X16: as long as no two submissions were given the same job id, a job
    record that is still in the registry keeps its id, its [totalItems],
    its target folder, its creation date, the number of its items and
    the index, the url, the result and the error of every item; and a
    job that reports Complete reports Complete ever after. *)
Theorem job_identity_is_stable evs0 evs s s' id job job' :
  Server.run evs0 Server.initial = Some s ->
  Server.run evs s = Some s' ->
  Server.ids_distinct s' ->
  Server.srv_jobs s !! id = Some job ->
  Server.srv_jobs s' !! id = Some job' ->
  same_identity job job'
  /\ (job_status job = job_complete -> job_status job' = job_complete).
Proof.
  intros Hrun0 Hrun Hd' Hjob Hjob'.
  pose proof (ids_distinct_run _ _ _ Hrun Hd') as Hd.
  destruct (server_view_reachable _ _ Hrun0 Hd) as [Hreach _].
  destruct (sim_run _ _ _ Hrun Hd') as (ls & Hls & _).
  exact (sys_job_identity_stable ls (Server.view s) (Server.view s') id job
           job' Hreach Hls Hjob Hjob').
Qed.

Lemma job_identity_is_stable_witness :
  exists job job',
    Server.run (take 1 demo_events) Server.initial = Some demo_started
    /\ Server.run (drop 1 demo_events) demo_started = Some demo_server
    /\ Server.srv_jobs demo_started !! demo_id = Some job
    /\ Server.srv_jobs demo_server !! demo_id = Some job'
    /\ same_identity job job'
    /\ job_status job = job_processing
    /\ job_status job' = job_complete.
Proof.
  eexists _, _.
  split; [vm_compute; reflexivity|].
  split; [vm_compute; reflexivity|].
  split; [vm_compute; reflexivity|].
  split; [vm_compute; reflexivity|].
  split; [|split; reflexivity].
  eapply (fun H0 H1 H2 H3 H4 =>
            proj1 (job_identity_is_stable (take 1 demo_events)
                     (drop 1 demo_events) demo_started demo_server demo_id
                     _ _ H0 H1 H2 H3 H4)).
  - vm_compute. reflexivity.
  - vm_compute. reflexivity.
  - unfold Server.ids_distinct.
    replace (map fst (Server.srv_promises demo_server)) with [demo_id]
      by (vm_compute; reflexivity).
    apply NoDup_singleton.
  - vm_compute. reflexivity.
  - vm_compute. reflexivity.
Defined.

(** X17: as long as no two submissions were given the same job id, and
    the concurrency of every submission is a number, an item that has
    reached Success or Error is not written again: while the record of
    its job is there, the item keeps its status, its progress and its
    message. *)
Theorem terminal_items_are_final evs0 evs s s' id job job' i item :
  Server.run evs0 Server.initial = Some s ->
  Forall Server.numeric evs0 ->
  Server.run evs s = Some s' ->
  Forall Server.numeric evs ->
  Server.ids_distinct s' ->
  Server.srv_jobs s !! id = Some job ->
  Server.srv_jobs s' !! id = Some job' ->
  job_items job !! i = Some item ->
  is_terminal (item_status item) = true ->
  job_items job' !! i = Some item.
Proof.
  intros Hrun0 Hnum0 Hrun Hnum Hd' Hjob Hjob' Hitem Hterm.
  pose proof (ids_distinct_run _ _ _ Hrun Hd') as Hd.
  destruct (server_view_reachable _ _ Hrun0 Hd) as [_ Hreach].
  destruct (sim_run _ _ _ Hrun Hd') as (ls & Hls & Hnumls).
  exact (sys_terminal_items_final ls (Server.view s) (Server.view s') id job
           job' i item (Hreach Hnum0) (Hnumls Hnum) Hls Hjob Hjob' Hitem
           Hterm).
Qed.

Lemma terminal_items_are_final_witness :
  exists job job' item,
    Server.srv_jobs demo_started !! demo_id = Some job
    /\ job_items job !! 1%nat = Some item
    /\ item_status item = st_error
    /\ Server.srv_jobs demo_server !! demo_id = Some job'
    /\ job_items job' !! 1%nat = Some item.
Proof.
  eexists _, _, _.
  split; [vm_compute; reflexivity|].
  split; [vm_compute; reflexivity|].
  split; [reflexivity|].
  split; [vm_compute; reflexivity|].
  eapply (terminal_items_are_final (take 1 demo_events) (drop 1 demo_events)
            demo_started demo_server demo_id).
  - vm_compute. reflexivity.
  - vm_compute. repeat constructor; discriminate.
  - vm_compute. reflexivity.
  - vm_compute. repeat constructor; discriminate.
  - unfold Server.ids_distinct.
    replace (map fst (Server.srv_promises demo_server)) with [demo_id]
      by (vm_compute; reflexivity).
    apply NoDup_singleton.
  - vm_compute. reflexivity.
  - vm_compute. reflexivity.
  - vm_compute. reflexivity.
  - reflexivity.
Defined.

(** ** Every accepted job can complete *)

Lemma lift_task_run p id : forall ls s sys',
  Server.ids_distinct s ->
  (exists t, Server.srv_promises s !! p = Some (id, t)) ->
  Forall (task_label id) ls ->
  run ls (Server.view s) = Some sys' ->
  exists evs s',
    Forall (Server.of_promise p) evs
    /\ Server.run evs s = Some s'
    /\ Server.view s' = sys'
    /\ Server.ids_distinct s'
    /\ exists t', Server.srv_promises s' !! p = Some (id, t').
Proof.
  induction ls as [|l ls IH]; intros s sys' Hd [t Hp] Hls Hrun;
    cbn [run] in Hrun.
  - inversion Hrun; subst. exists [], s. split; [by constructor|]. eauto.
  - inversion Hls as [|? ? Hl Hls']; subst.
    destruct (sys_step l (Server.view s)) as [sys1|] eqn:Hstep;
      [|discriminate].
    pose proof (lookup_lt_Some _ _ _ Hp) as Hlen.
    assert (Hnext : exists ev s1,
               Server.of_promise p ev /\ Server.step ev s = Some s1
               /\ Server.view s1 = sys1
               /\ exists t1, Server.srv_promises s1
                             = <[p := (id, t1)]> (Server.srv_promises s)).
    { destruct l as [env body|jobId w|jobId|jobId|now maxAgeMs];
        cbn [task_label] in Hl; try done; subst jobId;
        cbn [sys_step] in Hstep; unfold Server.view in Hstep;
        cbn [tasks jobs] in Hstep;
        rewrite (view_lookup _ _ _ _ Hd Hp) in Hstep;
        destruct t as [E|]; try discriminate.
      - destruct (engine_step w E) as [[E' oe]|] eqn:Hs; [|discriminate].
        injection Hstep as <-.
        eexists (Server.Proceed p w), _. split; [done|].
        cbn [Server.step]. rewrite Hp, Hs. split; [reflexivity|].
        split; [|by eexists].
        unfold Server.view. cbn [Server.srv_jobs Server.srv_promises].
        by rewrite (view_insert _ _ _ _ _ Hd Hp).
      - destruct (engine_done E) eqn:Hdone; [|discriminate].
        injection Hstep as <-.
        eexists (Server.Settle p), _. split; [done|].
        cbn [Server.step]. rewrite Hp, Hdone. split; [reflexivity|].
        split; [|by eexists].
        unfold Server.view. cbn [Server.srv_jobs Server.srv_promises].
        by rewrite (view_insert _ _ _ _ _ Hd Hp). }
    destruct Hnext as (ev & s1 & Hev & Hstep1 & Hview & t1 & Hprom).
    destruct (IH s1 sys') as (evs & s' & Hevs & Hrun' & Hview' & Hd' & Hp').
    + unfold Server.ids_distinct.
      by rewrite Hprom, (promises_insert_ids _ _ _ _ _ Hp).
    + exists t1. rewrite Hprom. by apply list_lookup_insert_eq.
    + done.
    + by rewrite Hview.
    + exists (ev :: evs), s'. split; [by constructor|].
      cbn [Server.run]. rewrite Hstep1. eauto.
Qed.

(** X26: as long as no two submissions were given the same job id, and
    the concurrency of every submission is a number, a job whose record
    is in the registry, whose [batchCopy] is running and whose items all
    come back can always be completed: there are steps of its own promise,
    the steps of the workers and the end of [processJob], after which the
    job reports Complete with [completedItems = totalItems] and every item
    Success or Error. *)
Theorem accepted_job_can_complete evs0 s p id E :
  Server.run evs0 Server.initial = Some s ->
  Forall Server.numeric evs0 ->
  Server.ids_distinct s ->
  Server.srv_promises s !! p = Some (id, Running E) ->
  is_Some (Server.srv_jobs s !! id) ->
  (forall i, (i < length (eng_items E))%nat -> halts E i = true) ->
  exists evs s' job',
    Forall (Server.of_promise p) evs
    /\ Server.run evs s = Some s'
    /\ Server.srv_promises s' !! p = Some (id, Settled)
    /\ Server.srv_jobs s' !! id = Some job'
    /\ job_status job' = job_complete
    /\ completedItems job' = totalItems job'
    /\ Forall (fun item => is_terminal (item_status item) = true)
              (job_items job').
Proof.
  intros Hrun0 Hnum0 Hd Hp Hjob Hhalt.
  destruct (server_view_reachable _ _ Hrun0 Hd) as [_ Hreach].
  destruct (sys_job_can_complete (Server.view s) id E (Hreach Hnum0)
              (view_lookup _ _ _ _ Hd Hp) Hjob Hhalt)
    as (ls & sys' & job' & Hls & Hrun & Htask & Hjob' & Hst & Hc & Hall).
  destruct (lift_task_run p id ls s sys' Hd ltac:(eauto) Hls Hrun)
    as (evs & s' & Hevs & Hrun' & <- & Hd' & t' & Hp').
  exists evs, s', job'. split; [done|]. split; [done|].
  split; [|done].
  unfold Server.view in Htask. cbn [tasks] in Htask.
  rewrite (view_lookup _ _ _ _ Hd' Hp') in Htask. congruence.
Qed.

Lemma accepted_job_can_complete_witness :
  exists evs s' job',
    Forall (Server.of_promise 0) evs
    /\ Server.run evs demo_started = Some s'
    /\ Server.srv_jobs s' !! demo_id = Some job'
    /\ job_status job' = job_complete
    /\ completedItems job' = totalItems job'.
Proof.
  edestruct (accepted_job_can_complete (take 1 demo_events) demo_started
               0%nat demo_id)
    as (evs & s' & job' & H1 & H2 & _ & H4 & H5 & H6 & _).
  - vm_compute. reflexivity.
  - vm_compute. repeat constructor; discriminate.
  - unfold Server.ids_distinct.
    replace (map fst (Server.srv_promises demo_started)) with [demo_id]
      by (vm_compute; reflexivity).
    apply NoDup_singleton.
  - vm_compute. reflexivity.
  - eexists. vm_compute. reflexivity.
  - intros i Hi. destruct i as [|[|i]];
      [vm_compute; reflexivity|vm_compute; reflexivity|].
    exfalso. vm_compute in Hi. lia.
  - exists evs, s', job'. repeat (split; [done|]). done.
Defined.

(** ** The record of a submission when [POST] answers *)

Lemma first_await_events_shape rest :
  Forall (fun e => e = start_event (ev_index e)
                   \/ e = error_event (ev_index e)
                            (js "Invalid Google Drive URL"))
         (first_await_events rest).
Proof.
  induction rest as [|item rest IH]; cbn [first_await_events];
    [by constructor|].
  destruct (it_parsed item).
  - constructor; [by left|by constructor].
  - constructor; [by right|exact IH].
Qed.

Lemma start_events_shape k : forall rest,
  Forall (fun e => e = start_event (ev_index e)
                   \/ e = error_event (ev_index e)
                            (js "Invalid Google Drive URL"))
         (start_events k rest).
Proof.
  induction k as [|k IH]; intros rest; cbn [start_events]; [by constructor|].
  apply Forall_app. split; [apply first_await_events_shape|apply IH].
Qed.

Lemma sink_at_start (id : jsstring) (e : ProgressEvent)
    (m : gmap jsstring CopyJob) (job job' : CopyJob) :
  e = start_event (ev_index e)
  \/ e = error_event (ev_index e) (js "Invalid Google Drive URL") ->
  m !! id = Some job ->
  Forall item_at_start (job_items job) ->
  progress_sink id e m !! id = Some job' ->
  Forall item_at_start (job_items job').
Proof.
  intros He Hm Hall H. unfold progress_sink in H.
  apply updateJobItem_lookup in H as (job0 & Hjob0 & H).
  rewrite Hm in Hjob0. inversion Hjob0; subst job0; clear Hjob0.
  destruct H as [->|(_ & item & Hitem & -> & _)]; [done|].
  apply Forall_insert; [done|].
  unfold item_at_start, assign.
  cbn [item_status item_progress item_message upd_status upd_progress
       upd_message default].
  destruct He as [-> | ->]; cbn [start_event error_event ev_status
    ev_progress ev_message]; [right; left|right; right]; done.
Qed.

Lemma foldl_sink_at_start (id : jsstring) :
  forall events (m : gmap jsstring CopyJob) (job job' : CopyJob),
  Forall (fun e => e = start_event (ev_index e)
                   \/ e = error_event (ev_index e)
                            (js "Invalid Google Drive URL")) events ->
  m !! id = Some job ->
  Forall item_at_start (job_items job) ->
  foldl (fun m e => progress_sink id e m) m events !! id = Some job' ->
  Forall item_at_start (job_items job').
Proof.
  induction events as [|e events IH]; intros m job job' Hev Hm Hall H;
    cbn [foldl] in H.
  - congruence.
  - inversion Hev as [|? ? He Hev']; subst.
    destruct (updateJobItem_is_Some id (ev_index e)
                (mkUpdates (Some (ev_status e)) (Some (ev_progress e))
                   (Some (ev_message e))) m id ltac:(eauto)) as [job1 H1].
    eapply (IH _ job1 job' Hev' H1); [|exact H].
    by eapply (sink_at_start id e m job job1).
Qed.

Lemma sink_keeps_started (id : jsstring) (e : ProgressEvent)
    (m : gmap jsstring CopyJob) (i : nat) :
  ev_status e <> st_pending ->
  (exists job item,
      m !! id = Some job /\ job_items job !! i = Some item
      /\ item_status item <> st_pending) ->
  exists job item,
    progress_sink id e m !! id = Some job /\ job_items job !! i = Some item
    /\ item_status item <> st_pending.
Proof.
  intros He (job & item & Hm & Hitem & Hst).
  destruct (updateJobItem_is_Some id (ev_index e)
              (mkUpdates (Some (ev_status e)) (Some (ev_progress e))
                 (Some (ev_message e))) m id ltac:(eauto)) as [job1 H1].
  exists job1. unfold progress_sink. rewrite H1.
  apply updateJobItem_lookup in H1 as (job0 & Hjob0 & H).
  rewrite Hm in Hjob0. inversion Hjob0; subst job0; clear Hjob0.
  destruct H as [->|(_ & item0 & Hitem0 & -> & _)]; [by eauto|].
  destruct (decide (ev_index e = i)) as [<-|Hne].
  - eexists. split; [done|]. split.
    + apply list_lookup_insert_eq. by apply lookup_lt_Some in Hitem0.
    + done.
  - exists item. split; [done|]. by rewrite list_lookup_insert_ne.
Qed.

Lemma foldl_keeps_started (id : jsstring) (i : nat) :
  forall events (m : gmap jsstring CopyJob),
  Forall (fun e => ev_status e <> st_pending) events ->
  (exists job item,
      m !! id = Some job /\ job_items job !! i = Some item
      /\ item_status item <> st_pending) ->
  exists job item,
    foldl (fun m e => progress_sink id e m) m events !! id = Some job
    /\ job_items job !! i = Some item
    /\ item_status item <> st_pending.
Proof.
  induction events as [|e events IH]; intros m Hev Hm; cbn [foldl]; [done|].
  inversion Hev as [|? ? He Hev']; subst.
  apply IH; [done|]. by apply sink_keeps_started.
Qed.

Lemma sink_sets_status (id : jsstring) (e : ProgressEvent)
    (m : gmap jsstring CopyJob) (job : CopyJob) (item : CopyItem) :
  m !! id = Some job -> job_items job !! ev_index e = Some item ->
  exists job' item',
    progress_sink id e m !! id = Some job'
    /\ job_items job' !! ev_index e = Some item'
    /\ item_status item' = ev_status e.
Proof.
  intros Hm Hitem. unfold progress_sink, updateJobItem. rewrite Hm, Hitem.
  cbn [upd_status].
  pose proof (lookup_lt_Some _ _ _ Hitem) as Hlt.
  destruct (is_terminal (ev_status e)); rewrite lookup_insert_eq;
    eexists _, _; (split; [reflexivity|]); cbn [job_items];
    (split; [by apply list_lookup_insert_eq|done]).
Qed.

(** X20: when [POST /api/copy] answers 200, the job id of the answer is
    the generated id and GET of that id finds the record of the
    submission: it has the id, [totalItems], the target folder and the
    date of the fresh record and the urls in the order of the request.
    It is not the fresh record, because the workers have run to their
    first [await]: every item waits ('Waiting...'), or has been claimed
    ('Starting...', progress 0), or has failed to parse ('Error: Invalid
    Google Drive URL'); when the concurrency of the request is a number
    the first item does not wait any more, and when it is NaN no worker
    was started and the record is the fresh one.  The target folder of
    the answer is the one of the request when the request names one; the
    other records are as before, and one promise was added. *)
Theorem accepted_submission_can_be_read_back env body s jobId st target s' :
  Server.POST env body s = (Http200 jobId st target, s') ->
  jobId = generateJobId (env_timestamp env) (env_random env)
  /\ st = job_processing
  /\ (exists urls job,
         req_urls body = Some urls /\ urls <> []
         /\ Server.GET jobId s' = StatusRoute.Json200 job
         /\ same_identity (new_job jobId urls target (env_createdAt env)) job
         /\ Forall item_at_start (job_items job)
         /\ (req_concurrency body <> Some JsNaN ->
             exists item,
               job_items job !! 0%nat = Some item
               /\ item_status item <> st_pending)
         /\ (req_concurrency body = Some JsNaN ->
             job = new_job jobId urls target (env_createdAt env)))
  /\ (forall c f, req_targetFolderId body = Some (c :: f) -> target = c :: f)
  /\ (forall other, other <> jobId ->
        Server.srv_jobs s' !! other = Server.srv_jobs s !! other)
  /\ (exists E, Server.srv_promises s'
                = Server.srv_promises s ++ [(jobId, Running E)]).
Proof.
  intros HP.
  destruct (server_POST_cases env body s)
    as [[_ Hno]|(urls & folderId & E & Hurls & Hne & Hfolder & _ & _ & Heq
                 & _)].
  { exfalso. apply (Hno jobId st target). by rewrite HP. }
  rewrite Heq in HP. injection HP as <- <- <- <-.
  set (id := generateJobId (env_timestamp env) (env_random env)) in *.
  set (safe := Math_max _ _) in *.
  set (E0 := batchCopy_start _ _ _ _ _ safe) in *.
  set (events := start_events _ _) in *.
  set (job0 := new_job id urls folderId (env_createdAt env)) in *.
  set (registered := <[id := job0]> (Server.srv_jobs s)).
  split; [done|]. split; [done|].
  assert (Hreg : registered !! id = Some job0) by apply lookup_insert_eq.
  destruct (foldl_sink_lookup id events registered job0 Hreg)
    as (job & Hjob & Hid).
  assert (Hshape : Forall (fun e => e = start_event (ev_index e)
                                    \/ e = error_event (ev_index e)
                                             (js "Invalid Google Drive URL"))
                     events) by apply start_events_shape.
  split; [|split; [|split]].
  - exists urls, job. split; [done|]. split; [done|].
    split; [unfold Server.GET, getJob; cbn [Server.srv_jobs];
            by fold registered; rewrite Hjob|].
    split; [done|]. split; [|split].
    + eapply (foldl_sink_at_start id events registered job0 job Hshape Hreg);
        [|exact Hjob].
      apply Forall_forall. intros item Hin.
      apply list_elem_of_lookup in Hin as [i Hi].
      cbn [job0 new_job job_items] in Hi.
      rewrite list_lookup_imap in Hi.
      destruct (urls !! i); inversion Hi; subst. by left.
    + intros Hnum.
      destruct urls as [|u urls]; [done|].
      assert (Hk : exists k, length (workers E0) = S k).
      { assert (0 < length (workers E0))%nat as Hpos.
        { cbn [E0 batchCopy_start workers]. rewrite length_replicate.
          rewrite make_items_length. subst safe.
          destruct (req_concurrency body) as [[z|]|]; [|done|];
            cbv [default from_option Datatypes.id safeConcurrency Math_max Math_min
                 ToLength COPY_CONFIG.MIN_CONCURRENCY
                 COPY_CONFIG.MAX_CONCURRENCY COPY_CONFIG.DEFAULT_CONCURRENCY];
            cbn [length]; lia. }
        destruct (length (workers E0)); [lia|eauto]. }
      destruct Hk as [k Hk].
      assert (Hfirst : exists e0 rest,
                 events = e0 :: rest /\ ev_index e0 = 0%nat
                 /\ ev_status e0 <> st_pending).
      { subst events. rewrite Hk. cbn [E0 batchCopy_start eng_items].
        unfold make_items. rewrite imap_cons.
        cbn [start_events first_await_events it_parsed it_index].
        destruct (parseGoogleDriveUrl u); cbn [app];
          eexists _, _; (split; [reflexivity|]); done. }
      destruct Hfirst as (e0 & rest & Hev & Hi0 & Hs0).
      assert (Hitem0 : exists item, job_items job0 !! ev_index e0 = Some item).
      { rewrite Hi0. cbn [job0 new_job job_items]. rewrite imap_cons.
        eauto. }
      destruct Hitem0 as [item0 Hitem0].
      destruct (sink_sets_status id e0 registered job0 item0 Hreg Hitem0)
        as (job1 & item1 & Hj1 & Hi1 & Hst1).
      destruct (foldl_keeps_started id 0%nat rest
                  (progress_sink id e0 registered))
        as (job' & item' & Hjob' & Hitem' & Hst').
      { rewrite Hev in Hshape. inversion Hshape as [|? ? _ Hrest]; subst.
        eapply Forall_impl; [exact Hrest|].
        intros e [-> | ->]; done. }
      { exists job1, item1. rewrite Hi0 in Hi1.
        split; [done|]. split; [done|]. congruence. }
      rewrite Hev in Hjob. cbn [foldl] in Hjob.
      rewrite Hjob in Hjob'. inversion Hjob'; subst job'. eauto.
    + intros Hnan.
      assert (Hev : events = []).
      { subst events. cbn [E0 batchCopy_start workers].
        rewrite length_replicate. subst safe. rewrite Hnan. reflexivity. }
      rewrite Hev in Hjob. cbn [foldl] in Hjob. rewrite Hreg in Hjob.
      by inversion Hjob.
  - intros c f Hf. rewrite Hf in Hfolder. cbn in Hfolder. congruence.
  - intros other Hother. cbn [Server.srv_jobs].
    fold registered. rewrite foldl_sink_other by done.
    by apply lookup_insert_ne.
  - by exists E.
Qed.

Lemma accepted_submission_can_be_read_back_witness :
  exists target job,
    Server.POST demo_env demo_body Server.initial
    = (Http200 demo_id job_processing target, demo_started)
    /\ Server.GET demo_id demo_started = StatusRoute.Json200 job
    /\ same_identity
         (new_job demo_id
            [js "https://drive.google.com/file/d/1AbCdEfGh/view";
             js "not-a-url"]
            target (env_createdAt demo_env)) job
    /\ Forall item_at_start (job_items job)
    /\ (exists item, job_items job !! 0%nat = Some item
                     /\ item_status item <> st_pending)
    /\ map item_status (job_items job) = [st_processing; st_error]
    /\ completedItems job = 1%nat.
Proof.
  assert (HP : Server.POST demo_env demo_body Server.initial
               = (Http200 demo_id job_processing
                    (js "new-" ++ js "Copied_2026-01-01"), demo_started))
    by (vm_compute; reflexivity).
  destruct (accepted_submission_can_be_read_back _ _ _ _ _ _ _ HP)
    as (_ & _ & (urls & job & Hurls & _ & Hget & Hid & Hall & Hfirst & _)
        & _).
  injection Hurls as <-.
  exists (js "new-" ++ js "Copied_2026-01-01"), job.
  split; [exact HP|]. split; [exact Hget|]. split; [exact Hid|].
  split; [exact Hall|]. split; [apply Hfirst; discriminate|].
  clear HP Hid Hall Hfirst. vm_compute in Hget. injection Hget as <-.
  split; reflexivity.
Defined.
